(** * FastMathApproximations (juce_dsp/maths/juce_FastMathApproximations.h)

    A shallow embedding of the eight Pade approximants of
    [juce::dsp::FastMathApproximations] and of their in-place buffer
    forms, with the properties the specification states about them.

    The C++ functions are templates over [FloatType].  The embedding
    keeps that genericity: the scalar code is written once over a type
    class [FloatType] that provides exactly the operators the source uses
    (conversion of an integer literal, [+], [*], unary [-], [/]), and is
    then read in two arithmetics:

    - exact arithmetic over the reals [R], in which the statements about
      polynomials, their zeros and the exact functions are made;
    - IEEE-754 binary arithmetic, rounding to nearest even, with the
      precision and the exponent bound as parameters ([binary32] is
      [float], [binary64] is [double]), on the executable specification
      [SpecFloat] of the Standard Library.

    Statements that only depend on the shape of the code (the buffer loop,
    the formulas, the symmetries) are proved once for both. *)

From Stdlib Require Import ZArith QArith Qreals Reals Machin Lra Lia Psatz.
From Stdlib Require Import Floats.SpecFloat.
From stdpp Require Import base list relations.

(** ** The numeric interface used by the templates *)

Class FloatType (F : Type) := {
fromZ : Z -> F;          (* integer literal, or [FloatType (n)] *)
fadd  : F -> F -> F;     (* x + y *)
fmul  : F -> F -> F;     (* x * y *)
fopp  : F -> F;          (* -x    *)
fdiv  : F -> F -> F      (* x / y *)
}.

Declare Scope float_scope.
Delimit Scope float_scope with fl.
Notation "x + y" := (fadd x y) : float_scope.
Notation "x * y" := (fmul x y) : float_scope.
Notation "x / y" := (fdiv x y) : float_scope.
Notation "- x" := (fopp x) : float_scope.
Notation "# n" := (fromZ n%Z)
  (at level 9, n at level 9, format "# n") : float_scope.

(** ** Scalar forms *)

Module FastMathApproximations.

Section Scalar.
Context {F : Type} {FT : FloatType F}.
Local Open Scope float_scope.

(** [cosh], lines 44-54. *)
Definition cosh_numerator (x : F) : F :=
  let a := #39251520 in let b := #39251520 in let c := #1075032 in
  let d := #14615 in
  let x2 := x * x in
  - (a + x2 * (b + x2 * (c + d * x2))).

Definition cosh_denominator (x : F) : F :=
  let a := #39251520 in
  let e := #1154160 in let f := #16632 in
  let g := #127 in
  let x2 := x * x in
  - a + x2 * (e + x2 * (- f + g * x2)).

Definition cosh (x : F) : F :=
  let a := #39251520 in let b := #39251520 in let c := #1075032 in
  let d := #14615 in let e := #1154160 in let f := #16632 in
  let g := #127 in
  let x2 := x * x in
  let numerator := - (a + x2 * (b + x2 * (c + d * x2))) in
  let denominator := - a + x2 * (e + x2 * (- f + g * x2)) in
  numerator / denominator.

(** [sinh], lines 75-82. *)
Definition sinh_numerator (x : F) : F :=
  let x2 := x * x in
  - x * (#11511339840
         + x2 * (#1640635920 + x2 * (#52785432 + x2 * #479249))).

Definition sinh_denominator (x : F) : F :=
  let x2 := x * x in
  #(-11511339840) + x2 * (#277920720 + x2 * (#(-3177720) + x2 * #18361)).

Definition sinh (x : F) : F :=
  let x2 := x * x in
  let numerator :=
    - x * (#11511339840
           + x2 * (#1640635920 + x2 * (#52785432 + x2 * #479249))) in
  let denominator :=
    #(-11511339840) + x2 * (#277920720 + x2 * (#(-3177720) + x2 * #18361)) in
  numerator / denominator.

(** [tanh], lines 103-110. *)
Definition tanh_numerator (x : F) : F :=
  let x2 := x * x in
  x * (#135135 + x2 * (#17325 + x2 * (#378 + x2))).

Definition tanh_denominator (x : F) : F :=
  let x2 := x * x in
  #135135 + x2 * (#62370 + x2 * (#3150 + #28 * x2)).

Definition tanh (x : F) : F :=
  let x2 := x * x in
  let numerator := x * (#135135 + x2 * (#17325 + x2 * (#378 + x2))) in
  let denominator := #135135 + x2 * (#62370 + x2 * (#3150 + #28 * x2)) in
  numerator / denominator.

(** [cos], lines 132-143. *)
Definition cos_numerator (x : F) : F :=
  let a := #39251520 in let b := #18471600 in
  let c := #1075032 in let d := #14615 in
  let x2 := x * x in
  - (- a + x2 * (b + x2 * (- c + d * x2))).

Definition cos_denominator (x : F) : F :=
  let a := #39251520 in
  let e := #1154160 in let f := #16632 in
  let g := #127 in
  let x2 := x * x in
  a + x2 * (e + x2 * (f + x2 * g)).

Definition cos (x : F) : F :=
  let a := #39251520 in let b := #18471600 in
  let c := #1075032 in let d := #14615 in
  let e := #1154160 in let f := #16632 in
  let g := #127 in
  let x2 := x * x in
  let numerator := - (- a + x2 * (b + x2 * (- c + d * x2))) in
  let denominator := a + x2 * (e + x2 * (f + x2 * g)) in
  numerator / denominator.

(** [sin], lines 164-174. *)
Definition sin_numerator (x : F) : F :=
  let a := #11511339840 in let b := #1640635920 in let c := #52785432 in
  let d := #479249 in
  let x2 := x * x in
  - x * (- a + x2 * (b + x2 * (- c + x2 * d))).

Definition sin_denominator (x : F) : F :=
  let a := #11511339840 in
  let e := #277920720 in let f := #3177720 in
  let g := #18361 in
  let x2 := x * x in
  a + x2 * (e + x2 * (f + x2 * g)).

Definition sin (x : F) : F :=
  let a := #11511339840 in let b := #1640635920 in let c := #52785432 in
  let d := #479249 in let e := #277920720 in let f := #3177720 in
  let g := #18361 in
  let x2 := x * x in
  let numerator := - x * (- a + x2 * (b + x2 * (- c + x2 * d))) in
  let denominator := a + x2 * (e + x2 * (f + x2 * g)) in
  numerator / denominator.

(** [tan], lines 195-202. *)
Definition tan_numerator (x : F) : F :=
  let x2 := x * x in
  x * (#(-135135) + x2 * (#17325 + x2 * (#(-378) + x2))).

Definition tan_denominator (x : F) : F :=
  let x2 := x * x in
  #(-135135) + x2 * (#62370 + x2 * (#(-3150) + #28 * x2)).

Definition tan (x : F) : F :=
  let x2 := x * x in
  let numerator := x * (#(-135135) + x2 * (#17325 + x2 * (#(-378) + x2))) in
  let denominator := #(-135135) + x2 * (#62370 + x2 * (#(-3150) + #28 * x2)) in
  numerator / denominator.

(** [exp], lines 224-230. *)
Definition exp_numerator (x : F) : F :=
  #1680 + x * (#840 + x * (#180 + x * (#20 + x))).

Definition exp_denominator (x : F) : F :=
  #1680 + x * (#(-840) + x * (#180 + x * (#(-20) + x))).

Definition exp (x : F) : F :=
  let numerator := #1680 + x * (#840 + x * (#180 + x * (#20 + x))) in
  let denominator := #1680 + x * (#(-840) + x * (#180 + x * (#(-20) + x))) in
  numerator / denominator.

(** [logNPlusOne], lines 251-257. *)
Definition logNPlusOne_numerator (x : F) : F :=
  x * (#7560 + x * (#15120 + x * (#9870 + x * (#2310 + x * #137)))).

Definition logNPlusOne_denominator (x : F) : F :=
  #7560 + x * (#18900 + x * (#16800 + x * (#6300 + x * (#900 + #30 * x)))).

Definition logNPlusOne (x : F) : F :=
  let numerator :=
    x * (#7560 + x * (#15120 + x * (#9870 + x * (#2310 + x * #137)))) in
  let denominator :=
    #7560 + x * (#18900 + x * (#16800 + x * (#6300 + x * (#900 + #30 * x)))) in
  numerator / denominator.
End Scalar.

(** ** Buffer forms

    Each buffer form is the same loop

      [for (size_t i = 0; i < numValues; ++i) values[i] = f (values[i]);]

    over a caller-owned array reached through a bare pointer.  The array is
    a list; reading or writing [values[i]] outside of it is undefined
    behaviour in C++, which the embedding reports as [None].
    [for_loop f remaining i values] runs the iterations [i], [i+1], ...,
    [i + remaining - 1], that is the loop from the point where the counter
    is [i] and [numValues = i + remaining]. *)

Section Buffer.
Context {F : Type} {FT : FloatType F}.

Fixpoint for_loop (f : F -> F) (remaining i : nat) (values : list F)
  : option (list F) :=
  match remaining with
  | O => Some values
  | S remaining' =>
      match values !! i with
      | Some v => for_loop f remaining' (S i) (<[i := f v]> values)
      | None => None
      end
  end.

Definition transform (f : F -> F) (values : list F) (numValues : nat)
  : option (list F) :=
  for_loop f numValues 0 values.

Definition cosh_buffer (values : list F) (numValues : nat) :=
  transform cosh values numValues.
Definition sinh_buffer (values : list F) (numValues : nat) :=
  transform sinh values numValues.
Definition tanh_buffer (values : list F) (numValues : nat) :=
  transform tanh values numValues.
Definition cos_buffer (values : list F) (numValues : nat) :=
  transform cos values numValues.
Definition sin_buffer (values : list F) (numValues : nat) :=
  transform sin values numValues.
Definition tan_buffer (values : list F) (numValues : nat) :=
  transform tan values numValues.
Definition exp_buffer (values : list F) (numValues : nat) :=
  transform exp values numValues.
Definition logNPlusOne_buffer (values : list F) (numValues : nat) :=
  transform logNPlusOne values numValues.

(** The loop as a transition system on the pair (counter, array): one
    transition is one execution of the loop body followed by [++i]; it is
    enabled when the loop test [i < numValues] holds and [values[i]] lies
    inside the array. *)
Inductive loop_step (f : F -> F) (numValues : nat)
  : relation (nat * list F) :=
| loop_body i values v :
    i < numValues ->
    values !! i = Some v ->
    loop_step f numValues (i, values) (S i, <[i := f v]> values).

End Buffer.

(** The eight approximations, to state a property once for all of them. *)
Inductive approximation :=
  Cosh | Sinh | Tanh | Cos | Sin | Tan | Exp | LogNPlusOne.

Definition scalar {F : Type} {FT : FloatType F} (fn : approximation)
  : F -> F :=
  match fn with
  | Cosh => cosh | Sinh => sinh | Tanh => tanh
  | Cos => cos | Sin => sin | Tan => tan
  | Exp => exp | LogNPlusOne => logNPlusOne
  end.

Definition numerator {F : Type} {FT : FloatType F} (fn : approximation)
  : F -> F :=
  match fn with
  | Cosh => cosh_numerator | Sinh => sinh_numerator | Tanh => tanh_numerator
  | Cos => cos_numerator | Sin => sin_numerator | Tan => tan_numerator
  | Exp => exp_numerator | LogNPlusOne => logNPlusOne_numerator
  end.

Definition denominator {F : Type} {FT : FloatType F} (fn : approximation)
  : F -> F :=
  match fn with
  | Cosh => cosh_denominator | Sinh => sinh_denominator
  | Tanh => tanh_denominator
  | Cos => cos_denominator | Sin => sin_denominator | Tan => tan_denominator
  | Exp => exp_denominator | LogNPlusOne => logNPlusOne_denominator
  end.

Definition buffer {F : Type} {FT : FloatType F} (fn : approximation)
  : list F -> nat -> option (list F) :=
  match fn with
  | Cosh => cosh_buffer | Sinh => sinh_buffer | Tanh => tanh_buffer
  | Cos => cos_buffer | Sin => sin_buffer | Tan => tan_buffer
  | Exp => exp_buffer | LogNPlusOne => logNPlusOne_buffer
  end.

End FastMathApproximations.

Module FMA := FastMathApproximations.

(** ** The two arithmetics *)

(** Exact arithmetic. *)
#[global] Instance exact : FloatType R :=
  {| fromZ := IZR; fadd := Rplus; fmul := Rmult; fopp := Ropp; fdiv := Rdiv |}.

(** IEEE-754 binary arithmetic with [prec] bits of precision and exponent
    bound [emax], rounding to nearest even.  An integer literal is
    converted by rounding it to the format. *)
Definition ieee (prec emax : Z) : FloatType spec_float :=
  {| fromZ := fun n => binary_normalize prec emax n 0 false;
     fadd := SFadd prec emax;
     fmul := SFmul prec emax;
     fopp := SFopp;
     fdiv := SFdiv prec emax |}.

Definition binary32 : FloatType spec_float := ieee 24 128.
Definition binary64 : FloatType spec_float := ieee 53 1024.

(** [m * 2^e] as a value of the format. *)
Definition b64 (m e : Z) : spec_float := binary_normalize 53 1024 m e false.
Definition b32 (m e : Z) : spec_float := binary_normalize 24 128 m e false.

(** ** Vocabulary of the specification *)

(** The input range each function documents ("use input values only
    between ... for limiting the error"), as a set of real numbers. *)
Definition in_domain (fn : FMA.approximation) (x : R) : Prop :=
  match fn with
  | FMA.Cosh | FMA.Sinh | FMA.Tanh => (-5 <= x <= 5)%R
  | FMA.Cos | FMA.Sin => (- PI <= x <= PI)%R
  | FMA.Tan => (- PI / 2 <= x <= PI / 2)%R
  | FMA.Exp => (-6 <= x <= 4)%R
  | FMA.LogNPlusOne => (-8 / 10 <= x <= 5)%R
  end.

(** The value each exact function takes at 0. *)
Definition value_at_zero (fn : FMA.approximation) : Z :=
  match fn with
  | FMA.Cosh | FMA.Cos | FMA.Exp => 1
  | FMA.Sinh | FMA.Tanh | FMA.Sin | FMA.Tan | FMA.LogNPlusOne => 0
  end.

(** The polynomials of the exponential and of the logarithm as the
    specification writes them (sections 4.3 and 4.4). *)
Section SpecPolynomials.
Context {F : Type} {FT : FloatType F}.
Local Open Scope float_scope.

Definition exp_N_spec (x : F) : F :=
  #1680 + x * (#840 + x * (#180 + x * (#20 + x))).

Definition exp_D_spec (x : F) : F :=
  #1680 + x * (#(-840) + x * (#180 + x * (#(-20) + x))).

Definition logNPlusOne_N_spec (x : F) : F :=
  x * (#7560 + x * (#15120 + x * (#9870 + x * (#2310 + #137 * x)))).

Definition logNPlusOne_D_spec (x : F) : F :=
  #7560 + x * (#18900 + x * (#16800 + x * (#6300 + x * (#900 + #30 * x)))).

End SpecPolynomials.

(** The laws of negation and of the commutativity of the product that both
    arithmetics obey; IEEE arithmetic obeys them because rounding to nearest
    even is symmetric in the sign. *)
Class FloatLaws (F : Type) {FT : FloatType F} : Prop := {
fopp_involutive : forall x : F, (- - x = x)%fl;
fmul_comm : forall x y : F, (x * y = y * x)%fl;
fmul_fopp_l : forall x y : F, ((- x) * y = - (x * y))%fl;
fdiv_fopp_l : forall x y : F, ((- x) / y = - (x / y))%fl
}.

(** The numerator of [cosh] with its second constant [b] as a parameter:
    the source is the instance [b = 39251520], and [cos] carries
    [b = 18471600] next to the same [a], [c], [d], [e], [f] and [g]. *)
Definition cosh_numerator_with (b : Z) (x : R) : R :=
  let a := 39251520%R in let c := 1075032%R in let d := 14615%R in
  let x2 := (x * x)%R in
  (- (a + x2 * (IZR b + x2 * (c + d * x2))))%R.

(** The Taylor polynomial of the hyperbolic cosine, of degree 12. *)
Definition cosh_taylor (x : R) : R :=
  (1 + x ^ 2 / 2 + x ^ 4 / 24 + x ^ 6 / 720 + x ^ 8 / 40320
   + x ^ 10 / 3628800 + x ^ 12 / 479001600)%R.

(** The Taylor polynomials of the cosine (degree 12) and of the
    hyperbolic sine (degree 13). *)
Definition cos_taylor (x : R) : R :=
  (1 - x ^ 2 / 2 + x ^ 4 / 24 - x ^ 6 / 720 + x ^ 8 / 40320
   - x ^ 10 / 3628800 + x ^ 12 / 479001600)%R.

Definition sinh_taylor (x : R) : R :=
  (x + x ^ 3 / 6 + x ^ 5 / 120 + x ^ 7 / 5040 + x ^ 9 / 362880
   + x ^ 11 / 39916800 + x ^ 13 / 6227020800)%R.

(** The real number a finite IEEE value stands for. *)
Definition to_real (x : spec_float) : R :=
  match x with
  | S754_finite s m e =>
      ((if s then -1 else 1) * IZR (Zpos m) * powerRZ 2 e)%R
  | _ => 0%R
  end.

(** ** Polynomials with rational coefficients

    Coefficient lists, lowest degree first, with the operations needed to
    bound a polynomial on an interval by computation. *)

Fixpoint peval (cs : list Q) (t : R) : R :=
  match cs with
  | [] => 0%R
  | c :: cs' => (Q2R c + t * peval cs' t)%R
  end.

Fixpoint padd (a b : list Q) : list Q :=
  match a, b with
  | [], _ => b
  | _, [] => a
  | x :: a', y :: b' => Qred (x + y) :: padd a' b'
  end.

Definition pscale (k : Q) (a : list Q) : list Q :=
  map (fun x => Qred (k * x)) a.

Definition psub (a b : list Q) : list Q := padd a (pscale (-1) b).

Fixpoint pmul (a b : list Q) : list Q :=
  match a with
  | [] => []
  | x :: a' => padd (pscale x b) (0%Q :: pmul a' b)
  end.

(** [pshift l cs] is [t |-> cs (l + t)], [pdilate k cs] is
    [t |-> cs (k * t)]. *)
Fixpoint pshift (l : Q) (cs : list Q) : list Q :=
  match cs with
  | [] => []
  | c :: cs' => let r := pshift l cs' in padd (c :: r) (pscale l r)
  end.

Fixpoint pdilate (k : Q) (cs : list Q) : list Q :=
  match cs with
  | [] => []
  | c :: cs' => c :: pscale k (pdilate k cs')
  end.

Definition Qpositive (q : Q) : bool :=
  match Qcompare 0 q with Lt => true | _ => false end.

(** Polynomials with integer coefficients, to decide the sign of a
    polynomial on [0, 1] by bisection, with additions and products by
    powers of 2 only. *)
Fixpoint zeval (cs : list Z) (t : R) : R :=
  match cs with
  | [] => 0%R
  | c :: cs' => (IZR c + t * zeval cs' t)%R
  end.

Fixpoint zadd (a b : list Z) : list Z :=
  match a, b with
  | [], _ => b
  | _, [] => a
  | x :: a', y :: b' => (x + y)%Z :: zadd a' b'
  end.

(** [t |-> cs (t + 1)]. *)
Fixpoint zshift1 (cs : list Z) : list Z :=
  match cs with
  | [] => []
  | c :: cs' => let r := zshift1 cs' in zadd (c :: r) r
  end.

(** [t |-> 2 ^ n * cs (t / 2)], where [n + 1] is the length of [cs]. *)
Fixpoint zhalf (cs : list Z) : list Z :=
  match cs with
  | [] => []
  | c :: cs' => (c * 2 ^ Z.of_nat (length cs'))%Z :: zhalf cs'
  end.

(** A lower bound of [cs] on [0, 1], by Horner's scheme. *)
Fixpoint zlow (cs : list Z) : Z :=
  match cs with
  | [] => 0%Z
  | c :: cs' => (c + Z.min 0 (zlow cs'))%Z
  end.

(** [cs] is positive on [0, 1]: either the bound says so, or, up to
    [depth] times, it is positive on the two halves. *)
Fixpoint zpositive_on (depth : nat) (cs : list Z) : bool :=
  if (0 <? zlow cs)%Z then true
  else
    match depth with
    | O => false
    | S depth' =>
        let h := zhalf cs in
        zpositive_on depth' h && zpositive_on depth' (zshift1 h)
    end.

(** A positive multiple of [cs] with integer coefficients, and the
    multiplier, the least common multiple of the denominators. *)
Fixpoint integerize (cs : list Q) : list Z * Z :=
  match cs with
  | [] => ([], 1%Z)
  | c :: cs' =>
      let (zs, d) := integerize cs' in
      let m := Zpos (Qden c) in
      let g := Z.gcd m d in
      ((Qnum c * (d / g))%Z :: map (Z.mul (m / g)) zs, (m / g * d)%Z)
  end.

(** [cs] is positive on [l, l + h]. *)
Definition positive_on (depth : nat) (cs : list Q) (l h : Q) : bool :=
  zpositive_on depth (fst (integerize (pdilate h (pshift l cs)))).

(** The coefficients below degree [k] are 0. *)
Definition low_zero (k : nat) (cs : list Q) : bool :=
  forallb (fun c => Qeq_bool c 0) (take k cs).

(** The factorial, and the sign of the term of index [i] of an alternating
    series. *)
Fixpoint pfact (n : nat) : positive :=
  match n with
  | O => 1%positive
  | S k => (Pos.of_succ_nat k * pfact k)%positive
  end.

Definition alt_sign (i : nat) : Z := if Nat.even i then 1%Z else (-1)%Z.

(** The monomial [c * t ^ k]. *)
Definition pmono (k : nat) (c : Q) : list Q := repeat 0%Q k ++ [c].

(** The partial sums of the series of the sine and of the cosine, up to
    the term of index [n]. *)
Fixpoint sin_series (n : nat) : list Q :=
  let term i := pmono (2 * i + 1) (Qmake (alt_sign i) (pfact (2 * i + 1))) in
  match n with
  | O => term O
  | S k => padd (sin_series k) (term n)
  end.

Fixpoint cos_series (n : nat) : list Q :=
  let term i := pmono (2 * i) (Qmake (alt_sign i) (pfact (2 * i))) in
  match n with
  | O => term O
  | S k => padd (cos_series k) (term n)
  end.

(** Derivative of a coefficient list, and evaluation at a rational. *)
Fixpoint pderiv (cs : list Q) : list Q :=
  match cs with
  | [] => []
  | c :: cs' => padd cs' (0%Q :: pderiv cs')
  end.

Fixpoint qeval (cs : list Q) (q : Q) : Q :=
  match cs with
  | [] => 0%Q
  | c :: cs' => Qred (c + q * qeval cs' q)
  end.

(** The numerator and the denominator of each approximation as a list of
    coefficients in [x], lowest degree first; they are related to the
    scalar forms by the lemmas [*_is_poly]. *)
Definition sin_numerator_poly : list Q :=
  [0; 11511339840; 0; -1640635920; 0; 52785432; 0; -479249]%Q.
Definition sin_denominator_poly : list Q :=
  [11511339840; 0; 277920720; 0; 3177720; 0; 18361]%Q.

(** A rational above [PI]. *)
Definition PI_up : Q := Qmake 3217 1024.

Definition cos_numerator_poly : list Q :=
  [39251520; 0; -18471600; 0; 1075032; 0; -14615]%Q.
Definition cos_denominator_poly : list Q :=
  [39251520; 0; 1154160; 0; 16632; 0; 127]%Q.

(** A rational above [PI / 2]. *)
Definition half_up : Q := Qmake 1609 1024.

Definition exp_numerator_poly : list Q := [1680; 840; 180; 20; 1]%Q.
Definition exp_denominator_poly : list Q := [1680; -840; 180; -20; 1]%Q.

(** The partial sum of index [m] of the series of [exp (a / b)], as a
    fraction [T / F] of integers with [F = m! * b ^ m]; the third
    component is [a ^ m]. *)
Fixpoint exp_sum (a b : Z) (m : nat) : Z * Z * Z :=
  match m with
  | O => (1, 1, 1)%Z
  | S j =>
      let '(T, F, P) := exp_sum a b j in
      let s := (Z.of_nat m * b)%Z in
      (T * s + P * a, F * s, P * a)%Z
  end.

(** Rational bounds of [exp (- q)], from the series at [- q / k] with
    [2 n + 2] and [2 n + 1] terms, raised to the power [k]. *)
Definition exp_neg_fraction (k m : nat) (q : Q) : Z * Z :=
  let '(T, F, _) := exp_sum (- Qnum q) (Zpos (Qden q) * Z.of_nat k) m in
  (T, F).
(** The fraction rounded down, or up, to a multiple of [2 ^ -64], and
    raised to the power [k]. *)
Definition exp_neg_power (up : bool) (k m : nat) (q : Q) : Q :=
  let (T, F) := exp_neg_fraction k m q in
  let r := (T * 2 ^ 64 / F)%Z in
  Qmake ((if up then r + 1 else r) ^ Z.of_nat k)
        (Z.to_pos ((2 ^ 64) ^ Z.of_nat k)).
Definition exp_neg_below (k n : nat) (q : Q) : Q :=
  exp_neg_power false k (S (2 * n)) q.
Definition exp_neg_above (k n : nat) (q : Q) : Q :=
  exp_neg_power true k (2 * n) q.
Definition exp_neg_bounds_ok (k n : nat) (q : Q) : bool :=
  negb (Nat.eqb k 0) && (0 <=? Qnum q)%Z
  && (Qnum q <=? Zpos (Qden q) * Z.of_nat k)%Z
  && (0 <=? fst (exp_neg_fraction k (S (2 * n)) q))%Z.

(** The ratio of the approximation to the exponential, and its
    derivative. *)
Definition exp_ratio : R -> R :=
  (peval exp_numerator_poly / peval exp_denominator_poly * comp exp (- id))%F.
Definition exp_ratio' (x : R) : R :=
  (- x ^ 8 / (FMA.exp_denominator (FT := exact) x) ^ 2 * exp (- x))%R.

Definition logNPlusOne_numerator_poly : list Q :=
  [0; 7560; 15120; 9870; 2310; 137]%Q.
Definition logNPlusOne_denominator_poly : list Q :=
  [7560; 18900; 16800; 6300; 900; 30]%Q.

(** The error of the approximation of the logarithm and its derivative. *)
Definition logNPlusOne_error : R -> R :=
  (peval logNPlusOne_numerator_poly / peval logNPlusOne_denominator_poly
   - comp ln (fct_cte 1 + id))%F.
Definition logNPlusOne_error' (x : R) : R :=
  (- (900 * x ^ 10)
   / ((FMA.logNPlusOne_denominator (FT := exact) x) ^ 2 * (1 + x)))%R.

Definition tan_numerator_poly : list Q :=
  [0; -135135; 0; 17325; 0; -378; 0; 1]%Q.
Definition tan_denominator_poly : list Q :=
  [-135135; 0; 62370; 0; -3150; 0; 28]%Q.

(** The angle whose tangent the approximation returns, minus the input,
    and its derivative. *)
Definition tan_angle_error : R -> R :=
  (comp atan (peval tan_numerator_poly / peval tan_denominator_poly) - id)%F.
Definition tan_angle_error' (x : R) : R :=
  (- x ^ 14 / ((FMA.tan_denominator (FT := exact) x) ^ 2
               + (FMA.tan_numerator (FT := exact) x) ^ 2))%R.
(** A rational between [PI / 2] and the zero of the denominator. *)
Definition tan_edge : R := (157079632685 / 100000000000)%R.

Definition tanh_numerator_poly : list Q :=
  [0; 135135; 0; 17325; 0; 378; 0; 1]%Q.
Definition tanh_denominator_poly : list Q :=
  [135135; 0; 62370; 0; 3150; 0; 28]%Q.
(** Denominator plus numerator, and denominator minus numerator. *)
Definition tanh_sum_poly : list Q :=
  [135135; 135135; 62370; 17325; 3150; 378; 28; 1]%Q.
Definition tanh_difference_poly : list Q :=
  [135135; -135135; 62370; -17325; 3150; -378; 28; -1]%Q.

(** [(1 - r) / (1 + r) * exp (2 x)] for the approximation [r] of [tanh x]:
    it is 1 where [r] is [tanh x].  With its derivative. *)
Definition tanh_ratio : R -> R :=
  (peval tanh_difference_poly / peval tanh_sum_poly
   * comp exp (mult_real_fct 2 id))%F.
Definition tanh_ratio' (x : R) : R :=
  (- (2 * x ^ 14) / (peval tanh_sum_poly x) ^ 2 * exp (2 * x))%R.

Definition tanh_denominator_square_poly : list Q :=
  pmul tanh_denominator_poly tanh_denominator_poly.
Definition tanh_bound_poly : list Q := pmono 15 (Qmake 12 100).

(** A bound of the error of the approximation of [tanh] on [0, 5]. *)
Definition tanh_error_bound (x : R) : R :=
  (12 / 100 * x ^ 15 / (FMA.tanh_denominator (FT := exact) x) ^ 2)%R.
(** The bound, minus the approximation, plus [tanh], and its derivative. *)
Definition tanh_slack : R -> R :=
  (peval tanh_bound_poly / peval tanh_denominator_square_poly
   - peval tanh_numerator_poly / peval tanh_denominator_poly
   + sinh / cosh)%F.
Definition tanh_slack' (x : R) : R :=
  ((peval (pderiv tanh_bound_poly) x * peval tanh_denominator_square_poly x
    - peval (pderiv tanh_denominator_square_poly) x * peval tanh_bound_poly x)
   / Rsqr (peval tanh_denominator_square_poly x)
   - (peval (pderiv tanh_numerator_poly) x * peval tanh_denominator_poly x
      - peval (pderiv tanh_denominator_poly) x * peval tanh_numerator_poly x)
     / Rsqr (peval tanh_denominator_poly x)
   + (cosh x * cosh x - sinh x * sinh x) / Rsqr (cosh x))%R.

Definition sinh_numerator_poly : list Q :=
  [0; -11511339840; 0; -1640635920; 0; -52785432; 0; -479249]%Q.
Definition sinh_denominator_poly : list Q :=
  [-11511339840; 0; 277920720; 0; -3177720; 0; 18361]%Q.
(** The numerator of the derivative of the quotient. *)
Definition sinh_slope_poly : list Q :=
  psub (pmul (pderiv sinh_numerator_poly) sinh_denominator_poly)
       (pmul (pderiv sinh_denominator_poly) sinh_numerator_poly).
(** [slope ^ 2 - D ^ 2 * (N ^ 2 + D ^ 2)]: positive where the derivative of
    the approximation [r] is above [sqrt (r ^ 2 + 1)]. *)
Definition sinh_growth_poly : list Q :=
  psub (pmul sinh_slope_poly sinh_slope_poly)
       (pmul (pmul sinh_denominator_poly sinh_denominator_poly)
             (padd (pmul sinh_numerator_poly sinh_numerator_poly)
                   (pmul sinh_denominator_poly sinh_denominator_poly))).

(** The argument whose hyperbolic sine the approximation returns, minus the
    input, and its derivative. *)
Definition sinh_argument_error : R -> R :=
  (comp arcsinh (peval sinh_numerator_poly / peval sinh_denominator_poly)
   - id)%F.
Definition sinh_argument_error' (x : R) : R :=
  (/ sqrt ((peval sinh_numerator_poly x / peval sinh_denominator_poly x) ^ 2
           + 1)
   * (peval sinh_slope_poly x / Rsqr (peval sinh_denominator_poly x)) - 1)%R.

(** A rational lower bound of [sinh q], from an upper bound of [exp (- q)]. *)
Definition sinh_below (k n : nat) (q : Q) : Q :=
  let u := exp_neg_above k n q in ((/ u - u) / 2)%Q.

Definition cosh_numerator_poly : list Q :=
  [-39251520; 0; -39251520; 0; -1075032; 0; -14615]%Q.
Definition cosh_denominator_poly : list Q :=
  [-39251520; 0; 1154160; 0; -16632; 0; 127]%Q.
(** [x ^ 2 / 2 * D - N] is the opposite of the numerator of the
    approximation minus [x ^ 2 / 2]. *)
Definition cosh_excess_poly : list Q :=
  psub (pmul (pmono 2 (Qmake 1 2)) cosh_denominator_poly) cosh_numerator_poly.
(** [(excess * Ds) ^ 2 - (D * Ds) ^ 2 - (Ns * D) ^ 2] with the numerator and
    the denominator of [sinh]. *)
Definition cosh_margin_poly : list Q :=
  psub (psub (pmul (pmul cosh_excess_poly sinh_denominator_poly)
                   (pmul cosh_excess_poly sinh_denominator_poly))
             (pmul (pmul cosh_denominator_poly sinh_denominator_poly)
                   (pmul cosh_denominator_poly sinh_denominator_poly)))
       (pmul (pmul sinh_numerator_poly cosh_denominator_poly)
             (pmul sinh_numerator_poly cosh_denominator_poly)).

(** The coefficients are not negative and the constant one is positive. *)
Definition positive_coefficients (cs : list Q) : bool :=
  match cs with
  | [] => false
  | c :: cs' => Qpositive c && forallb (Qle_bool 0) cs'
  end.

(** An infinity or NaN. *)
Definition is_non_finite (x : spec_float) : bool :=
  match x with
  | S754_infinity _ | S754_nan => true
  | _ => false
  end.

(** The numerator of the derivative of the quotient of two polynomials. *)
Definition slope_poly (n d : list Q) : list Q :=
  psub (pmul (pderiv n) d) (pmul (pderiv d) n).

(** ** The buffer loop *)

Section BufferLoop.
Context {F : Type} (f : F -> F).
Implicit Types (values : list F) (i j k : nat).

(** What the loop does when the iterations stay inside the array: the
    cells [i .. i+k-1] receive [f] of their old content, every other cell
    and the length are kept. *)
Lemma for_loop_inside k : forall i values,
  i + k <= length values ->
  exists values',
    FMA.for_loop f k i values = Some values' /\
    length values' = length values /\
    forall j, values' !! j =
      if decide (i <= j < i + k) then f <$> values !! j else values !! j.
Proof.
  induction k as [|k IH]; intros i values Hlen; simpl.
  - exists values. split_and!; [done..|].
    intros j. case_decide; [lia|done].
  - destruct (lookup_lt_is_Some_2 values i) as [v Hv]; [lia|].
    rewrite Hv.
    destruct (IH (S i) (<[i := f v]> values)) as (values' & Hrun & Hl & Hget).
    { rewrite length_insert. lia. }
    exists values'. split_and!; [done| by rewrite Hl, length_insert |].
    intros j. rewrite Hget.
    destruct (decide (j = i)) as [->|Hne].
    + repeat case_decide; try lia.
      rewrite list_lookup_insert_eq by lia. by rewrite Hv.
    + rewrite list_lookup_insert_ne by done.
      repeat case_decide; done || lia.
Qed.

(** An iteration that leaves the array is undefined behaviour. *)
Lemma for_loop_outside k : forall i values,
  k <> 0 -> length values < i + k -> FMA.for_loop f k i values = None.
Proof.
  induction k as [|k IH]; intros i values Hk Hlen; simpl; [done|].
  destruct (values !! i) as [v|] eqn:Hv; [|done].
  apply lookup_lt_Some in Hv.
  apply IH; [|rewrite length_insert]; lia.
Qed.

Lemma transform_outside values n :
  length values < n -> FMA.transform f values n = None.
Proof. intros Hn. apply for_loop_outside; lia. Qed.

Lemma transform_inside values n :
  n <= length values ->
  FMA.transform f values n = Some (map f (take n values) ++ drop n values).
Proof.
  intros Hn. unfold FMA.transform.
  destruct (for_loop_inside n 0 values) as (values' & -> & Hl & Hget); [lia|].
  f_equal. apply list_eq. intros j. rewrite Hget.
  destruct (decide (j < n)) as [Hj|Hj].
  - rewrite decide_True by lia.
    rewrite lookup_app_l by (rewrite length_map, length_take; lia).
    by rewrite list_lookup_fmap, lookup_take_lt.
  - rewrite decide_False by lia.
    rewrite lookup_app_r by (rewrite length_map, length_take; lia).
    rewrite length_map, length_take, lookup_drop. f_equal. lia.
Qed.

(** The transition system is deterministic and runs the function. *)
Lemma loop_step_deterministic numValues s s1 s2 :
  FMA.loop_step f numValues s s1 -> FMA.loop_step f numValues s s2 -> s1 = s2.
Proof.
  intros H1 H2. destruct H1 as [i values v Hi Hv].
  inversion H2; subst. congruence.
Qed.

Lemma loop_step_exit numValues values :
  nf (FMA.loop_step f numValues) (numValues, values).
Proof. intros [s Hs]. inversion Hs; subst. lia. Qed.

Lemma for_loop_steps k : forall i values values',
  FMA.for_loop f k i values = Some values' ->
  nsteps (FMA.loop_step f (i + k)) k (i, values) (i + k, values').
Proof.
  induction k as [|k IH]; intros i values values'; simpl.
  - intros [= ->]. rewrite Nat.add_0_r. constructor.
  - destruct (values !! i) as [v|] eqn:Hv; [|done]. intros Hrun.
    apply IH in Hrun. replace (i + S k) with (S i + k) by lia.
    eapply nsteps_l; [|exact Hrun].
    constructor; [lia|done].
Qed.

Lemma complete_run_unique {A} (R : relation A) :
  (forall x y z, R x y -> R x z -> y = z) ->
  forall n x y, nsteps R n x y -> nf R y ->
  forall m z, nsteps R m x z -> nf R z -> m = n /\ z = y.
Proof.
  intros Hdet n x y Hn.
  induction Hn as [x|n x x' y Hx Hn IH]; intros Hy m z Hm Hz.
  - destruct Hm as [|m x1 x2 z Hx1 Hm]; [done|].
    destruct Hy. by exists x2.
  - destruct Hm as [x|m x1 x2 z Hx1 Hm].
    + destruct Hz. by exists x'.
    + rewrite (Hdet _ _ _ Hx1 Hx) in Hm.
      destruct (IH Hy _ _ Hm Hz) as [-> ->]. done.
Qed.

End BufferLoop.

Lemma buffer_is_transform {F : Type} {FT : FloatType F}
    (fn : FMA.approximation) :
  FMA.buffer fn = FMA.transform (FMA.scalar fn).
Proof. by destruct fn. Qed.

(** ** Laws of the two arithmetics *)

#[global] Instance exact_laws : FloatLaws R.
Proof.
  split; simpl; intros.
  - apply Ropp_involutive.
  - apply Rmult_comm.
  - apply Ropp_mult_distr_l_reverse.
  - unfold Rdiv. apply Ropp_mult_distr_l_reverse.
Qed.

Section IEEE.
Variables prec emax : Z.

Lemma SFopp_involutive (x : spec_float) : SFopp (SFopp x) = x.
Proof. destruct x as [s|s| |s m e]; simpl; by rewrite ?negb_involutive. Qed.

Lemma binary_round_aux_negb (s : bool) (m e : Z) (l : location) :
  binary_round_aux prec emax (negb s) m e l
  = SFopp (binary_round_aux prec emax s m e l).
Proof.
  unfold binary_round_aux.
  destruct (shr_fexp prec emax m e l) as [mrs' e'].
  destruct (shr_fexp prec emax _ e' loc_Exact) as [mrs'' e''].
  destruct (shr_m mrs''); [done| |done].
  by destruct (Z.leb e'' (emax - prec)).
Qed.

Lemma SFmul_comm (x y : spec_float) :
  SFmul prec emax x y = SFmul prec emax y x.
Proof.
  destruct x as [sx|sx| |sx mx ex], y as [sy|sy| |sy my ey]; simpl;
    rewrite ?(xorb_comm sx sy); try done.
  by rewrite Pos.mul_comm, Z.add_comm.
Qed.

Lemma SFmul_opp_l (x y : spec_float) :
  SFmul prec emax (SFopp x) y = SFopp (SFmul prec emax x y).
Proof.
  destruct x as [sx|sx| |sx mx ex], y as [sy|sy| |sy my ey]; simpl;
    rewrite <- ?negb_xorb_l; try done.
  apply binary_round_aux_negb.
Qed.

Lemma SFdiv_opp_l (x y : spec_float) :
  SFdiv prec emax (SFopp x) y = SFopp (SFdiv prec emax x y).
Proof.
  destruct x as [sx|sx| |sx mx ex], y as [sy|sy| |sy my ey]; simpl;
    rewrite <- ?negb_xorb_l; try done.
  destruct (SFdiv_core_binary prec emax _ ex _ ey) as [[mz ez] lz].
  apply binary_round_aux_negb.
Qed.

Lemma ieee_laws : FloatLaws (FT := ieee prec emax) spec_float.
Proof.
  split; simpl.
  - apply SFopp_involutive.
  - apply SFmul_comm.
  - apply SFmul_opp_l.
  - apply SFdiv_opp_l.
Qed.

End IEEE.

(** ** Buffer forms against scalar forms *)

(** C1.  For each of the eight functions the buffer form is elementwise
    the scalar form: when the count [n] stays inside the array, the call
    returns and, for every index [i < n], the element at [i] is the scalar
    function applied to the value that was there before the call. *)
Theorem buffer_form_elementwise {F : Type} {FT : FloatType F}
    (fn : FMA.approximation) (buf : list F) (n : nat) :
  n <= length buf ->
  exists buf',
    FMA.buffer fn buf n = Some buf' /\
    forall i, i < n -> buf' !! i = FMA.scalar fn <$> buf !! i.
Proof.
  intros Hn. rewrite buffer_is_transform. unfold FMA.transform.
  destruct (for_loop_inside (FMA.scalar fn) n 0 buf)
    as (buf' & Hrun & _ & Hget); [lia|].
  exists buf'. split; [done|].
  intros i Hi. rewrite Hget. by rewrite decide_True by lia.
Qed.

Lemma buffer_form_elementwise_witness :
  3 <= length [b64 0 0; b64 1 (-1); b64 1 0] /\
  exists buf',
    FMA.buffer (FT := binary64) FMA.Sin [b64 0 0; b64 1 (-1); b64 1 0] 3
      = Some buf' /\
    forall i, i < 3 ->
      buf' !! i
      = FMA.scalar (FT := binary64) FMA.Sin
          <$> [b64 0 0; b64 1 (-1); b64 1 0] !! i.
Proof.
  split; [simpl; lia|].
  apply (buffer_form_elementwise (FT := binary64) FMA.Sin); simpl; lia.
Defined.

(** C3.  A buffer form writes nothing past the requested count: every
    element at an index [>= n] is unchanged (and the array keeps its
    length); a call with [n = 0] returns the array as it was. *)
Theorem buffer_form_frame {F : Type} {FT : FloatType F}
    (fn : FMA.approximation) (buf : list F) (n : nat) :
  n <= length buf ->
  exists buf',
    FMA.buffer fn buf n = Some buf' /\
    length buf' = length buf /\
    (forall i, n <= i -> buf' !! i = buf !! i) /\
    (n = 0 -> buf' = buf).
Proof.
  intros Hn. rewrite buffer_is_transform.
  destruct (for_loop_inside (FMA.scalar fn) n 0 buf)
    as (buf' & Hrun & Hlen & Hget); [lia|].
  exists buf'. split_and!; [done|done| |].
  - intros i Hi. rewrite Hget. by rewrite decide_False by lia.
  - intros ->. simpl in Hrun. congruence.
Qed.

Lemma buffer_form_frame_witness :
  1 <= length [b64 1 0; b64 3 0; b64 5 0] /\
  exists buf',
    FMA.buffer (FT := binary64) FMA.Exp [b64 1 0; b64 3 0; b64 5 0] 1
      = Some buf' /\
    length buf' = length [b64 1 0; b64 3 0; b64 5 0] /\
    (forall i, 1 <= i -> buf' !! i = [b64 1 0; b64 3 0; b64 5 0] !! i) /\
    (1 = 0 -> buf' = [b64 1 0; b64 3 0; b64 5 0]).
Proof.
  split; [simpl; lia|].
  apply (buffer_form_frame (FT := binary64) FMA.Exp); simpl; lia.
Defined.

(** C9.  A buffer-form call over [n] elements of the array terminates:
    the loop makes exactly [n] transitions, each one application of the
    scalar form, from counter 0 to counter [n], where the loop test fails;
    there is no other complete run (no early exit, nothing that blocks),
    and the array it ends with is the result of the call. *)
Theorem buffer_form_terminates {F : Type} {FT : FloatType F}
    (fn : FMA.approximation) (buf : list F) (n : nat) :
  n <= length buf ->
  exists buf',
    FMA.buffer fn buf n = Some buf' /\
    nsteps (FMA.loop_step (FMA.scalar fn) n) n (0, buf) (n, buf') /\
    nf (FMA.loop_step (FMA.scalar fn) n) (n, buf') /\
    forall k s,
      nsteps (FMA.loop_step (FMA.scalar fn) n) k (0, buf) s ->
      nf (FMA.loop_step (FMA.scalar fn) n) s ->
      k = n /\ s = (n, buf').
Proof.
  intros Hn. rewrite buffer_is_transform. unfold FMA.transform.
  destruct (for_loop_inside (FMA.scalar fn) n 0 buf)
    as (buf' & Hrun & _ & _); [lia|].
  exists buf'.
  pose proof (for_loop_steps (FMA.scalar fn) n 0 buf buf' Hrun) as Hsteps.
  change (0 + n) with n in Hsteps.
  split_and!; [done|done|apply loop_step_exit|].
  intros k s Hk Hs.
  eapply (complete_run_unique (FMA.loop_step (FMA.scalar fn) n));
    [apply loop_step_deterministic|exact Hsteps|apply loop_step_exit|done|done].
Qed.

Lemma buffer_form_terminates_witness :
  2 <= length [b64 1 0; b64 1 (-1)] /\
  exists buf',
    FMA.buffer (FT := binary64) FMA.Tan [b64 1 0; b64 1 (-1)] 2 = Some buf' /\
    nsteps (FMA.loop_step (FMA.scalar (FT := binary64) FMA.Tan) 2) 2
      (0, [b64 1 0; b64 1 (-1)]) (2, buf') /\
    nf (FMA.loop_step (FMA.scalar (FT := binary64) FMA.Tan) 2) (2, buf') /\
    forall k s,
      nsteps (FMA.loop_step (FMA.scalar (FT := binary64) FMA.Tan) 2) k
        (0, [b64 1 0; b64 1 (-1)]) s ->
      nf (FMA.loop_step (FMA.scalar (FT := binary64) FMA.Tan) 2) s ->
      k = 2 /\ s = (2, buf').
Proof.
  split; [simpl; lia|].
  apply (buffer_form_terminates (FT := binary64) FMA.Tan); simpl; lia.
Defined.

(** Outside that contract, that is when the count exceeds the array, the
    call is undefined behaviour. *)
Lemma buffer_form_out_of_bounds {F : Type} {FT : FloatType F}
    (fn : FMA.approximation) (buf : list F) (n : nat) :
  length buf < n -> FMA.buffer fn buf n = None.
Proof. rewrite buffer_is_transform. apply transform_outside. Qed.

Lemma buffer_form_closed_form {F : Type} {FT : FloatType F}
    (fn : FMA.approximation) (buf : list F) (n : nat) :
  n <= length buf ->
  FMA.buffer fn buf n
  = Some (map (FMA.scalar fn) (take n buf) ++ drop n buf).
Proof. rewrite buffer_is_transform. apply transform_inside. Qed.

(** ** Scalar forms: formulas and symmetries *)

Section ScalarLaws.
Context {F : Type} {FT : FloatType F}.
Local Open Scope float_scope.

(** Each scalar form is its numerator over its denominator. *)
Lemma scalar_is_quotient (fn : FMA.approximation) (x : F) :
  FMA.scalar fn x = FMA.numerator fn x / FMA.denominator fn x.
Proof. by destruct fn. Qed.

(** C4.  For every input the scalar [exp] returns [N(x) / D(x)] with
    [N(x) = 1680 + x(840 + x(180 + x(20 + x)))] and
    [D(x) = 1680 + x(-840 + x(180 + x(-20 + x)))]: the local variables
    [numerator] and [denominator] are these Horner forms in [x] itself,
    with these coefficients. *)
Theorem exp_formula (x : F) :
  FMA.exp_numerator x = exp_N_spec x /\
  FMA.exp_denominator x = exp_D_spec x /\
  FMA.exp x = exp_N_spec x / exp_D_spec x.
Proof. by split_and!. Qed.

Context {FL : FloatLaws F}.

Lemma fmul_fopp_fopp (x : F) : (- x) * (- x) = x * x.
Proof.
  rewrite fmul_fopp_l, (fmul_comm x (- x)), fmul_fopp_l.
  apply fopp_involutive.
Qed.

(** C5.  For every input the scalar [logNPlusOne] returns [N(x) / D(x)]
    with [N(x) = x(7560 + x(15120 + x(9870 + x(2310 + 137x))))] and
    [D(x) = 7560 + x(18900 + x(16800 + x(6300 + x(900 + 30x))))], of
    degree 5 over degree 5 in [x] itself.  (The source writes the
    innermost product of the numerator as [x * 137].) *)
Theorem logNPlusOne_formula (x : F) :
  FMA.logNPlusOne_numerator x = logNPlusOne_N_spec x /\
  FMA.logNPlusOne_denominator x = logNPlusOne_D_spec x /\
  FMA.logNPlusOne x = logNPlusOne_N_spec x / logNPlusOne_D_spec x.
Proof.
  unfold FMA.logNPlusOne, FMA.logNPlusOne_numerator, logNPlusOne_N_spec.
  cbv zeta. rewrite (fmul_comm x #137). by split_and!.
Qed.

(** C7.  [sin] and [tan] are odd, [cos] and [cosh] are even; this holds
    at every input, hence on the documented ranges. *)
Theorem sin_tan_odd_cos_cosh_even (x : F) :
  FMA.sin (- x) = - FMA.sin x /\
  FMA.tan (- x) = - FMA.tan x /\
  FMA.cos (- x) = FMA.cos x /\
  FMA.cosh (- x) = FMA.cosh x.
Proof.
  unfold FMA.sin, FMA.tan, FMA.cos, FMA.cosh. cbv zeta.
  rewrite !fmul_fopp_fopp. split_and!; [| |done|done].
  - by rewrite (fmul_fopp_l (- x)), fdiv_fopp_l.
  - by rewrite fmul_fopp_l, fdiv_fopp_l.
Qed.


End ScalarLaws.


Lemma logNPlusOne_formula_witness :
  FloatLaws (FT := binary64) spec_float /\
  FMA.logNPlusOne (FT := binary64) (b64 1 (-1))
  = fdiv (FloatType := binary64)
      (logNPlusOne_N_spec (FT := binary64) (b64 1 (-1)))
      (logNPlusOne_D_spec (FT := binary64) (b64 1 (-1))).
Proof.
  split; [exact (ieee_laws 53 1024)|].
  exact (proj2 (proj2
    (logNPlusOne_formula (FT := binary64) (FL := ieee_laws 53 1024)
       (b64 1 (-1))))).
Defined.

Lemma sin_tan_odd_cos_cosh_even_witness :
  FloatLaws (FT := binary32) spec_float /\
  FMA.sin (FT := binary32) (SFopp (b32 3 (-1)))
  = SFopp (FMA.sin (FT := binary32) (b32 3 (-1))).
Proof.
  split; [exact (ieee_laws 24 128)|].
  exact (proj1
    (sin_tan_odd_cos_cosh_even (FT := binary32) (FL := ieee_laws 24 128)
       (b32 3 (-1)))).
Defined.

(** C6.  At 0 the eight scalar functions return the values of the exact
    functions: 1 for [cos], [cosh] and [exp], 0 for the five others.  In
    exact arithmetic the results are these numbers; in [double] and in
    [float] arithmetic, at the zero of either sign, the results compare
    equal to these numbers, hence lie within any tolerance. *)
Theorem values_at_zero (fn : FMA.approximation) :
  FMA.scalar (FT := exact) fn 0%R = IZR (value_at_zero fn) /\
  (forall s : bool,
     SFeqb (FMA.scalar (FT := binary64) fn (S754_zero s))
           (fromZ (FloatType := binary64) (value_at_zero fn)) = true) /\
  (forall s : bool,
     SFeqb (FMA.scalar (FT := binary32) fn (S754_zero s))
           (fromZ (FloatType := binary32) (value_at_zero fn)) = true).
Proof.
  split_and!; [|by intros []; destruct fn; vm_compute..].
  destruct fn; cbv [FMA.scalar FMA.cosh FMA.sinh FMA.tanh FMA.cos FMA.sin
    FMA.tan FMA.exp FMA.logNPlusOne value_at_zero
    fromZ fadd fmul fopp fdiv exact]; field.
Qed.

(** ** Exact arithmetic: the denominators on the documented ranges *)

Section Denominators.
Local Open Scope R_scope.

Ltac exact_arith :=
  cbv [FMA.denominator FMA.numerator FMA.scalar
       FMA.cosh_denominator FMA.sinh_denominator FMA.tanh_denominator
       FMA.cos_denominator FMA.sin_denominator FMA.tan_denominator
       FMA.exp_denominator FMA.logNPlusOne_denominator
       FMA.cosh_numerator FMA.sinh_numerator FMA.tanh_numerator
       FMA.cos_numerator FMA.sin_numerator FMA.tan_numerator
       FMA.exp_numerator FMA.logNPlusOne_numerator
       FMA.cosh FMA.sinh FMA.tanh FMA.cos FMA.sin FMA.tan FMA.exp
       FMA.logNPlusOne
       fromZ fadd fmul fopp fdiv exact].

(** Eleven terms of the series of [2 atan (1/3) + atan (1/7)]. *)
Lemma PI_upper_bound : PI < 31415926537 / 10000000000.
Proof.
  pose proof (PI_2_3_7_ineq 5) as [_ H].
  unfold sum_f_R0, tg_alt, PI_2_3_7_tg, Ratan_seq in H. simpl in H.
  lra.
Qed.

Lemma square_bound (x b : R) : - b <= x <= b -> 0 <= x * x <= b * b.
Proof. intros. nra. Qed.

Lemma cosh_denominator_negative (x : R) :
  -5 <= x <= 5 -> FMA.cosh_denominator x < 0.
Proof.
  intros Hx. apply square_bound in Hx. exact_arith.
  set (y := x * x) in *. nra.
Qed.

Lemma sinh_denominator_negative (x : R) :
  -5 <= x <= 5 -> FMA.sinh_denominator x < 0.
Proof.
  intros Hx. apply square_bound in Hx. exact_arith.
  set (y := x * x) in *.
  assert (0 < 18361 * (y * y) - 2718695 * y + 209953345) by nra.
  nra.
Qed.

Lemma tanh_denominator_positive (x : R) : 0 < FMA.tanh_denominator x.
Proof.
  exact_arith. pose proof (Rle_0_sqr x) as Hy. unfold Rsqr in Hy.
  set (y := x * x) in *. nra.
Qed.

Lemma cos_denominator_positive (x : R) : 0 < FMA.cos_denominator x.
Proof.
  exact_arith. pose proof (Rle_0_sqr x) as Hy. unfold Rsqr in Hy.
  set (y := x * x) in *. nra.
Qed.

Lemma sin_denominator_positive (x : R) : 0 < FMA.sin_denominator x.
Proof.
  exact_arith. pose proof (Rle_0_sqr x) as Hy. unfold Rsqr in Hy.
  set (y := x * x) in *. nra.
Qed.

(** The denominator of [tan] vanishes at [x = 1.5707963295...], just
    above [PI / 2 = 1.5707963268...]: the sign on the documented range
    rests on nine decimals of [PI]. *)
Lemma tan_denominator_negative (x : R) :
  - PI / 2 <= x <= PI / 2 -> FMA.tan_denominator x < 0.
Proof.
  intros Hx. pose proof PI_upper_bound as Hpi.
  assert (Hb : - (157079632685 / 100000000000) <= x
               <= 157079632685 / 100000000000) by lra.
  apply square_bound in Hb. exact_arith.
  set (y := x * x) in *.
  assert (Hy : 0 <= y <= 24674011008 / 10000000000) by lra.
  assert (Hq : 0 < 28 * (y * y) + 28 * (24674011008 / 10000000000) * y
                   + 28 * (24674011008 / 10000000000)
                        * (24674011008 / 10000000000)
                   - 3150 * (y + 24674011008 / 10000000000) + 62370) by nra.
  nra.
Qed.

Lemma exp_denominator_positive (x : R) : 0 < FMA.exp_denominator x.
Proof.
  exact_arith.
  replace (1680 + x * (-840 + x * (180 + x * (-20 + x))))
    with ((x * x - 10 * x + 20) ^ 2 + 40 * (x - 11 / 2) ^ 2 + 70) by field.
  pose proof (pow2_ge_0 (x * x - 10 * x + 20)).
  pose proof (pow2_ge_0 (x - 11 / 2)). lra.
Qed.

Lemma logNPlusOne_denominator_positive (x : R) :
  -8 / 10 <= x <= 5 -> 0 < FMA.logNPlusOne_denominator x.
Proof.
  intros Hx. exact_arith.
  destruct (Rle_dec 0 x) as [Hpos|Hneg]; [nra|].
  assert (H1 : 876 <= 900 + 30 * x <= 900) by lra.
  assert (H2 : 5580 <= 6300 + x * (900 + 30 * x) <= 6300) by nra.
  assert (H3 : 11760 <= 16800 + x * (6300 + x * (900 + 30 * x)) <= 16800)
    by nra.
  nra.
Qed.

End Denominators.



(** The range of [tan] ends next to the zero of its denominator.  The
    last [double] and the last [float] that are not above [PI / 2] still
    have a non-zero denominator, and a finite quotient. *)
Lemma PI_18_digits :
  (3141592653589793238 / 1000000000000000000 < PI
   < 3141592653589793239 / 1000000000000000000)%R.
Proof.
  pose proof (PI_2_3_7_ineq 9) as [H1 H2].
  unfold sum_f_R0, tg_alt, PI_2_3_7_tg, Ratan_seq in H1, H2.
  simpl in H1, H2. split; lra.
Qed.

Lemma tan_at_last_double_in_range :
  let x := S754_finite false 7074237752028440 (-52) in
  let x' := S754_finite false 7074237752028441 (-52) in
  valid_binary 53 1024 x = true /\
  (to_real x <= PI / 2 < to_real x')%R /\
  FMA.tan_denominator (FT := binary64) x
    = S754_finite true 7399805059858432 (-64) /\
  FMA.tan (FT := binary64) x = S754_finite false 6219677284869228 (-24).
Proof.
  split_and!; [by vm_compute| | |by vm_compute..].
  - pose proof PI_18_digits. cbn [to_real powerRZ]. simpl. lra.
  - pose proof PI_18_digits. cbn [to_real powerRZ]. simpl. lra.
Qed.

Lemma tan_at_last_float_in_range :
  let x := S754_finite false 13176794 (-23) in
  let x' := S754_finite false 13176795 (-23) in
  valid_binary 24 128 x = true /\
  (to_real x <= PI / 2 < to_real x')%R /\
  FMA.tan_denominator (FT := binary32) x = S754_finite true 8388608 (-29) /\
  FMA.tan (FT := binary32) x = S754_finite false 9517623 0.
Proof.
  split_and!; [by vm_compute| | |by vm_compute..].
  - pose proof PI_18_digits. cbn [to_real powerRZ]. simpl. lra.
  - pose proof PI_18_digits. cbn [to_real powerRZ]. simpl. lra.
Qed.

(** ** Exact arithmetic: [exp] at opposite inputs *)

Section ExpReciprocal.
Local Open Scope R_scope.

Lemma exp_denominator_is_numerator_negated (x : R) :
  FMA.exp_denominator x = FMA.exp_numerator (- x).
Proof.
  cbv [FMA.exp_denominator FMA.exp_numerator fromZ fadd fmul exact]. ring.
Qed.

Lemma exp_numerator_positive (x : R) : 0 < FMA.exp_numerator x.
Proof.
  rewrite <- (Ropp_involutive x), <- exp_denominator_is_numerator_negated.
  apply exp_denominator_positive.
Qed.

Lemma exp_is_quotient (x : R) :
  FMA.exp x = FMA.exp_numerator x / FMA.exp_denominator x.
Proof. reflexivity. Qed.

End ExpReciprocal.

(** In exact arithmetic the Horner forms of [exp] are two polynomials of
    degree 4, those of [logNPlusOne] two polynomials of degree 5. *)
Lemma exp_polynomials_expanded (x : R) :
  (FMA.exp_numerator x = x ^ 4 + 20 * x ^ 3 + 180 * x ^ 2 + 840 * x + 1680)%R /\
  (FMA.exp_denominator x
   = x ^ 4 - 20 * x ^ 3 + 180 * x ^ 2 - 840 * x + 1680)%R.
Proof.
  cbv [FMA.exp_numerator FMA.exp_denominator fromZ fadd fmul exact].
  split; ring.
Qed.

Lemma logNPlusOne_polynomials_expanded (x : R) :
  (FMA.logNPlusOne_numerator x
   = 137 * x ^ 5 + 2310 * x ^ 4 + 9870 * x ^ 3 + 15120 * x ^ 2
     + 7560 * x)%R /\
  (FMA.logNPlusOne_denominator x
   = 30 * x ^ 5 + 900 * x ^ 4 + 6300 * x ^ 3 + 16800 * x ^ 2
     + 18900 * x + 7560)%R.
Proof.
  cbv [FMA.logNPlusOne_numerator FMA.logNPlusOne_denominator
       fromZ fadd fmul exact].
  split; ring.
Qed.

(** The identity between the values of [exp] at opposite inputs, from
    what it needs: the denominator and the numerator at [x] are not 0. *)
Lemma exp_opposite_inputs (x : R) :
  FMA.exp_denominator x <> 0%R -> FMA.exp_numerator x <> 0%R ->
  (FMA.exp x * FMA.exp (- x) = 1)%R /\
  (FMA.exp (- x) = 1 / FMA.exp x)%R.
Proof.
  intros Hd Hn. rewrite !exp_is_quotient.
  rewrite (exp_denominator_is_numerator_negated (- x)), Ropp_involutive.
  rewrite <- (exp_denominator_is_numerator_negated x).
  split; field; done.
Qed.



(** The hypotheses of C10 hold at every real input: the denominator has
    no real root. *)
Lemma exp_reciprocal_everywhere (x : R) :
  (FMA.exp (FT := exact) x * FMA.exp (FT := exact) (- x) = 1)%R /\
  (FMA.exp (FT := exact) (- x) = 1 / FMA.exp (FT := exact) x)%R.
Proof.
  apply exp_opposite_inputs; apply Rgt_not_eq.
  - apply exp_denominator_positive.
  - apply exp_numerator_positive.
Qed.

(** In IEEE arithmetic each quotient is rounded and the identity holds up
    to rounding only.  In [double] at [x = 0.25], where both denominators
    are non-zero, the product of the two quotients is [1 - 2^-53], and
    [exp (-x)] is one unit in the last place below [1 / exp x]. *)
Lemma exp_reciprocal_binary64_rounding :
  let x := b64 1 (-2) in
  let one := fromZ (FloatType := binary64) 1 in
  let zero := fromZ (FloatType := binary64) 0 in
  SFeqb (FMA.exp_denominator (FT := binary64) x) zero = false /\
  SFeqb (FMA.exp_denominator (FT := binary64) (SFopp x)) zero = false /\
  SFmul 53 1024 (FMA.exp (FT := binary64) x)
                (FMA.exp (FT := binary64) (SFopp x))
    = b64 9007199254740991 (-53) /\
  SFeqb (SFmul 53 1024 (FMA.exp (FT := binary64) x)
                       (FMA.exp (FT := binary64) (SFopp x))) one = false /\
  SFeqb (FMA.exp (FT := binary64) (SFopp x))
        (SFdiv 53 1024 one (FMA.exp (FT := binary64) x)) = false.
Proof. by vm_compute. Qed.

(** ** Accuracy: [cosh] *)

Section CoshAccuracy.
Local Open Scope R_scope.

Lemma cosh_numerator_with_source (x : R) :
  FMA.cosh_numerator x = cosh_numerator_with 39251520 x.
Proof. reflexivity. Qed.

(** With the constant that [cos] uses, the formula is the Pade approximant
    of [cosh]: numerator minus denominator times the Taylor polynomial
    starts at [x ^ 14]. *)
Lemma cosh_pade_condition_with_cos_constant (x : R) :
  cosh_numerator_with 18471600 x - FMA.cosh_denominator x * cosh_taylor x
  = x ^ 14 * (- (6493 / 6652800) - x ^ 2 / 3628800
              - 127 * x ^ 4 / 479001600).
Proof.
  cbv [cosh_numerator_with FMA.cosh_denominator cosh_taylor
       fromZ fadd fmul fopp exact]. field.
Qed.

(** With the constant of the source the same difference starts at
    [x ^ 2]. *)
Lemma cosh_pade_condition_source (x : R) :
  FMA.cosh_numerator x - FMA.cosh_denominator x * cosh_taylor x
  = - 20779920 * x ^ 2
    + x ^ 14 * (- (6493 / 6652800) - x ^ 2 / 3628800
                - 127 * x ^ 4 / 479001600).
Proof.
  cbv [FMA.cosh_numerator FMA.cosh_denominator cosh_taylor
       fromZ fadd fmul fopp exact]. field.
Qed.

(** The neighbours of [cosh] meet the same condition: [cos], which shares
    its other six constants, and [sinh]. *)
Lemma cos_pade_condition (x : R) :
  FMA.cos_numerator x - FMA.cos_denominator x * cos_taylor x
  = x ^ 14 * (- (6493 / 6652800) + x ^ 2 / 3628800
              - 127 * x ^ 4 / 479001600).
Proof.
  cbv [FMA.cos_numerator FMA.cos_denominator cos_taylor
       fromZ fadd fmul fopp exact]. field.
Qed.

Lemma sinh_pade_condition (x : R) :
  FMA.sinh_numerator x - FMA.sinh_denominator x * sinh_taylor x
  = x ^ 15 * (- (115799 / 7413120) + 287 * x ^ 2 / 5702400
              - 2623 * x ^ 4 / 889574400).
Proof.
  cbv [FMA.sinh_numerator FMA.sinh_denominator sinh_taylor
       fromZ fadd fmul fopp exact]. field.
Qed.

(** Bounds on [e] by ten squarings from [exp (1/1024)], and on the
    hyperbolic cosine of 1. *)
Lemma exp_double_bounds (x l u l' u' : R) :
  0 <= l -> l <= Rtrigo_def.exp x <= u -> l' <= l * l -> u * u <= u' ->
  l' <= Rtrigo_def.exp (2 * x) <= u'.
Proof.
  intros Hl Hx Hl' Hu'.
  replace (2 * x) with (x + x) by ring. rewrite exp_plus. nra.
Qed.

Lemma exp_1_bounds :
  2716954127 / 1000000000 <= Rtrigo_def.exp 1 <= 2719611004 / 1000000000.
Proof.
  assert (H0 : 1025 / 1024 <= Rtrigo_def.exp (1 / 1024) <= 1024 / 1023).
  { split; [pose proof (exp_ineq1_le (1 / 1024)); lra|].
    pose proof (exp_ineq1_le (- (1 / 1024))) as H.
    rewrite exp_Ropp in H.
    pose proof (exp_pos (1 / 1024)) as Hp.
    apply (Rmult_le_reg_r (1023 / 1024)); [lra|].
    replace (1024 / 1023 * (1023 / 1024)) with 1 by field.
    replace (1023 / 1024) with (1 + - (1 / 1024)) by field.
    apply (Rmult_le_compat_l (Rtrigo_def.exp (1 / 1024))) in H; [|lra].
    rewrite Rinv_r in H; lra. }
  set (x0 := 1 / 1024) in *.
  assert (H1 : 1001954078 / 1000000000
               <= Rtrigo_def.exp (2 * x0)
               <= 1001955990 / 1000000000)
    by (apply (exp_double_bounds _ (1025 / 1024)
                 (1024 / 1023));
        [lra|exact H0|lra|lra]).
  set (x1 := 2 * x0) in *.
  assert (H2 : 1003911974 / 1000000000
               <= Rtrigo_def.exp (2 * x1)
               <= 1003915806 / 1000000000)
    by (apply (exp_double_bounds _ (1001954078 / 1000000000)
                 (1001955990 / 1000000000));
        [lra|exact H1|lra|lra]).
  set (x2 := 2 * x1) in *.
  assert (H3 : 1007839251 / 1000000000
               <= Rtrigo_def.exp (2 * x2)
               <= 1007846946 / 1000000000)
    by (apply (exp_double_bounds _ (1003911974 / 1000000000)
                 (1003915806 / 1000000000));
        [lra|exact H2|lra|lra]).
  set (x3 := 2 * x2) in *.
  assert (H4 : 1015739955 / 1000000000
               <= Rtrigo_def.exp (2 * x3)
               <= 1015755467 / 1000000000)
    by (apply (exp_double_bounds _ (1007839251 / 1000000000)
                 (1007846946 / 1000000000));
        [lra|exact H3|lra|lra]).
  set (x4 := 2 * x3) in *.
  assert (H5 : 1031727656 / 1000000000
               <= Rtrigo_def.exp (2 * x4)
               <= 1031759169 / 1000000000)
    by (apply (exp_double_bounds _ (1015739955 / 1000000000)
                 (1015755467 / 1000000000));
        [lra|exact H4|lra|lra]).
  set (x5 := 2 * x4) in *.
  assert (H6 : 1064461956 / 1000000000
               <= Rtrigo_def.exp (2 * x5)
               <= 1064526983 / 1000000000)
    by (apply (exp_double_bounds _ (1031727656 / 1000000000)
                 (1031759169 / 1000000000));
        [lra|exact H5|lra|lra]).
  set (x6 := 2 * x5) in *.
  assert (H7 : 1133079255 / 1000000000
               <= Rtrigo_def.exp (2 * x6)
               <= 1133217698 / 1000000000)
    by (apply (exp_double_bounds _ (1064461956 / 1000000000)
                 (1064526983 / 1000000000));
        [lra|exact H6|lra|lra]).
  set (x7 := 2 * x6) in *.
  assert (H8 : 1283868598 / 1000000000
               <= Rtrigo_def.exp (2 * x7)
               <= 1284182352 / 1000000000)
    by (apply (exp_double_bounds _ (1133079255 / 1000000000)
                 (1133217698 / 1000000000));
        [lra|exact H7|lra|lra]).
  set (x8 := 2 * x7) in *.
  assert (H9 : 1648318576 / 1000000000
               <= Rtrigo_def.exp (2 * x8)
               <= 1649124314 / 1000000000)
    by (apply (exp_double_bounds _ (1283868598 / 1000000000)
                 (1284182352 / 1000000000));
        [lra|exact H8|lra|lra]).
  set (x9 := 2 * x8) in *.
  assert (H10 : 2716954127 / 1000000000
               <= Rtrigo_def.exp (2 * x9)
               <= 2719611004 / 1000000000)
    by (apply (exp_double_bounds _ (1648318576 / 1000000000)
                 (1649124314 / 1000000000));
        [lra|exact H9|lra|lra]).
  set (x10 := 2 * x9) in *.
  replace 1 with x10 by (unfold x10, x9, x8, x7, x6, x5, x4, x3, x2, x1, x0; field).
  exact H10.
Qed.

Lemma cosh_1_bounds :
  15423 / 10000 <= Rtrigo_def.cosh 1 <= 15439 / 10000.
Proof.
  unfold Rtrigo_def.cosh. rewrite exp_Ropp.
  destruct exp_1_bounds as [Hl Hu].
  assert (Hi1 : / (2719611004 / 1000000000) <= / Rtrigo_def.exp 1)
    by (apply Rinv_le_contravar; lra).
  assert (Hi2 : / Rtrigo_def.exp 1 <= / (2716954127 / 1000000000))
    by (apply Rinv_le_contravar; lra).
  lra.
Qed.

(** With the constant of [cos] the value at 1 is [58812767 / 38113865],
    that is 1.5430806..., within a thousandth of the hyperbolic cosine. *)
Lemma cosh_with_cos_constant_at_one :
  Rabs (cosh_numerator_with 18471600 1 / FMA.cosh_denominator 1
        - Rtrigo_def.cosh 1) < 1 / 1000.
Proof.
  assert (Hv : cosh_numerator_with 18471600 1 / FMA.cosh_denominator 1
               = 58812767 / 38113865).
  { cbv [cosh_numerator_with FMA.cosh_denominator fromZ fadd fmul fopp exact].
    field. }
  rewrite Hv. pose proof cosh_1_bounds.
  apply Rabs_def1; lra.
Qed.

End CoshAccuracy.

(** C8, at [cosh (1)].  The source returns [79592687 / 38113865], that is
    2.0882..., where the hyperbolic cosine is below 1.544: the error is
    above 1/2 and above a third of the exact value, in exact arithmetic
    and, through the rounded value, in [double]. *)
Theorem cosh_error_at_one :
  FMA.cosh (FT := exact) 1%R = (79592687 / 38113865)%R /\
  (1 / 2 < Rabs (FMA.cosh (FT := exact) 1 - Rtrigo_def.cosh 1))%R /\
  (Rtrigo_def.cosh 1 / 3
     < Rabs (FMA.cosh (FT := exact) 1 - Rtrigo_def.cosh 1))%R /\
  FMA.cosh (FT := binary64) (b64 1 0) = b64 4702404171219798 (-51).
Proof.
  assert (Hv : FMA.cosh (FT := exact) 1%R = (79592687 / 38113865)%R).
  { cbv [FMA.cosh fromZ fadd fmul fopp fdiv exact]. field. }
  pose proof cosh_1_bounds as Hc.
  split_and!; [exact Hv| | |by vm_compute].
  - rewrite Hv. rewrite Rabs_pos_eq; lra.
  - rewrite Hv. rewrite Rabs_pos_eq; lra.
Qed.

(** ** More on the buffer forms *)

(** The buffer form as one equation: the call is defined exactly when the
    count lies within the array. *)
Lemma buffer_form_result {F : Type} {FT : FloatType F}
    (fn : FMA.approximation) (buf : list F) (n : nat) :
  FMA.buffer fn buf n =
    if decide (n <= length buf)
    then Some (map (FMA.scalar fn) (take n buf) ++ drop n buf)
    else None.
Proof.
  case_decide.
  - by apply buffer_form_closed_form.
  - apply buffer_form_out_of_bounds. lia.
Qed.

(** X1.  A call on two adjacent blocks, all of the first and the first [n]
    elements of the second, is the call on each block: the loop carries
    nothing from one element to the next, so a buffer may be processed in
    chunks.  The count [n] may exceed the second block, and then both sides
    are undefined. *)
Theorem buffer_form_blocks {F : Type} {FT : FloatType F}
    (fn : FMA.approximation) (block1 block2 : list F) (n : nat) :
  FMA.buffer fn (block1 ++ block2) (length block1 + n) =
    match FMA.buffer fn block1 (length block1), FMA.buffer fn block2 n with
    | Some block1', Some block2' => Some (block1' ++ block2')
    | _, _ => None
    end.
Proof.
  rewrite !buffer_form_result, length_app.
  rewrite (decide_True (P := length block1 <= length block1)) by lia.
  simpl. rewrite firstn_all, drop_all, app_nil_r.
  destruct (decide (n <= length block2)) as [Hn|Hn].
  - rewrite decide_True by lia. simpl. f_equal.
    rewrite take_app_add', drop_app_add' by done.
    by rewrite map_app, <- app_assoc.
  - by rewrite decide_False by lia.
Qed.

(** An element of the result: the scalar form applied below the count, the
    element itself from the count on. *)
Lemma lookup_transformed {F : Type} (f : F -> F) (l : list F) (n i : nat) :
  (map f (take n l) ++ drop n l) !! i
  = (if decide (i < n) then f else fun v => v) <$> l !! i.
Proof.
  destruct (decide (n <= length l)) as [Hn|Hn].
  - case_decide.
    + rewrite lookup_app_l by (rewrite length_map, length_take; lia).
      by rewrite list_lookup_fmap, lookup_take_lt.
    + rewrite lookup_app_r by (rewrite length_map, length_take; lia).
      rewrite length_map, length_take, lookup_drop.
      replace (n + (i - n `min` length l)) with i by lia.
      by destruct (l !! i).
  - rewrite take_ge, drop_ge, app_nil_r by lia.
    rewrite list_lookup_fmap. case_decide; [done|].
    rewrite !lookup_ge_None_2; [done|lia].
Qed.

(** X2.  Two calls in sequence on the same array, with counts [n] and [m]
    within the array: the second call reads what the first one wrote, so
    element [i] ends as the second scalar form (if [i < m]) applied to the
    first scalar form (if [i < n]) applied to the original element, and the
    length is kept. *)
Theorem buffer_form_two_passes {F : Type} {FT : FloatType F}
    (fn1 fn2 : FMA.approximation) (buf : list F) (n m : nat) :
  n <= length buf -> m <= length buf ->
  exists buf'',
    match FMA.buffer fn1 buf n with
    | Some buf' => FMA.buffer fn2 buf' m
    | None => None
    end = Some buf'' /\
    length buf'' = length buf /\
    forall (i : nat) (x : F), buf !! i = Some x ->
      buf'' !! i =
        Some ((if decide (i < m) then FMA.scalar fn2 else fun v => v)
                ((if decide (i < n) then FMA.scalar fn1 else fun v => v) x)).
Proof.
  intros Hn Hm.
  rewrite (buffer_form_closed_form fn1 buf n Hn). simpl.
  set (buf' := map (FMA.scalar fn1) (take n buf) ++ drop n buf).
  assert (Hlen : length buf' = length buf).
  { unfold buf'.
    rewrite length_app, length_map, length_take, length_drop. lia. }
  rewrite (buffer_form_closed_form fn2 buf' m) by lia.
  eexists. split_and!; [done| |].
  - rewrite length_app, length_map, length_take, length_drop. lia.
  - intros i x Hx. rewrite lookup_transformed. unfold buf'.
    rewrite lookup_transformed, Hx. done.
Qed.

Lemma buffer_form_two_passes_witness :
  1 <= length [b64 1 0; b64 1 (-1)] /\
  2 <= length [b64 1 0; b64 1 (-1)] /\
  exists buf'',
    match FMA.buffer (FT := binary64) FMA.Exp [b64 1 0; b64 1 (-1)] 1 with
    | Some buf' => FMA.buffer (FT := binary64) FMA.Cos buf' 2
    | None => None
    end = Some buf'' /\
    length buf'' = length [b64 1 0; b64 1 (-1)] /\
    forall (i : nat) (x : spec_float),
      [b64 1 0; b64 1 (-1)] !! i = Some x ->
      buf'' !! i =
        Some ((if decide (i < 2) then FMA.scalar (FT := binary64) FMA.Cos
               else fun v => v)
                ((if decide (i < 1) then FMA.scalar (FT := binary64) FMA.Exp
                  else fun v => v) x)).
Proof.
  split; [simpl; lia|]. split; [simpl; lia|].
  apply (buffer_form_two_passes (FT := binary64) FMA.Exp FMA.Cos);
    simpl; lia.
Defined.



(** ** Polynomials with rational coefficients: soundness of the sign test *)

Section PolyLemmas.
Local Open Scope R_scope.

Lemma Q2R_0 : Q2R 0 = 0.
Proof. unfold Q2R; simpl; lra. Qed.

Lemma Q2R_red (q : Q) : Q2R (Qred q) = Q2R q.
Proof. apply Qeq_eqR, Qred_correct. Qed.

Lemma peval_padd (a b : list Q) (t : R) :
  peval (padd a b) t = peval a t + peval b t.
Proof.
  revert b. induction a as [|x a IH]; intros [|y b]; cbn [padd peval];
    try ring.
  rewrite IH, Q2R_red, Q2R_plus. ring.
Qed.

Lemma peval_pscale (k : Q) (a : list Q) (t : R) :
  peval (pscale k a) t = Q2R k * peval a t.
Proof.
  induction a as [|x a IH]; cbn [pscale map peval]; [ring|].
  fold (pscale k a). rewrite IH, Q2R_red, Q2R_mult. ring.
Qed.

Lemma peval_psub (a b : list Q) (t : R) :
  peval (psub a b) t = peval a t - peval b t.
Proof.
  unfold psub. rewrite peval_padd, peval_pscale.
  replace (Q2R (-1)) with (-1) by (unfold Q2R; simpl; lra). ring.
Qed.

Lemma peval_pmul (a b : list Q) (t : R) :
  peval (pmul a b) t = peval a t * peval b t.
Proof.
  induction a as [|x a IH]; cbn [pmul peval]; [ring|].
  rewrite peval_padd, peval_pscale. cbn [peval]. rewrite IH, Q2R_0. ring.
Qed.

Lemma peval_pshift (l : Q) (cs : list Q) (t : R) :
  peval (pshift l cs) t = peval cs (Q2R l + t).
Proof.
  induction cs as [|c cs IH]; cbn [pshift peval]; [reflexivity|].
  rewrite peval_padd, peval_pscale. cbn [peval]. rewrite IH. ring.
Qed.

Lemma peval_pdilate (k : Q) (cs : list Q) (t : R) :
  peval (pdilate k cs) t = peval cs (Q2R k * t).
Proof.
  induction cs as [|c cs IH]; cbn [pdilate peval]; [reflexivity|].
  rewrite peval_pscale, IH. ring.
Qed.

Lemma peval_low_zero (k : nat) : forall (cs : list Q) (t : R),
  low_zero k cs = true -> peval cs t = t ^ k * peval (drop k cs) t.
Proof.
  unfold low_zero.
  induction k as [|k IH]; intros cs t Hz; [rewrite drop_0; simpl; ring|].
  destruct cs as [|c cs]; [simpl; ring|].
  cbn [take forallb] in Hz. apply andb_prop in Hz as [Hc Hz].
  apply Qeq_bool_iff, Qeq_eqR in Hc. rewrite Q2R_0 in Hc.
  cbn [peval drop]. rewrite Hc, (IH cs t Hz). simpl. ring.
Qed.

Lemma Qpositive_sound (q : Q) : Qpositive q = true -> 0 < Q2R q.
Proof.
  unfold Qpositive. destruct (Qcompare 0 q) eqn:H; try discriminate.
  intros _. apply Qlt_alt, Qlt_Rlt in H. rewrite Q2R_0 in H. exact H.
Qed.

Lemma zeval_zadd (a b : list Z) (t : R) :
  zeval (zadd a b) t = zeval a t + zeval b t.
Proof.
  revert b. induction a as [|x a IH]; intros [|y b]; cbn [zadd zeval];
    try ring.
  rewrite IH, plus_IZR. ring.
Qed.

Lemma zeval_zshift1 (cs : list Z) (t : R) :
  zeval (zshift1 cs) t = zeval cs (t + 1).
Proof.
  induction cs as [|c cs IH]; cbn [zshift1 zeval]; [reflexivity|].
  rewrite zeval_zadd. cbn [zeval]. rewrite IH. ring.
Qed.

Lemma zeval_zhalf (cs : list Z) (t : R) :
  2 * zeval (zhalf cs) t = 2 ^ length cs * zeval cs (t / 2).
Proof.
  induction cs as [|c cs IH]; cbn [zhalf zeval length pow]; [ring|].
  rewrite mult_IZR, <- pow_IZR.
  replace (2 * (IZR c * 2 ^ length cs + t * zeval (zhalf cs) t))
    with (2 * 2 ^ length cs * IZR c + t * (2 * zeval (zhalf cs) t)) by ring.
  rewrite IH. field.
Qed.

Lemma zlow_sound (cs : list Z) (t : R) :
  0 <= t <= 1 -> IZR (zlow cs) <= zeval cs t.
Proof.
  intros Ht. induction cs as [|c cs IH]; cbn [zlow zeval]; [lra|].
  rewrite plus_IZR.
  enough (IZR (Z.min 0 (zlow cs)) <= t * zeval cs t) by lra.
  destruct (Z.min_spec 0 (zlow cs)) as [[Hlt ->]|[Hle ->]].
  - apply IZR_lt in Hlt. nra.
  - apply IZR_le in Hle. nra.
Qed.

Lemma zpositive_on_sound (depth : nat) :
  forall (cs : list Z) (t : R),
  zpositive_on depth cs = true -> 0 <= t <= 1 -> 0 < zeval cs t.
Proof.
  induction depth as [|depth IH]; intros cs t Hc Ht; cbn [zpositive_on] in Hc;
    destruct (0 <? zlow cs)%Z eqn:Hp.
  1, 3: apply Z.ltb_lt, IZR_lt in Hp;
    pose proof (zlow_sound cs t Ht); lra.
  - discriminate.
  - apply andb_prop in Hc as [H1 H2].
    assert (Hpow : 0 < 2 ^ length cs) by (apply pow_lt; lra).
    destruct (Rle_dec t (1 / 2)) as [Hle|Hgt].
    + pose proof (IH _ (2 * t) H1 ltac:(lra)) as H.
      pose proof (zeval_zhalf cs (2 * t)) as He.
      replace (2 * t / 2) with t in He by field. nra.
    + pose proof (IH _ (2 * t - 1) H2 ltac:(lra)) as H.
      rewrite zeval_zshift1 in H.
      pose proof (zeval_zhalf cs (2 * t - 1 + 1)) as He.
      replace ((2 * t - 1 + 1) / 2) with t in He by field. nra.
Qed.

Lemma zeval_map_mul (k : Z) (zs : list Z) (t : R) :
  zeval (map (Z.mul k) zs) t = IZR k * zeval zs t.
Proof.
  induction zs as [|z zs IH]; cbn [map zeval]; [ring|].
  rewrite IH, mult_IZR. ring.
Qed.

Lemma integerize_sound (cs : list Q) (t : R) :
  (0 < snd (integerize cs))%Z /\
  zeval (fst (integerize cs)) t = IZR (snd (integerize cs)) * peval cs t.
Proof.
  induction cs as [|c cs [IHd IH]]; cbn [integerize peval].
  - cbn [fst snd zeval]. split; [lia|ring].
  - destruct (integerize cs) as [zs d]. cbn [fst snd] in *.
    set (m := Zpos (Qden c)). set (g := Z.gcd m d).
    assert (Hg : (0 < g)%Z).
    { pose proof (Z.gcd_nonneg m d).
      assert (g <> 0)%Z by (unfold g; rewrite Z.gcd_eq_0; lia). unfold g in *.
      lia. }
    assert (Hm : (m = m / g * g)%Z).
    { destruct (Z.gcd_divide_l m d) as [k Hk]. fold g in Hk.
      rewrite Hk at 2. by rewrite Z.div_mul by lia. }
    assert (Hd : (d = d / g * g)%Z).
    { destruct (Z.gcd_divide_r m d) as [k Hk]. fold g in Hk.
      rewrite Hk at 2. by rewrite Z.div_mul by lia. }
    assert (Hm' : (0 < m / g)%Z) by (unfold m in *; nia).
    split; [nia|].
    cbn [zeval]. rewrite zeval_map_mul, IH, !mult_IZR.
    unfold Q2R. fold m.
    assert (HmR : IZR m = IZR (m / g) * IZR g)
      by (rewrite <- mult_IZR; congruence).
    assert (HdR : IZR d = IZR (d / g) * IZR g)
      by (rewrite <- mult_IZR; congruence).
    assert (0 < IZR g) by (by apply IZR_lt).
    assert (0 < IZR (m / g)) by (by apply IZR_lt).
    rewrite HmR, HdR. clearbody m g. field. lra.
Qed.

Lemma positive_on_sound (depth : nat) (cs : list Q) (l h : Q) (x : R) :
  positive_on depth cs l h = true ->
  Q2R l <= x <= Q2R l + Q2R h ->
  0 < peval cs x.
Proof.
  unfold positive_on. intros Hc Hx.
  set (q := pdilate h (pshift l cs)) in *.
  assert (Ht : exists t, 0 <= t <= 1 /\ x = Q2R l + Q2R h * t).
  { destruct (Req_dec (Q2R h) 0) as [Hz|Hnz].
    - exists 0. split; lra.
    - exists ((x - Q2R l) / Q2R h). split; [|field; lra].
      assert (0 < / Q2R h) by (apply Rinv_0_lt_compat; lra).
      split.
      + apply Rmult_le_pos; lra.
      + apply (Rmult_le_reg_r (Q2R h)); [lra|].
        unfold Rdiv. rewrite Rmult_assoc, Rinv_l; lra. }
  destruct Ht as (t & Ht & ->).
  pose proof (zpositive_on_sound depth _ t Hc Ht) as Hp.
  destruct (integerize_sound q t) as [Hd He].
  rewrite He in Hp. apply IZR_lt in Hd.
  unfold q in Hp. rewrite peval_pdilate, peval_pshift in Hp.
  apply (Rmult_lt_reg_l (IZR (snd (integerize q)))); [done|].
  by rewrite Rmult_0_r.
Qed.

(** A polynomial whose coefficients are not negative, the first one
    positive, is positive on the non-negative reals. *)
Lemma peval_nonneg_coefficients (cs : list Q) (t : R) :
  forallb (Qle_bool 0) cs = true -> 0 <= t -> 0 <= peval cs t.
Proof.
  intros Hc Ht. induction cs as [|c cs IH]; cbn [peval]; [lra|].
  cbn [forallb] in Hc. apply andb_prop in Hc as [Hc Hcs].
  apply Qle_bool_iff, Qle_Rle in Hc. rewrite Q2R_0 in Hc.
  specialize (IH Hcs). nra.
Qed.

End PolyLemmas.

(** ** The series of the sine, of the cosine and of the exponential *)

Section Series.
Local Open Scope R_scope.

Lemma INR_fact (n : nat) : INR (fact n) = IZR (Zpos (pfact n)).
Proof.
  induction n as [|n IH]; [simpl; lra|].
  rewrite fact_simpl, mult_INR, IH. cbn [pfact].
  rewrite Pos2Z.inj_mul, mult_IZR, Zpos_P_of_succ_nat, <- Nat2Z.inj_succ.
  by rewrite <- INR_IZR_INZ.
Qed.

Lemma pow_alt_sign (i : nat) : (-1) ^ i = IZR (alt_sign i).
Proof.
  unfold alt_sign. induction i as [|i IH]; [simpl; lra|].
  rewrite Nat.even_succ, <- Nat.negb_even. simpl pow. rewrite IH.
  destruct (Nat.even i); simpl; lra.
Qed.

Lemma peval_pmono (k : nat) (c : Q) (t : R) :
  peval (pmono k c) t = Q2R c * t ^ k.
Proof.
  unfold pmono. induction k as [|k IH]; cbn [repeat app peval pow].
  - ring.
  - rewrite IH, Q2R_0. ring.
Qed.

Lemma peval_series_term (k i : nat) (t : R) :
  peval (pmono k (Qmake (alt_sign i) (pfact k))) t
  = (-1) ^ i * (t ^ k / INR (fact k)).
Proof.
  rewrite peval_pmono, pow_alt_sign, INR_fact. unfold Q2R. cbn [Qnum Qden].
  unfold Rdiv. ring.
Qed.

Lemma peval_sin_series (n : nat) (t : R) :
  peval (sin_series n) t = sin_approx t n.
Proof.
  unfold sin_approx. induction n as [|n IH]; cbn [sin_series sum_f_R0].
  - apply peval_series_term.
  - rewrite peval_padd, IH. f_equal. apply peval_series_term.
Qed.

Lemma peval_cos_series (n : nat) (t : R) :
  peval (cos_series n) t = cos_approx t n.
Proof.
  unfold cos_approx. induction n as [|n IH]; cbn [cos_series sum_f_R0].
  - apply peval_series_term.
  - rewrite peval_padd, IH. f_equal. apply peval_series_term.
Qed.

End Series.

Section ExpSeries.
Local Open Scope R_scope.

Lemma Q2R_1 : Q2R 1 = 1.
Proof. unfold Q2R; simpl; lra. Qed.

(** The alternating series of [exp (- u)] for [0 <= u <= 1]. *)
Lemma exp_neg_enclosure (u : R) (n : nat) :
  0 <= u <= 1 ->
  E1 (- u) (S (2 * n)) <= exp (- u) <= E1 (- u) (2 * n).
Proof.
  intros Hu.
  set (Un := fun i : nat => u ^ i / INR (fact i)).
  assert (Heq : forall k, sum_f_R0 (tg_alt Un) k = E1 (- u) k).
  { intros k. unfold E1. apply sum_eq. intros i _.
    unfold tg_alt, Un. replace (- u) with (-1 * u) by ring.
    rewrite Rpow_mult_distr. unfold Rdiv. ring. }
  rewrite <- !Heq.
  apply alternated_series_ineq.
  - intros i. unfold Un.
    assert (0 <= u ^ i) by (apply pow_le; lra).
    assert (Hf : 0 < INR (fact i)) by (apply INR_fact_lt_0).
    rewrite fact_simpl, mult_INR, S_INR. cbn [pow].
    assert (0 <= INR i) by apply pos_INR.
    unfold Rdiv. rewrite Rinv_mult.
    assert (0 < / INR (fact i)) by (apply Rinv_0_lt_compat; lra).
    assert (0 < / (INR i + 1) <= 1).
    { split; [apply Rinv_0_lt_compat; lra|].
      apply (Rmult_le_reg_r (INR i + 1)); [lra|].
      rewrite Rinv_l; lra. }
    set (A := u ^ i * / INR (fact i)).
    assert (HA : 0 <= A) by (unfold A; nra).
    assert (Hq : 0 <= u * / (INR i + 1) <= 1) by nra.
    replace (u * u ^ i * (/ (INR i + 1) * / INR (fact i)))
      with (u * / (INR i + 1) * A) by (unfold A; ring).
    nra.
  - apply cv_speed_pow_fact.
  - intros eps Heps. destruct (E1_cvg (- u) eps Heps) as [N HN].
    exists N. intros k Hk. rewrite Heq. by apply HN.
Qed.

Lemma exp_nat_mult (k : nat) (u : R) : exp (INR k * u) = exp u ^ k.
Proof.
  induction k as [|k IH].
  - simpl. rewrite Rmult_0_l. apply exp_0.
  - rewrite S_INR, Rmult_plus_distr_r, Rmult_1_l, exp_plus, IH. simpl. ring.
Qed.

End ExpSeries.

(** ** Derivatives of polynomials, monotonicity from a derivative *)

Section DerivLemmas.
Local Open Scope R_scope.

Lemma peval_qeval (cs : list Q) (q : Q) : peval cs (Q2R q) = Q2R (qeval cs q).
Proof.
  induction cs as [|c cs IH]; cbn [peval qeval]; [by rewrite Q2R_0|].
  rewrite Q2R_red, Q2R_plus, Q2R_mult, IH. reflexivity.
Qed.

Lemma derivable_pt_lim_peval (cs : list Q) (x : R) :
  derivable_pt_lim (peval cs) x (peval (pderiv cs) x).
Proof.
  induction cs as [|c cs IH]; cbn [pderiv].
  - apply (derivable_pt_lim_const 0).
  - rewrite peval_padd. cbn [peval]. rewrite Q2R_0.
    replace (peval cs x + (0 + x * peval (pderiv cs) x))
      with (0 + (1 * peval cs x + id x * peval (pderiv cs) x))
      by (unfold id; ring).
    apply (derivable_pt_lim_plus (fct_cte (Q2R c)) (id * peval cs)%F).
    + apply derivable_pt_lim_const.
    + apply derivable_pt_lim_mult; [apply derivable_pt_lim_id | exact IH].
Qed.

Lemma quotient_upper (a b c : R) : 0 < b -> a <= c * b -> a / b <= c.
Proof.
  intros Hb H. apply (Rmult_le_reg_r b); [lra|].
  unfold Rdiv. rewrite Rmult_assoc, Rinv_l; lra.
Qed.

Lemma quotient_lower (a b c : R) : 0 < b -> c * b <= a -> c <= a / b.
Proof.
  intros Hb H. apply (Rmult_le_reg_r b); [lra|].
  unfold Rdiv. rewrite Rmult_assoc, Rinv_l; lra.
Qed.

(** A function whose derivative is not positive on [a, b] does not increase
    there. *)
Lemma nonincreasing_on (f f' : R -> R) (a b : R) :
  (forall c, a <= c <= b -> derivable_pt_lim f c (f' c)) ->
  (forall c, a <= c <= b -> f' c <= 0) ->
  forall x y, a <= x -> x <= y -> y <= b -> f y <= f x.
Proof.
  intros Hd Hs x y Hax Hxy Hyb.
  destruct (Req_dec x y) as [->|Hne]; [lra|].
  destruct (MVT_cor2 f f' x y) as [c [Hc Hin]]; [lra| |].
  - intros c Hc. apply Hd. lra.
  - specialize (Hs c ltac:(lra)). nra.
Qed.

Lemma nondecreasing_on (f f' : R -> R) (a b : R) :
  (forall c, a <= c <= b -> derivable_pt_lim f c (f' c)) ->
  (forall c, a <= c <= b -> 0 <= f' c) ->
  forall x y, a <= x -> x <= y -> y <= b -> f x <= f y.
Proof.
  intros Hd Hs x y Hax Hxy Hyb.
  destruct (Req_dec x y) as [->|Hne]; [lra|].
  destruct (MVT_cor2 f f' x y) as [c [Hc Hin]]; [lra| |].
  - intros c Hc. apply Hd. lra.
  - specialize (Hs c ltac:(lra)). nra.
Qed.

End DerivLemmas.

(** ** Accuracy: [sin] and [cos]

    The sine and the cosine lie between consecutive partial sums of their
    series.  The approximation [N / D], with [D] positive, is compared with
    a partial sum [S] through the sign of the polynomial [D * S - N] on the
    range, which the sign test decides.  Beyond 2 the cosine is reached
    through the sine of the half angle. *)

Section SinAccuracy.
Local Open Scope R_scope.

Lemma sin_numerator_is_poly (x : R) :
  FMA.sin_numerator x = peval sin_numerator_poly x.
Proof.
  cbv [FMA.sin_numerator sin_numerator_poly peval fromZ fadd fmul fopp exact
       Q2R Qnum Qden inject_Z]. field.
Qed.

Lemma sin_denominator_is_poly (x : R) :
  FMA.sin_denominator x = peval sin_denominator_poly x.
Proof.
  cbv [FMA.sin_denominator sin_denominator_poly peval fromZ fadd fmul fopp
       exact Q2R Qnum Qden inject_Z]. field.
Qed.

Lemma Q2R_PI_up : Q2R PI_up = 3217 / 1024.
Proof. unfold PI_up, Q2R. cbn [Qnum Qden]. lra. Qed.

(** Below: the quotient is not above the partial sum of index 7. *)
Lemma sin_below_series (x : R) :
  0 <= x <= Q2R PI_up ->
  peval sin_numerator_poly x
  <= peval sin_denominator_poly x * sin_approx x 7.
Proof.
  intros Hx.
  set (d := psub (pmul sin_denominator_poly (sin_series 7)) sin_numerator_poly).
  assert (Hd : peval d x = x ^ 15 * peval (drop 15 d) x).
  { apply peval_low_zero. by vm_compute. }
  assert (Hp : 0 < peval (drop 15 d) x).
  { apply (positive_on_sound 20 _ 0%Q PI_up); [by vm_compute|].
    rewrite Q2R_0. lra. }
  unfold d in Hd at 1. rewrite peval_psub, peval_pmul, peval_sin_series in Hd.
  assert (0 <= x ^ 15) by (apply pow_le; lra).
  nra.
Qed.

Lemma sin_above_series (x : R) :
  0 <= x <= Q2R PI_up ->
  peval sin_denominator_poly x * (sin_approx x 8 - 12 / 1000000)
  <= peval sin_numerator_poly x.
Proof.
  intros Hx.
  set (d := psub (padd sin_numerator_poly
                    (pscale (Qmake 12 1000000) sin_denominator_poly))
                 (pmul sin_denominator_poly (sin_series 8))).
  assert (Hp : 0 < peval d x).
  { apply (positive_on_sound 20 _ 0%Q PI_up); [by vm_compute|].
    rewrite Q2R_0. lra. }
  unfold d in Hp.
  rewrite peval_psub, peval_padd, peval_pscale, peval_pmul,
    peval_sin_series in Hp.
  replace (Q2R (Qmake 12 1000000)) with (12 / 1000000) in Hp
    by (unfold Q2R; cbn [Qnum Qden]; lra).
  lra.
Qed.

Lemma sin_error_nonneg_input (x : R) :
  0 <= x <= PI ->
  - (12 / 1000000) <= FMA.sin x - sin x <= 0.
Proof.
  intros Hx. pose proof PI_upper_bound as Hpi.
  assert (Hx' : 0 <= x <= Q2R PI_up) by (rewrite Q2R_PI_up; lra).
  destruct (pre_sin_bound x 3) as [Hlo Hhi]; [lra|pose proof PI_4; lra|].
  change (2 * 3 + 1)%nat with 7%nat in Hlo.
  change (2 * (3 + 1))%nat with 8%nat in Hhi.
  pose proof (sin_below_series x Hx') as Hb.
  pose proof (sin_above_series x Hx') as Ha.
  pose proof (sin_denominator_positive x) as Hd.
  change (FMA.sin x) with (FMA.sin_numerator x / FMA.sin_denominator x).
  rewrite sin_numerator_is_poly. rewrite sin_denominator_is_poly in *.
  set (D := peval sin_denominator_poly x) in *.
  set (N := peval sin_numerator_poly x) in *.
  assert (HN : N / D * D = N) by (field; lra).
  split.
  - apply (Rmult_le_reg_r D); [lra|]. nra.
  - apply (Rmult_le_reg_r D); [lra|]. nra.
Qed.

End SinAccuracy.

Section CosAccuracy.
Local Open Scope R_scope.

Lemma cos_numerator_is_poly (x : R) :
  FMA.cos_numerator x = peval cos_numerator_poly x.
Proof.
  cbv [FMA.cos_numerator cos_numerator_poly peval fromZ fadd fmul fopp exact
       Q2R Qnum Qden inject_Z]. field.
Qed.

Lemma cos_denominator_is_poly (x : R) :
  FMA.cos_denominator x = peval cos_denominator_poly x.
Proof.
  cbv [FMA.cos_denominator cos_denominator_poly peval fromZ fadd fmul fopp
       exact Q2R Qnum Qden inject_Z]. field.
Qed.

Lemma cos_below_series (x : R) :
  0 <= x <= 2 ->
  peval cos_numerator_poly x
  <= peval cos_denominator_poly x * cos_approx x 7.
Proof.
  intros Hx.
  set (d := psub (pmul cos_denominator_poly (cos_series 7)) cos_numerator_poly).
  assert (Hd : peval d x = x ^ 14 * peval (drop 14 d) x).
  { apply peval_low_zero. by vm_compute. }
  assert (Hp : 0 < peval (drop 14 d) x).
  { apply (positive_on_sound 20 _ 0%Q 2%Q); [by vm_compute|].
    rewrite Q2R_0. unfold Q2R; simpl. lra. }
  unfold d in Hd at 1. rewrite peval_psub, peval_pmul, peval_cos_series in Hd.
  assert (0 <= x ^ 14) by (apply pow_le; lra).
  nra.
Qed.

Lemma cos_above_series (x : R) :
  0 <= x <= 2 ->
  peval cos_denominator_poly x * (cos_approx x 8 - 2 / 10000000)
  <= peval cos_numerator_poly x.
Proof.
  intros Hx.
  set (d := psub (padd cos_numerator_poly
                    (pscale (Qmake 2 10000000) cos_denominator_poly))
                 (pmul cos_denominator_poly (cos_series 8))).
  assert (Hp : 0 < peval d x).
  { apply (positive_on_sound 20 _ 0%Q 2%Q); [by vm_compute|].
    rewrite Q2R_0. unfold Q2R; simpl. lra. }
  unfold d in Hp.
  rewrite peval_psub, peval_padd, peval_pscale, peval_pmul,
    peval_cos_series in Hp.
  replace (Q2R (Qmake 2 10000000)) with (2 / 10000000) in Hp
    by (unfold Q2R; cbn [Qnum Qden]; lra).
  lra.
Qed.

(** Beyond 2 the cosine is bounded through the sine of the half angle:
    [cos (2 t) = 1 - 2 sin t ^ 2] and [t] in [1, PI / 2]. *)

Lemma sin_series_5_positive (t : R) :
  1 <= t <= Q2R half_up -> 0 < sin_approx t 5.
Proof.
  intros Ht. rewrite <- peval_sin_series.
  apply (positive_on_sound 20 _ 1%Q (Qmake 585 1024));
    [by vm_compute|].
  unfold half_up, Q2R in *; cbn [Qnum Qden] in *. lra.
Qed.

Lemma cos_below_half_angle (t : R) :
  1 <= t <= Q2R half_up ->
  peval cos_numerator_poly (2 * t)
  <= peval cos_denominator_poly (2 * t)
     * (1 - 2 * (sin_approx t 6 * sin_approx t 6)).
Proof.
  intros Ht.
  set (N := pdilate 2 cos_numerator_poly).
  set (D := pdilate 2 cos_denominator_poly).
  set (S := sin_series 6).
  set (d := psub (pmul D (psub [1%Q] (pscale 2 (pmul S S)))) N).
  assert (Hp : 0 < peval d t).
  { apply (positive_on_sound 20 _ 1%Q (Qmake 585 1024));
      [by vm_compute|].
    unfold half_up, Q2R in *; cbn [Qnum Qden] in *. lra. }
  unfold d, N, D, S in Hp.
  repeat (progress rewrite ?peval_psub, ?peval_pmul, ?peval_pscale,
            ?peval_pdilate, ?peval_sin_series in Hp).
  cbn [peval] in Hp.
  replace (Q2R 1) with 1 in Hp by (unfold Q2R; simpl; lra).
  replace (Q2R 2) with 2 in Hp by (unfold Q2R; simpl; lra).
  lra.
Qed.

Lemma cos_above_half_angle (t : R) :
  1 <= t <= Q2R half_up ->
  peval cos_denominator_poly (2 * t)
  * (1 - 2 * (sin_approx t 5 * sin_approx t 5) - 75 / 1000000)
  <= peval cos_numerator_poly (2 * t).
Proof.
  intros Ht.
  set (N := pdilate 2 cos_numerator_poly).
  set (D := pdilate 2 cos_denominator_poly).
  set (S := sin_series 5).
  set (d := psub N (pmul D (psub [Qmake 999925 1000000]
                              (pscale 2 (pmul S S))))).
  assert (Hp : 0 < peval d t).
  { apply (positive_on_sound 24 _ 1%Q (Qmake 585 1024));
      [by vm_compute|].
    unfold half_up, Q2R in *; cbn [Qnum Qden] in *. lra. }
  unfold d, N, D, S in Hp.
  repeat (progress rewrite ?peval_psub, ?peval_pmul, ?peval_pscale,
            ?peval_pdilate, ?peval_sin_series in Hp).
  cbn [peval] in Hp.
  replace (Q2R (Qmake 999925 1000000)) with (1 - 75 / 1000000) in Hp
    by (unfold Q2R; cbn [Qnum Qden]; lra).
  replace (Q2R 2) with 2 in Hp by (unfold Q2R; simpl; lra).
  lra.
Qed.

End CosAccuracy.

Section TrigErrors.
Local Open Scope R_scope.

Lemma quotient_between (N D lo hi : R) :
  0 < D -> D * lo <= N -> N <= D * hi -> lo <= N / D <= hi.
Proof.
  intros HD Hlo Hhi.
  assert (HN : N / D * D = N) by (field; lra).
  split; apply (Rmult_le_reg_r D); nra.
Qed.

Lemma sin_exact_odd (x : R) : FMA.sin (- x) = - FMA.sin x.
Proof.
  pose proof (sin_denominator_positive x) as Hd.
  pose proof (sin_denominator_positive (- x)) as Hd'.
  change (FMA.sin (FT := exact) (- x))
    with (FMA.sin_numerator (- x) / FMA.sin_denominator (- x)).
  change (FMA.sin (FT := exact) x)
    with (FMA.sin_numerator x / FMA.sin_denominator x).
  revert Hd Hd'.
  cbv [FMA.sin_numerator FMA.sin_denominator fromZ fadd fmul fopp exact].
  intros Hd Hd'. field; repeat split; lra.
Qed.

Lemma cos_exact_even (x : R) : FMA.cos (- x) = FMA.cos x.
Proof.
  pose proof (cos_denominator_positive x) as Hd.
  pose proof (cos_denominator_positive (- x)) as Hd'.
  change (FMA.cos (FT := exact) (- x))
    with (FMA.cos_numerator (- x) / FMA.cos_denominator (- x)).
  change (FMA.cos (FT := exact) x)
    with (FMA.cos_numerator x / FMA.cos_denominator x).
  revert Hd Hd'.
  cbv [FMA.cos_numerator FMA.cos_denominator fromZ fadd fmul fopp exact].
  intros Hd Hd'. field; repeat split; lra.
Qed.

Lemma cos_error_nonneg_input (x : R) :
  0 <= x <= PI ->
  - (75 / 1000000) <= FMA.cos x - cos x <= 0 /\
  (x <= 2 -> - (2 / 10000000) <= FMA.cos x - cos x).
Proof.
  intros Hx. pose proof PI_upper_bound as Hpi.
  pose proof (cos_denominator_positive x) as Hd.
  change (FMA.cos (FT := exact) x)
    with (FMA.cos_numerator x / FMA.cos_denominator x).
  rewrite cos_numerator_is_poly. rewrite cos_denominator_is_poly in *.
  destruct (Rle_dec x 2) as [Hle|Hgt].
  - destruct (pre_cos_bound x 3) as [Hlo Hhi]; [lra|lra|].
    change (2 * 3 + 1)%nat with 7%nat in Hlo.
    change (2 * (3 + 1))%nat with 8%nat in Hhi.
    pose proof (cos_below_series x ltac:(lra)) as Hb.
    pose proof (cos_above_series x ltac:(lra)) as Ha.
    destruct (quotient_between _ _ (cos_approx x 8 - 2 / 10000000)
                (cos_approx x 7) Hd Ha Hb) as [H1 H2].
    split; [|intros _]; lra.
  - set (t := x / 2).
    assert (Ht : 1 <= t <= Q2R half_up).
    { unfold t, half_up, Q2R; cbn [Qnum Qden]. lra. }
    assert (Ht' : 1 <= t <= 16 / 10) by (unfold t; lra).
    destruct (pre_sin_bound t 2) as [Hlo Hhi]; [lra|lra|].
    change (2 * 2 + 1)%nat with 5%nat in Hlo.
    change (2 * (2 + 1))%nat with 6%nat in Hhi.
    pose proof (sin_series_5_positive t Ht) as Hpos.
    pose proof (cos_below_half_angle t Ht) as Hb.
    pose proof (cos_above_half_angle t Ht) as Ha.
    replace (2 * t) with x in Ha, Hb by (unfold t; field).
    assert (Hc : cos x = 1 - 2 * (sin t * sin t)).
    { replace x with (2 * t) by (unfold t; field).
      rewrite cos_2a_sin. ring. }
    assert (Hs1 : sin_approx t 5 * sin_approx t 5 <= sin t * sin t) by nra.
    assert (Hs2 : sin t * sin t <= sin_approx t 6 * sin_approx t 6) by nra.
    destruct (quotient_between _ _
                (1 - 2 * (sin_approx t 5 * sin_approx t 5) - 75 / 1000000)
                (1 - 2 * (sin_approx t 6 * sin_approx t 6)) Hd Ha Hb)
      as [H1 H2].
    split; [lra|intros; lra].
Qed.

End TrigErrors.

Section TrigTier.
Local Open Scope R_scope.

Lemma sin_above_series_half (x : R) :
  0 <= x <= Q2R half_up ->
  peval sin_denominator_poly x * (sin_approx x 8 - 5 / 10000000000)
  <= peval sin_numerator_poly x.
Proof.
  intros Hx.
  set (d := psub (padd sin_numerator_poly
                    (pscale (Qmake 5 10000000000) sin_denominator_poly))
                 (pmul sin_denominator_poly (sin_series 8))).
  assert (Hp : 0 < peval d x).
  { apply (positive_on_sound 24 _ 0%Q half_up); [by vm_compute|].
    rewrite Q2R_0. lra. }
  unfold d in Hp.
  rewrite peval_psub, peval_padd, peval_pscale, peval_pmul,
    peval_sin_series in Hp.
  replace (Q2R (Qmake 5 10000000000)) with (5 / 10000000000) in Hp
    by (unfold Q2R; cbn [Qnum Qden]; lra).
  lra.
Qed.

Lemma cos_above_series_half (x : R) :
  0 <= x <= Q2R half_up ->
  peval cos_denominator_poly x * (cos_approx x 8 - 7 / 1000000000)
  <= peval cos_numerator_poly x.
Proof.
  intros Hx.
  set (d := psub (padd cos_numerator_poly
                    (pscale (Qmake 7 1000000000) cos_denominator_poly))
                 (pmul cos_denominator_poly (cos_series 8))).
  assert (Hp : 0 < peval d x).
  { apply (positive_on_sound 24 _ 0%Q half_up); [by vm_compute|].
    rewrite Q2R_0. lra. }
  unfold d in Hp.
  rewrite peval_psub, peval_padd, peval_pscale, peval_pmul,
    peval_cos_series in Hp.
  replace (Q2R (Qmake 7 1000000000)) with (7 / 1000000000) in Hp
    by (unfold Q2R; cbn [Qnum Qden]; lra).
  lra.
Qed.

Lemma Q2R_half_up : Q2R half_up = 1609 / 1024.
Proof. unfold half_up, Q2R. cbn [Qnum Qden]. lra. Qed.

Lemma sin_error_half (x : R) :
  0 <= x <= PI / 2 -> - (5 / 10000000000) <= FMA.sin x - sin x.
Proof.
  intros Hx. pose proof PI_upper_bound as Hpi.
  assert (Hx' : 0 <= x <= Q2R half_up) by (rewrite Q2R_half_up; lra).
  destruct (pre_sin_bound x 3) as [Hlo Hhi]; [lra|pose proof PI_4; lra|].
  change (2 * (3 + 1))%nat with 8%nat in Hhi.
  pose proof (sin_above_series_half x Hx') as Ha.
  pose proof (sin_denominator_positive x) as Hd.
  change (FMA.sin x) with (FMA.sin_numerator x / FMA.sin_denominator x).
  rewrite sin_numerator_is_poly. rewrite sin_denominator_is_poly in *.
  set (D := peval sin_denominator_poly x) in *.
  set (N := peval sin_numerator_poly x) in *.
  assert (HN : N / D * D = N) by (field; lra).
  apply (Rmult_le_reg_r D); [lra|]. nra.
Qed.

Lemma cos_error_half (x : R) :
  0 <= x <= PI / 2 -> - (7 / 1000000000) <= FMA.cos x - cos x.
Proof.
  intros Hx. pose proof PI_upper_bound as Hpi.
  assert (Hx' : 0 <= x <= Q2R half_up) by (rewrite Q2R_half_up; lra).
  destruct (pre_cos_bound x 3) as [Hlo Hhi]; [lra|lra|].
  change (2 * (3 + 1))%nat with 8%nat in Hhi.
  pose proof (cos_above_series_half x Hx') as Ha.
  pose proof (cos_denominator_positive x) as Hd.
  change (FMA.cos x) with (FMA.cos_numerator x / FMA.cos_denominator x).
  rewrite cos_numerator_is_poly. rewrite cos_denominator_is_poly in *.
  set (D := peval cos_denominator_poly x) in *.
  set (N := peval cos_numerator_poly x) in *.
  assert (HN : N / D * D = N) by (field; lra).
  apply (Rmult_le_reg_r D); [lra|]. nra.
Qed.

End TrigTier.

(** X8.  In exact arithmetic, on the documented range [-PI, PI] the
    approximation of the sine is within 1.2e-5 of the sine, and within 5e-10
    on [-PI/2, PI/2]; it is not above the sine for inputs that are not
    negative, not below it for inputs that are not positive, and at most 1
    in absolute value. *)
Theorem sin_accuracy (x : R) :
  (- PI <= x <= PI)%R ->
  (Rabs (FMA.sin (FT := exact) x - sin x) <= 12 / 1000000)%R /\
  (- PI / 2 <= x <= PI / 2 ->
     Rabs (FMA.sin (FT := exact) x - sin x) <= 5 / 10000000000)%R /\
  (0 <= x -> FMA.sin (FT := exact) x <= sin x)%R /\
  (x <= 0 -> sin x <= FMA.sin (FT := exact) x)%R /\
  (Rabs (FMA.sin (FT := exact) x) <= 1)%R.
Proof.
  intros Hx.
  destruct (Rle_dec 0 x) as [Hpos|Hneg].
  - destruct (sin_error_nonneg_input x ltac:(lra)) as [H1 H2].
    pose proof (sin_ge_0 x ltac:(lra) ltac:(lra)).
    pose proof (SIN_bound x).
    split_and!; [apply Rabs_le; lra| |lra| |apply Rabs_le; lra].
    + intros Hh. pose proof (sin_error_half x ltac:(lra)).
      apply Rabs_le; lra.
    + intros Hz. replace x with 0%R by lra. rewrite sin_0.
      replace (FMA.sin (FT := exact) 0%R) with 0%R; [lra|].
      cbv [FMA.sin FMA.sin_numerator FMA.sin_denominator fromZ fadd fmul
           fopp fdiv exact]. field.
  - destruct (sin_error_nonneg_input (- x) ltac:(lra)) as [H1 H2].
    pose proof (sin_ge_0 (- x) ltac:(lra) ltac:(lra)) as H3.
    pose proof (SIN_bound (- x)) as H4.
    rewrite sin_exact_odd, sin_neg in *.
    split_and!; [apply Rabs_le; lra| |lra|lra|apply Rabs_le; lra].
    intros Hh. pose proof (sin_error_half (- x) ltac:(lra)) as H5.
    rewrite sin_exact_odd, sin_neg in H5.
    apply Rabs_le; lra.
Qed.

Lemma sin_accuracy_witness :
  (- PI <= 1 <= PI)%R /\
  (Rabs (FMA.sin (FT := exact) 1 - sin 1) <= 12 / 1000000)%R.
Proof.
  assert (H : (- PI <= 1 <= PI)%R) by (pose proof PI2_3_2; lra).
  split; [exact H|]. exact (proj1 (sin_accuracy 1%R H)).
Defined.

(** X10.  In exact arithmetic, on the documented range [-PI, PI] the
    approximation of the cosine is not above the cosine, and below it by at
    most 7.5e-5; by at most 2e-7 on [-2, 2] and 7e-9 on [-PI/2, PI/2]. *)
Theorem cos_accuracy (x : R) :
  (- PI <= x <= PI)%R ->
  (- (75 / 1000000) <= FMA.cos (FT := exact) x - cos x <= 0)%R /\
  (-2 <= x <= 2 -> - (2 / 10000000) <= FMA.cos (FT := exact) x - cos x)%R /\
  (- PI / 2 <= x <= PI / 2 ->
     - (7 / 1000000000) <= FMA.cos (FT := exact) x - cos x)%R.
Proof.
  intros Hx.
  destruct (Rle_dec 0 x) as [Hpos|Hneg].
  - destruct (cos_error_nonneg_input x ltac:(lra)) as [H1 H2].
    split_and!; [lra|lra|intros; lra|].
    intros Hh. apply cos_error_half. lra.
  - destruct (cos_error_nonneg_input (- x) ltac:(lra)) as [H1 H2].
    rewrite cos_exact_even, cos_neg in *.
    split_and!; [lra|lra|intros; lra|].
    intros Hh. pose proof (cos_error_half (- x) ltac:(lra)) as H5.
    by rewrite cos_exact_even, cos_neg in H5.
Qed.

Lemma cos_accuracy_witness :
  (- PI <= 1 <= PI)%R /\
  (- (75 / 1000000) <= FMA.cos (FT := exact) 1 - cos 1 <= 0)%R.
Proof.
  assert (H : (- PI <= 1 <= PI)%R) by (pose proof PI2_3_2; lra).
  split; [exact H|]. exact (proj1 (cos_accuracy 1%R H)).
Defined.

(** ** Accuracy: [exp]

    The derivative of [N x / D x * exp (- x)] is
    [- x ^ 8 / D x ^ 2 * exp (- x)]: the ratio of the approximation to the
    exponential decreases, and its values at the ends of an interval bound
    it inside.  The values of the exponential at rationals come from the
    alternating series of [exp (- u)] for [0 <= u <= 1]. *)

Section ExpAccuracy.
Local Open Scope R_scope.

Lemma exp_numerator_is_poly (x : R) :
  FMA.exp_numerator x = peval exp_numerator_poly x.
Proof.
  cbv [FMA.exp_numerator exp_numerator_poly peval fromZ fadd fmul fopp exact
       Q2R Qnum Qden inject_Z]. field.
Qed.

Lemma exp_denominator_is_poly (x : R) :
  FMA.exp_denominator x = peval exp_denominator_poly x.
Proof.
  cbv [FMA.exp_denominator exp_denominator_poly peval fromZ fadd fmul fopp
       exact Q2R Qnum Qden inject_Z]. field.
Qed.

Lemma Q2R_m1 : Q2R (-1) = -1.
Proof. unfold Q2R; simpl; lra. Qed.

End ExpAccuracy.

Section ExpMonotone.
Local Open Scope R_scope.

Lemma exp_sum_sound (a b : Z) (m : nat) :
  (0 < b)%Z ->
  let '(T, F, P) := exp_sum a b m in
  (0 < F)%Z /\ IZR P = IZR a ^ m /\ IZR F = INR (fact m) * IZR b ^ m /\
  IZR T / IZR F = E1 (IZR a / IZR b) m.
Proof.
  intros Hb. assert (HbR : 0 < IZR b) by (by apply IZR_lt).
  induction m as [|m IH]; cbn [exp_sum].
  - split_and!; [lia|simpl; lra|simpl; lra|]. unfold E1. simpl. field.
  - destruct (exp_sum a b m) as [[T F] P].
    destruct IH as (HF & HP & HFR & HT).
    assert (HFR' : 0 < IZR F) by (by apply IZR_lt).
    assert (Hs : 0 < IZR (Z.of_nat (S m) * b)).
    { apply IZR_lt. nia. }
    split_and!.
    + nia.
    + rewrite mult_IZR, HP. simpl. ring.
    + rewrite !mult_IZR, HFR, fact_simpl, mult_INR, <- INR_IZR_INZ. simpl pow.
      ring.
    + unfold E1 in *. cbn [sum_f_R0]. rewrite <- HT.
      assert (Hx : (IZR a / IZR b) ^ S m = IZR a ^ S m * / IZR b ^ S m).
      { unfold Rdiv. by rewrite Rpow_mult_distr, pow_inv. }
      rewrite Hx, plus_IZR, !mult_IZR, HP, fact_simpl, mult_INR, HFR.
      rewrite <- INR_IZR_INZ.
      assert (HS : 0 < INR (S m)) by (apply lt_0_INR; lia).
      assert (Hfact : 0 < INR (fact m)) by apply INR_fact_lt_0.
      assert (Hbm : 0 < IZR b ^ m) by (by apply pow_lt).
      simpl pow. field. repeat split; lra.
Qed.

Lemma exp_neg_fraction_sound (k m : nat) (q : Q) :
  k <> 0%nat ->
  let (T, F) := exp_neg_fraction k m q in
  (0 < F)%Z /\ IZR T / IZR F = E1 (- (Q2R q / INR k)) m.
Proof.
  intros Hk. unfold exp_neg_fraction.
  assert (Hb : (0 < Zpos (Qden q) * Z.of_nat k)%Z) by lia.
  pose proof (exp_sum_sound (- Qnum q) _ m Hb) as H.
  destruct (exp_sum (- Qnum q) (Zpos (Qden q) * Z.of_nat k) m) as [[T F] P].
  destruct H as (HF & _ & _ & HT). split; [done|]. rewrite HT. f_equal.
  rewrite opp_IZR, mult_IZR, <- INR_IZR_INZ. unfold Q2R.
  assert (0 < INR k) by (apply lt_0_INR; lia).
  assert (0 < IZR (Zpos (Qden q))) by (by apply IZR_lt).
  field. split; lra.
Qed.

Lemma exp_neg_power_sound (up : bool) (k m : nat) (q : Q) :
  k <> 0%nat ->
  let (T, F) := exp_neg_fraction k m q in
  let r := (T * 2 ^ 64 / F)%Z in
  Q2R (exp_neg_power up k m q)
  = (IZR (if up then r + 1 else r) / IZR (2 ^ 64)) ^ k /\
  IZR r / IZR (2 ^ 64) <= E1 (- (Q2R q / INR k)) m
    < IZR (r + 1) / IZR (2 ^ 64) /\
  ((0 <= T)%Z -> 0 <= IZR r).
Proof.
  intros Hk. unfold exp_neg_power.
  pose proof (exp_neg_fraction_sound k m q Hk) as H.
  destruct (exp_neg_fraction k m q) as [T F]. destruct H as [HF <-].
  cbv zeta. set (M := (2 ^ 64)%Z). set (r := (T * M / F)%Z).
  assert (HM : (0 < M)%Z) by (by vm_compute).
  assert (HMk : (0 < M ^ Z.of_nat k)%Z) by (apply Z.pow_pos_nonneg; lia).
  assert (HMR : 0 < IZR M) by (by apply IZR_lt).
  assert (HFR : 0 < IZR F) by (by apply IZR_lt).
  split; [|split].
  - unfold Q2R. cbn [Qnum Qden]. rewrite Z2Pos.id by done.
    rewrite <- !pow_IZR. unfold Rdiv. by rewrite Rpow_mult_distr, pow_inv.
  - pose proof (Z.mul_div_le (T * M) F HF) as Hle.
    pose proof (Z.mul_succ_div_gt (T * M) F HF) as Hgt.
    fold r in Hle, Hgt. apply IZR_le in Hle. apply IZR_lt in Hgt.
    rewrite !mult_IZR in Hle, Hgt. unfold Z.succ in Hgt.
    split.
    + apply quotient_upper; [done|].
      replace (IZR T / IZR F * IZR M) with (IZR T * IZR M / IZR F)
        by (field; lra).
      apply quotient_lower; lra.
    + apply (Rmult_lt_reg_r (IZR F * IZR M)); [by apply Rmult_lt_0_compat|].
      replace (IZR T / IZR F * (IZR F * IZR M)) with (IZR T * IZR M)
        by (field; lra).
      replace (IZR (r + 1) / IZR M * (IZR F * IZR M))
        with (IZR F * IZR (r + 1)) by (field; lra).
      done.
  - intros HT. apply IZR_le. apply Z.div_pos; lia.
Qed.

Lemma exp_neg_bounds (k n : nat) (q : Q) :
  exp_neg_bounds_ok k n q = true ->
  Q2R (exp_neg_below k n q) <= exp (- Q2R q) <= Q2R (exp_neg_above k n q).
Proof.
  unfold exp_neg_bounds_ok, exp_neg_below, exp_neg_above.
  intros H. apply andb_prop in H as [H H4]. apply andb_prop in H as [H H3].
  apply andb_prop in H as [H1 H2].
  apply negb_true_iff, Nat.eqb_neq in H1.
  apply Z.leb_le in H2, H3, H4.
  assert (HkR : 0 < INR k) by (apply lt_0_INR; lia).
  assert (HdR : 0 < IZR (Zpos (Qden q))) by (by apply IZR_lt).
  set (u := Q2R q / INR k).
  assert (Hu : 0 <= u <= 1).
  { unfold u, Q2R. apply IZR_le in H2, H3.
    rewrite mult_IZR, <- INR_IZR_INZ in H3.
    assert (0 < / IZR (Zpos (Qden q))) by (by apply Rinv_0_lt_compat).
    assert (0 < / INR k) by (by apply Rinv_0_lt_compat).
    split.
    - apply Rmult_le_pos; [apply Rmult_le_pos|]; lra.
    - apply quotient_upper; [lra|]. apply quotient_upper; lra. }
  destruct (exp_neg_enclosure u n Hu) as [Hlo Hhi].
  pose proof (exp_pos (- u)) as Hpos.
  assert (HMR : 0 < IZR (2 ^ 64)) by (apply IZR_lt; by vm_compute).
  replace (- Q2R q) with (INR k * (- u)) by (unfold u; field; lra).
  rewrite exp_nat_mult.
  pose proof (exp_neg_power_sound false k (S (2 * n)) q H1) as Hb.
  pose proof (exp_neg_power_sound true k (2 * n) q H1) as Ha.
  destruct (exp_neg_fraction k (S (2 * n)) q) as [T F].
  destruct (exp_neg_fraction k (2 * n) q) as [T' F'].
  cbv zeta in Ha, Hb. cbn [fst] in H4. fold u in Ha, Hb.
  destruct Hb as (-> & [Hb _] & Hb0). destruct Ha as (-> & [_ Ha] & _).
  specialize (Hb0 H4).
  assert (0 <= IZR (T * 2 ^ 64 / F) / IZR (2 ^ 64)).
  { apply Rmult_le_pos; [done|]. apply Rlt_le. by apply Rinv_0_lt_compat. }
  split; apply pow_incr; split; lra.
Qed.

Lemma exp_ratio_eq (x : R) :
  exp_ratio x = FMA.exp (FT := exact) x / exp x.
Proof.
  unfold exp_ratio, mult_fct, div_fct, comp, opp_fct, id.
  rewrite exp_is_quotient, exp_numerator_is_poly, exp_denominator_is_poly.
  rewrite exp_Ropp. reflexivity.
Qed.

Lemma exp_ratio_derivative (x : R) :
  derivable_pt_lim exp_ratio x (exp_ratio' x).
Proof.
  pose proof (exp_denominator_positive x) as HD.
  rewrite exp_denominator_is_poly in HD.
  set (N := peval exp_numerator_poly) in *.
  set (D := peval exp_denominator_poly) in *.
  replace (exp_ratio' x)
    with ((peval (pderiv exp_numerator_poly) x * D x
           - peval (pderiv exp_denominator_poly) x * N x) / Rsqr (D x)
          * comp exp (- id)%F x
          + (N / D)%F x * (exp ((- id)%F x) * - 1)).
  - apply derivable_pt_lim_mult.
    + apply derivable_pt_lim_div; try apply derivable_pt_lim_peval. lra.
    + apply derivable_pt_lim_comp; [|apply derivable_pt_lim_exp].
      apply derivable_pt_lim_opp, derivable_pt_lim_id.
  - unfold exp_ratio', comp, opp_fct, div_fct, id, Rsqr, N, D.
    rewrite exp_denominator_is_poly.
    change (pderiv exp_numerator_poly) with [840; 360; 60; 4; 0]%Q.
    change (pderiv exp_denominator_poly) with [-840; 360; -60; 4; 0]%Q.
    fold D. generalize (exp (- x)). intros E. unfold D in *. clear N D.
    revert HD.
    cbv [exp_numerator_poly exp_denominator_poly peval Q2R Qnum Qden].
    intros HD. field. lra.
Qed.

Lemma exp_ratio_decreasing (x y : R) : x <= y -> exp_ratio y <= exp_ratio x.
Proof.
  intros Hxy.
  apply (nonincreasing_on exp_ratio exp_ratio' x y); try lra.
  - intros c _. apply exp_ratio_derivative.
  - intros c _. unfold exp_ratio'.
    pose proof (exp_denominator_positive c) as HD.
    pose proof (exp_pos (- c)) as HE.
    assert (0 <= c ^ 8).
    { replace (c ^ 8) with ((c ^ 4) ^ 2) by ring. apply pow2_ge_0. }
    assert (0 < / FMA.exp_denominator (FT := exact) c ^ 2).
    { apply Rinv_0_lt_compat. apply pow_lt, HD. }
    assert (0 <= c ^ 8 * / FMA.exp_denominator (FT := exact) c ^ 2 * exp (- c)).
    { apply Rmult_le_pos; [apply Rmult_le_pos|]; lra. }
    unfold Rdiv. lra.
Qed.

End ExpMonotone.

Section ExpTheorems.
Local Open Scope R_scope.

Lemma exp_neg_ge (k n : nat) (q c : Q) :
  exp_neg_bounds_ok k n q = true ->
  Qle_bool c (exp_neg_below k n q) = true ->
  Q2R c <= exp (- Q2R q).
Proof.
  intros Hok Hc. apply Qle_bool_iff, Qle_Rle in Hc.
  pose proof (exp_neg_bounds k n q Hok). lra.
Qed.

Lemma exp_neg_le (k n : nat) (q c : Q) :
  exp_neg_bounds_ok k n q = true ->
  Qle_bool (exp_neg_above k n q) c = true ->
  exp (- Q2R q) <= Q2R c.
Proof.
  intros Hok Hc. apply Qle_bool_iff, Qle_Rle in Hc.
  pose proof (exp_neg_bounds k n q Hok). lra.
Qed.

Lemma exp_ratio_0 : exp_ratio 0 = 1.
Proof.
  rewrite exp_ratio_eq, exp_0. cbv [FMA.exp fromZ fadd fmul fdiv exact].
  field.
Qed.

Lemma exp_ratio_bounds (a b x : R) :
  a <= x <= b ->
  exp_ratio b * exp x <= FMA.exp (FT := exact) x <= exp_ratio a * exp x.
Proof.
  intros Hx. pose proof (exp_pos x) as He.
  pose proof (exp_ratio_decreasing a x ltac:(lra)) as Ha.
  pose proof (exp_ratio_decreasing x b ltac:(lra)) as Hb.
  assert (Hr : FMA.exp (FT := exact) x = exp_ratio x * exp x).
  { rewrite exp_ratio_eq. field. lra. }
  rewrite Hr. split; apply Rmult_le_compat_r; lra.
Qed.

(** Enclosures of the exponential at -1, -4 and -6. *)
Lemma exp_m1_bounds :
  367879441 / 1000000000 <= exp (- 1) <= 367879442 / 1000000000.
Proof.
  pose proof (exp_neg_ge 1 7 1 (Qmake 367879441 1000000000)
                ltac:(by vm_compute) ltac:(by vm_compute)) as Hl.
  pose proof (exp_neg_le 1 7 1 (Qmake 367879442 1000000000)
                ltac:(by vm_compute) ltac:(by vm_compute)) as Hu.
  rewrite Q2R_1 in *. unfold Q2R in *. cbn [Qnum Qden] in *.
  replace (-1) with (- (1)) by lra. lra.
Qed.

Lemma exp_m4_bounds :
  18315638 / 1000000000 <= exp (- 4) <= 18315639 / 1000000000.
Proof.
  pose proof (exp_neg_ge 4 7 4 (Qmake 18315638 1000000000)
                ltac:(by vm_compute) ltac:(by vm_compute)) as Hl.
  pose proof (exp_neg_le 4 7 4 (Qmake 18315639 1000000000)
                ltac:(by vm_compute) ltac:(by vm_compute)) as Hu.
  replace (Q2R 4) with 4 in * by (unfold Q2R; simpl; lra).
  unfold Q2R in *. cbn [Qnum Qden] in *.
  replace (-4) with (- (4)) by lra. lra.
Qed.

Lemma exp_m6_bounds :
  2478752 / 1000000000 <= exp (- 6) <= 2478753 / 1000000000.
Proof.
  pose proof (exp_neg_ge 6 7 6 (Qmake 2478752 1000000000)
                ltac:(by vm_compute) ltac:(by vm_compute)) as Hl.
  pose proof (exp_neg_le 6 7 6 (Qmake 2478753 1000000000)
                ltac:(by vm_compute) ltac:(by vm_compute)) as Hu.
  replace (Q2R 6) with 6 in * by (unfold Q2R; simpl; lra).
  unfold Q2R in *. cbn [Qnum Qden] in *.
  replace (-6) with (- (6)) by lra. lra.
Qed.

Lemma exp_ratio_at (x : R) :
  exp_ratio x = FMA.exp (FT := exact) x * exp (- x) /\
  exp_ratio (- x) = FMA.exp (FT := exact) (- x) / exp (- x).
Proof.
  rewrite !exp_ratio_eq, exp_Ropp. split; reflexivity.
Qed.

Lemma exp_ratio_values :
  1 - 41 / 1000000000 <= exp_ratio 1 /\
  exp_ratio (- 1) <= 1 + 41 / 1000000000 /\
  984 / 1000 <= exp_ratio 4 /\
  205 / 100 <= exp_ratio (- 6) <= 206 / 100.
Proof.
  pose proof exp_m1_bounds. pose proof exp_m4_bounds. pose proof exp_m6_bounds.
  replace (-1) with (- (1)) in * by lra.
  replace (-4) with (- (4)) in * by lra.
  replace (-6) with (- (6)) in * by lra.
  destruct (exp_ratio_at 1) as [-> ->].
  destruct (exp_ratio_at 4) as [-> _].
  destruct (exp_ratio_at 6) as [_ ->].
  replace (FMA.exp (FT := exact) 1) with (2721 / 1001)
    by (cbv [FMA.exp fromZ fadd fmul fdiv exact]; field).
  replace (FMA.exp (FT := exact) (- (1))) with (1001 / 2721)
    by (cbv [FMA.exp fromZ fadd fmul fdiv exact]; field).
  replace (FMA.exp (FT := exact) 4) with (9456 / 176)
    by (cbv [FMA.exp fromZ fadd fmul fdiv exact]; field).
  replace (FMA.exp (FT := exact) (- (6))) with (96 / 18816)
    by (cbv [FMA.exp fromZ fadd fmul fdiv exact]; field).
  split_and!; try lra.
  - apply quotient_upper; lra.
  - apply quotient_lower; lra.
  - apply quotient_upper; lra.
Qed.

(** X13.  In exact arithmetic the approximation of the exponential is
    positive at every input, inside the documented range or not, and it is
    at least 1 exactly at the inputs that are not negative. *)
Theorem exp_positive (x : R) :
  0 < FMA.exp (FT := exact) x /\ (1 <= FMA.exp (FT := exact) x <-> 0 <= x).
Proof.
  pose proof (exp_numerator_positive x) as HN.
  pose proof (exp_denominator_positive x) as HD.
  rewrite exp_is_quotient.
  set (n := FMA.exp_numerator (FT := exact) x) in *.
  set (d := FMA.exp_denominator (FT := exact) x) in *.
  assert (Hnd : n - d = 2 * x * (840 + 20 * (x * x))).
  { unfold n, d.
    cbv [FMA.exp_numerator FMA.exp_denominator fromZ fadd fmul exact]. ring. }
  pose proof (Rle_0_sqr x) as Hy. unfold Rsqr in Hy.
  split.
  - apply Rmult_lt_0_compat; [done|]. by apply Rinv_0_lt_compat.
  - split; intros H.
    + assert (d <= n).
      { apply (Rmult_le_compat_r d) in H; [|lra].
        replace (n / d * d) with n in H by (field; lra). lra. }
      destruct (Rle_dec 0 x) as [|Hn]; [done|]. nra.
    + apply quotient_lower; [done|]. nra.
Qed.

(** X14.  In exact arithmetic the ratio of the approximation to the
    exponential decreases as the input grows, over all the reals; it is 1
    at 0, so the approximation is not above the exponential for positive
    inputs and not below it for negative ones, and the relative error on an
    interval is largest at its ends. *)
Theorem exp_relative_error_monotone (x y : R) :
  x <= y ->
  FMA.exp (FT := exact) y / exp y <= FMA.exp (FT := exact) x / exp x /\
  (0 <= x -> FMA.exp (FT := exact) x <= exp x) /\
  (y <= 0 -> exp y <= FMA.exp (FT := exact) y).
Proof.
  intros Hxy. rewrite <- !exp_ratio_eq. split; [by apply exp_ratio_decreasing|].
  split; intros H0.
  - pose proof (exp_ratio_bounds 0 x x ltac:(lra)) as [_ H].
    rewrite exp_ratio_0 in H. lra.
  - pose proof (exp_ratio_bounds y 0 y ltac:(lra)) as [H _].
    rewrite exp_ratio_0 in H. lra.
Qed.

Lemma exp_relative_error_monotone_witness :
  0 <= 1 /\
  FMA.exp (FT := exact) 1 / exp 1 <= FMA.exp (FT := exact) 0 / exp 0.
Proof.
  assert (H : 0 <= 1) by lra.
  split; [exact H|]. exact (proj1 (exp_relative_error_monotone 0 1 H)).
Defined.

(** X15.  In exact arithmetic, on the documented range [-6, 4]: for
    [0 <= x <= 4] the approximation lies between 0.984 times the
    exponential and the exponential; for [-6 <= x <= 0] between the
    exponential and 2.06 times the exponential; for [-1 <= x <= 1] the
    relative error is at most 4.1e-8.  At the lower end -6 of the range the
    approximation is more than twice the exponential. *)
Theorem exp_accuracy (x : R) :
  (0 <= x <= 4 ->
     984 / 1000 * exp x <= FMA.exp (FT := exact) x <= exp x) /\
  (-6 <= x <= 0 ->
     exp x <= FMA.exp (FT := exact) x <= 206 / 100 * exp x) /\
  (-1 <= x <= 1 ->
     Rabs (FMA.exp (FT := exact) x - exp x) <= 41 / 1000000000 * exp x) /\
  205 / 100 * exp (- 6) <= FMA.exp (FT := exact) (- 6).
Proof.
  pose proof exp_ratio_values as (H1 & Hm1 & H4 & Hm6l & Hm6u).
  pose proof (exp_pos x) as He. pose proof exp_ratio_0 as H0.
  split_and!.
  - intros Hx. pose proof (exp_ratio_bounds 0 4 x Hx). nra.
  - intros Hx. pose proof (exp_ratio_bounds (-6) 0 x Hx). nra.
  - intros Hx. pose proof (exp_ratio_bounds (-1) 1 x Hx).
    apply Rabs_le. nra.
  - pose proof (exp_ratio_bounds (-6) (-6) (-6) ltac:(lra)).
    pose proof (exp_pos (- 6)). nra.
Qed.

Lemma exp_accuracy_witness :
  0 <= 1 <= 4 /\
  984 / 1000 * exp 1 <= FMA.exp (FT := exact) 1 <= exp 1.
Proof.
  assert (H : 0 <= 1 <= 4) by lra.
  split; [exact H|]. exact (proj1 (exp_accuracy 1) H).
Defined.

End ExpTheorems.

(** ** Accuracy: [logNPlusOne]

    The derivative of [N x / D x - ln (1 + x)] is
    [- 900 x ^ 10 / (D x ^ 2 * (1 + x))]: the error decreases from -0.8
    on. *)

Section LogMonotone.
Local Open Scope R_scope.

Lemma logNPlusOne_numerator_is_poly (x : R) :
  FMA.logNPlusOne_numerator x = peval logNPlusOne_numerator_poly x.
Proof.
  cbv [FMA.logNPlusOne_numerator logNPlusOne_numerator_poly peval fromZ fadd
       fmul fopp exact Q2R Qnum Qden inject_Z]. field.
Qed.

Lemma logNPlusOne_denominator_is_poly (x : R) :
  FMA.logNPlusOne_denominator x = peval logNPlusOne_denominator_poly x.
Proof.
  cbv [FMA.logNPlusOne_denominator logNPlusOne_denominator_poly peval fromZ
       fadd fmul fopp exact Q2R Qnum Qden inject_Z]. field.
Qed.

Lemma logNPlusOne_denominator_positive_above (x : R) :
  -8 / 10 <= x -> 0 < FMA.logNPlusOne_denominator x.
Proof.
  intros Hx.
  cbv [FMA.logNPlusOne_denominator fromZ fadd fmul fopp exact].
  destruct (Rle_dec 0 x) as [Hpos|Hneg]; [nra|].
  assert (H1 : 876 <= 900 + 30 * x <= 900) by lra.
  assert (H2 : 5580 <= 6300 + x * (900 + 30 * x) <= 6300) by nra.
  assert (H3 : 11760 <= 16800 + x * (6300 + x * (900 + 30 * x)) <= 16800)
    by nra.
  nra.
Qed.

Lemma logNPlusOne_error_eq (x : R) :
  logNPlusOne_error x = FMA.logNPlusOne (FT := exact) x - ln (1 + x).
Proof.
  unfold logNPlusOne_error, minus_fct, div_fct, comp, plus_fct, fct_cte, id.
  rewrite <- logNPlusOne_numerator_is_poly, <- logNPlusOne_denominator_is_poly.
  reflexivity.
Qed.

Lemma logNPlusOne_error_derivative (x : R) :
  -8 / 10 <= x -> derivable_pt_lim logNPlusOne_error x (logNPlusOne_error' x).
Proof.
  intros Hx. pose proof (logNPlusOne_denominator_positive_above x Hx) as HD.
  rewrite logNPlusOne_denominator_is_poly in HD.
  set (N := peval logNPlusOne_numerator_poly) in *.
  set (D := peval logNPlusOne_denominator_poly) in *.
  replace (logNPlusOne_error' x)
    with ((peval (pderiv logNPlusOne_numerator_poly) x * D x
           - peval (pderiv logNPlusOne_denominator_poly) x * N x) / Rsqr (D x)
          - / (fct_cte 1 + id)%F x * (0 + 1)).
  - apply derivable_pt_lim_minus.
    + apply derivable_pt_lim_div; try apply derivable_pt_lim_peval. lra.
    + apply derivable_pt_lim_comp.
      * apply derivable_pt_lim_plus;
          [apply derivable_pt_lim_const | apply derivable_pt_lim_id].
      * apply derivable_pt_lim_ln. unfold plus_fct, fct_cte, id. lra.
  - unfold logNPlusOne_error', plus_fct, fct_cte, id, Rsqr, N, D.
    rewrite logNPlusOne_denominator_is_poly.
    let d := eval vm_compute in (pderiv logNPlusOne_numerator_poly) in
      change (pderiv logNPlusOne_numerator_poly) with d.
    let d := eval vm_compute in (pderiv logNPlusOne_denominator_poly) in
      change (pderiv logNPlusOne_denominator_poly) with d.
    unfold D in HD. clear N D. revert HD.
    cbv [logNPlusOne_numerator_poly logNPlusOne_denominator_poly peval Q2R
         Qnum Qden].
    intros HD. field. split; lra.
Qed.

Lemma logNPlusOne_error_decreasing (x y : R) :
  -8 / 10 <= x -> x <= y -> logNPlusOne_error y <= logNPlusOne_error x.
Proof.
  intros Hx Hxy.
  apply (nonincreasing_on logNPlusOne_error logNPlusOne_error' x y); try lra.
  - intros c Hc. apply logNPlusOne_error_derivative. lra.
  - intros c Hc. unfold logNPlusOne_error'.
    pose proof (logNPlusOne_denominator_positive_above c ltac:(lra)) as HD.
    assert (0 <= c ^ 10).
    { replace (c ^ 10) with ((c ^ 5) ^ 2) by ring. apply pow2_ge_0. }
    assert (Hp : 0 < FMA.logNPlusOne_denominator (FT := exact) c ^ 2 * (1 + c)).
    { apply Rmult_lt_0_compat; [apply pow_lt, HD | lra]. }
    apply Rinv_0_lt_compat in Hp.
    unfold Rdiv. nra.
Qed.

End LogMonotone.

Section LogAccuracy.
Local Open Scope R_scope.

Lemma ln_upper (c q : R) : 0 < c -> exp (- q) <= / c -> ln c <= q.
Proof.
  intros Hc H. rewrite exp_Ropp in H.
  assert (Hle : c <= exp q).
  { pose proof (exp_pos q) as He. apply Rinv_le_contravar in H.
    - by rewrite !Rinv_inv in H.
    - by apply Rinv_0_lt_compat. }
  destruct Hle as [Hlt| ->]; [|rewrite ln_exp; lra].
  apply ln_increasing in Hlt; [|done]. rewrite ln_exp in Hlt. lra.
Qed.

Lemma ln_lower (c q : R) : 0 < c -> exp (- q) <= c -> - q <= ln c.
Proof.
  intros Hc [Hlt|Heq].
  - apply ln_increasing in Hlt; [|apply exp_pos]. rewrite ln_exp in Hlt. lra.
  - rewrite <- Heq, ln_exp. lra.
Qed.

Lemma logNPlusOne_error_values :
  logNPlusOne_error 0 = 0 /\
  - (43 / 100000) <= logNPlusOne_error 5 /\
  logNPlusOne_error (-8 / 10) <= 43 / 100000 /\
  - (23 / 1000000000) <= logNPlusOne_error 1 /\
  logNPlusOne_error (-1 / 2) <= 23 / 1000000000.
Proof.
  rewrite !logNPlusOne_error_eq.
  replace (FMA.logNPlusOne (FT := exact) 0) with 0
    by (cbv [FMA.logNPlusOne FMA.logNPlusOne_numerator
             FMA.logNPlusOne_denominator fromZ fadd fmul fdiv exact]; field).
  replace (FMA.logNPlusOne (FT := exact) 5) with (704285 / 393162)
    by (cbv [FMA.logNPlusOne FMA.logNPlusOne_numerator
             FMA.logNPlusOne_denominator fromZ fadd fmul fdiv exact]; field).
  replace (FMA.logNPlusOne (FT := exact) (-8 / 10)) with (- (204436 / 127035))
    by (cbv [FMA.logNPlusOne FMA.logNPlusOne_numerator
             FMA.logNPlusOne_denominator fromZ fadd fmul fdiv exact]; field).
  replace (FMA.logNPlusOne (FT := exact) 1) with (34997 / 50490)
    by (cbv [FMA.logNPlusOne FMA.logNPlusOne_numerator
             FMA.logNPlusOne_denominator fromZ fadd fmul fdiv exact]; field).
  replace (FMA.logNPlusOne (FT := exact) (-1 / 2)) with (- (34997 / 50490))
    by (cbv [FMA.logNPlusOne FMA.logNPlusOne_numerator
             FMA.logNPlusOne_denominator fromZ fadd fmul fdiv exact]; field).
  replace (1 + 0) with 1 by ring. rewrite ln_1.
  replace (1 + 5) with 6 by ring.
  replace (1 + -8 / 10) with (/ 5) by field.
  replace (1 + 1) with 2 by ring.
  replace (1 + -1 / 2) with (/ 2) by field.
  set (q5 := (Qmake 704285 393162 + Qmake 43 100000)%Q).
  set (q8 := (Qmake 204436 127035 + Qmake 43 100000)%Q).
  set (q1 := (Qmake 34997 50490 + Qmake 23 1000000000)%Q).
  pose proof (exp_neg_le 2 7 q5 (Qmake 1 6)
                ltac:(by vm_compute) ltac:(by vm_compute)) as H5.
  pose proof (exp_neg_le 2 7 q8 (Qmake 1 5)
                ltac:(by vm_compute) ltac:(by vm_compute)) as H8.
  pose proof (exp_neg_le 1 7 q1 (Qmake 1 2)
                ltac:(by vm_compute) ltac:(by vm_compute)) as H1.
  assert (E5 : Q2R q5 = 704285 / 393162 + 43 / 100000).
  { unfold q5. rewrite Q2R_plus. unfold Q2R. cbn [Qnum Qden]. lra. }
  assert (E8 : Q2R q8 = 204436 / 127035 + 43 / 100000).
  { unfold q8. rewrite Q2R_plus. unfold Q2R. cbn [Qnum Qden]. lra. }
  assert (E1 : Q2R q1 = 34997 / 50490 + 23 / 1000000000).
  { unfold q1. rewrite Q2R_plus. unfold Q2R. cbn [Qnum Qden]. lra. }
  replace (Q2R (Qmake 1 6)) with (/ 6) in H5
    by (unfold Q2R; cbn [Qnum Qden]; lra).
  replace (Q2R (Qmake 1 5)) with (/ 5) in H8
    by (unfold Q2R; cbn [Qnum Qden]; lra).
  replace (Q2R (Qmake 1 2)) with (/ 2) in H1
    by (unfold Q2R; cbn [Qnum Qden]; lra).
  pose proof (ln_upper 6 _ ltac:(lra) H5) as L5.
  pose proof (ln_lower (/ 5) _ ltac:(lra) H8) as L8.
  pose proof (ln_upper 2 _ ltac:(lra) H1) as L1.
  pose proof (ln_lower (/ 2) _ ltac:(lra) H1) as L2.
  split_and!; lra.
Qed.

(** X16.  In exact arithmetic, from -0.8 on the error of the approximation
    of [ln (1 + x)] decreases as the input grows, through 0 at 0: on the
    documented range [-0.8, 5] it is at most 4.3e-4 in absolute value, on
    [-1/2, 1] at most 2.3e-8, and the approximation is not above the
    logarithm for positive inputs, not below it for negative ones. *)
Theorem logNPlusOne_accuracy (x : R) :
  -8 / 10 <= x ->
  (x <= 5 ->
     Rabs (FMA.logNPlusOne (FT := exact) x - ln (1 + x)) <= 43 / 100000) /\
  (-1 / 2 <= x <= 1 ->
     Rabs (FMA.logNPlusOne (FT := exact) x - ln (1 + x))
       <= 23 / 1000000000) /\
  (0 <= x -> FMA.logNPlusOne (FT := exact) x <= ln (1 + x)) /\
  (x <= 0 -> ln (1 + x) <= FMA.logNPlusOne (FT := exact) x).
Proof.
  intros Hx. rewrite <- logNPlusOne_error_eq.
  pose proof logNPlusOne_error_values as (H0 & H5 & H8 & H1 & H2).
  pose proof (logNPlusOne_error_decreasing (-8 / 10) x ltac:(lra) Hx) as Hl.
  split_and!.
  - intros Hu. pose proof (logNPlusOne_error_decreasing x 5 Hx Hu).
    apply Rabs_le. lra.
  - intros Hu.
    pose proof (logNPlusOne_error_decreasing x 1 Hx ltac:(lra)).
    pose proof (logNPlusOne_error_decreasing (-1 / 2) x ltac:(lra) ltac:(lra)).
    apply Rabs_le. lra.
  - intros Hu.
    pose proof (logNPlusOne_error_decreasing 0 x ltac:(lra) Hu) as H.
    rewrite (logNPlusOne_error_eq x), H0 in H. lra.
  - intros Hu. pose proof (logNPlusOne_error_decreasing x 0 Hx Hu) as H.
    rewrite (logNPlusOne_error_eq x), H0 in H. lra.
Qed.

Lemma logNPlusOne_accuracy_witness :
  -8 / 10 <= 1 /\
  (1 <= 5 ->
   Rabs (FMA.logNPlusOne (FT := exact) 1 - ln (1 + 1)) <= 43 / 100000).
Proof.
  assert (H : -8 / 10 <= 1) by lra.
  split; [exact H|]. exact (proj1 (logNPlusOne_accuracy 1 H)).
Defined.

End LogAccuracy.

(** ** Accuracy: [tan]

    The derivative of [atan (N x / D x) - x] is
    [- x ^ 14 / (D x ^ 2 + N x ^ 2)]: the angle whose tangent the
    approximation returns falls behind the input, by an amount that is
    largest at the end of the range. *)

Section TanAngle.
Local Open Scope R_scope.

Lemma tan_numerator_is_poly (x : R) :
  FMA.tan_numerator x = peval tan_numerator_poly x.
Proof.
  cbv [FMA.tan_numerator tan_numerator_poly peval fromZ fadd
       fmul fopp exact Q2R Qnum Qden inject_Z]. field.
Qed.

Lemma tan_denominator_is_poly (x : R) :
  FMA.tan_denominator x = peval tan_denominator_poly x.
Proof.
  cbv [FMA.tan_denominator tan_denominator_poly peval fromZ
       fadd fmul fopp exact Q2R Qnum Qden inject_Z]. field.
Qed.

Lemma tan_denominator_negative_edge (x : R) :
  - tan_edge <= x <= tan_edge -> FMA.tan_denominator x < 0.
Proof.
  unfold tan_edge. intros Hb.
  apply square_bound in Hb.
  cbv [FMA.tan_denominator fromZ fadd fmul fopp exact].
  set (y := x * x) in *.
  assert (Hy : 0 <= y <= 24674011008 / 10000000000) by lra.
  assert (Hq : 0 < 28 * (y * y) + 28 * (24674011008 / 10000000000) * y
                   + 28 * (24674011008 / 10000000000)
                        * (24674011008 / 10000000000)
                   - 3150 * (y + 24674011008 / 10000000000) + 62370) by nra.
  nra.
Qed.

Lemma tan_angle_error_eq (x : R) :
  tan_angle_error x = atan (FMA.tan (FT := exact) x) - x.
Proof.
  unfold tan_angle_error, minus_fct, div_fct, comp, id.
  rewrite <- tan_numerator_is_poly, <- tan_denominator_is_poly.
  reflexivity.
Qed.

Lemma tan_angle_error_derivative (x : R) :
  - tan_edge <= x <= tan_edge ->
  derivable_pt_lim tan_angle_error x (tan_angle_error' x).
Proof.
  intros Hx. pose proof (tan_denominator_negative_edge x Hx) as HD.
  rewrite tan_denominator_is_poly in HD.
  set (N := peval tan_numerator_poly) in *.
  set (D := peval tan_denominator_poly) in *.
  replace (tan_angle_error' x)
    with (/ (1 + (N / D)%F x ^ 2)
          * ((peval (pderiv tan_numerator_poly) x * D x
              - peval (pderiv tan_denominator_poly) x * N x) / Rsqr (D x))
          - 1).
  - apply derivable_pt_lim_minus; [|apply derivable_pt_lim_id].
    apply derivable_pt_lim_comp; [|apply derivable_pt_lim_atan].
    apply derivable_pt_lim_div; try apply derivable_pt_lim_peval. lra.
  - unfold tan_angle_error', div_fct, Rsqr, N, D.
    rewrite tan_denominator_is_poly, tan_numerator_is_poly.
    let d := eval vm_compute in (pderiv tan_numerator_poly) in
      change (pderiv tan_numerator_poly) with d.
    let d := eval vm_compute in (pderiv tan_denominator_poly) in
      change (pderiv tan_denominator_poly) with d.
    unfold D in HD. clear N D. revert HD.
    cbv [tan_numerator_poly tan_denominator_poly peval Q2R Qnum Qden].
    intros HD.
    match goal with
    | |- context [(?n / ?d) ^ 2] =>
        set (Nx := n) in *; set (Dx := d) in *
    end.
    assert (HS : 0 < Dx ^ 2 + Nx ^ 2) by nra.
    assert (HS' : 1 + (Nx / Dx) ^ 2 <> 0).
    { apply Rgt_not_eq. pose proof (pow2_ge_0 (Nx / Dx)). lra. }
    unfold Nx, Dx in *.
    field. repeat split; lra.
Qed.

End TanAngle.

Section TanAccuracy.
Local Open Scope R_scope.

Lemma tan_angle_error_decreasing (x y : R) :
  - tan_edge <= x -> x <= y -> y <= tan_edge ->
  tan_angle_error y <= tan_angle_error x.
Proof.
  intros Hx Hxy Hy.
  apply (nonincreasing_on tan_angle_error tan_angle_error' x y); try lra.
  - intros c Hc. apply tan_angle_error_derivative. lra.
  - intros c Hc. unfold tan_angle_error'.
    pose proof (tan_denominator_negative_edge c ltac:(lra)) as HD.
    assert (0 <= c ^ 14).
    { replace (c ^ 14) with ((c ^ 7) ^ 2) by ring. apply pow2_ge_0. }
    assert (Hp : 0 < FMA.tan_denominator (FT := exact) c ^ 2
                     + FMA.tan_numerator (FT := exact) c ^ 2).
    { pose proof (pow2_ge_0 (FMA.tan_numerator (FT := exact) c)).
      assert (0 < FMA.tan_denominator (FT := exact) c ^ 2) by nra. lra. }
    apply Rinv_0_lt_compat in Hp.
    unfold Rdiv. nra.
Qed.

Lemma atan_le_id (z : R) : 0 <= z -> atan z <= z.
Proof.
  intros Hz.
  pose proof (nonincreasing_on (atan - id)%F
                (fun c => / (1 + c ^ 2) - 1) 0 z) as H.
  enough ((atan - id)%F z <= (atan - id)%F 0)
    by (unfold minus_fct, id in *; rewrite atan_0 in *; lra).
  apply H; try lra.
  - intros c _. apply derivable_pt_lim_minus;
      [apply derivable_pt_lim_atan | apply derivable_pt_lim_id].
  - intros c _. pose proof (pow2_ge_0 c).
    assert (/ (1 + c ^ 2) <= / 1) by (apply Rinv_le_contravar; lra).
    rewrite Rinv_1 in *. lra.
Qed.

Lemma tan_numerator_sign (x : R) :
  0 <= x <= 16 / 10 -> FMA.tan_numerator x <= 0.
Proof.
  intros Hx.
  assert (Hb : - (16 / 10) <= x <= 16 / 10) by lra.
  apply square_bound in Hb.
  cbv [FMA.tan_numerator fromZ fadd fmul fopp exact].
  set (y := x * x) in *.
  assert (-135135 + y * (17325 + y * (-378 + y)) < 0) by nra.
  nra.
Qed.

Lemma tan_sign (x : R) :
  0 <= x <= tan_edge -> 0 <= FMA.tan (FT := exact) x.
Proof.
  intros Hx.
  pose proof (tan_denominator_negative_edge x ltac:(lra)) as HD.
  pose proof (tan_numerator_sign x ltac:(unfold tan_edge in *; lra)) as HN.
  change (FMA.tan (FT := exact) x)
    with (FMA.tan_numerator (FT := exact) x
          / FMA.tan_denominator (FT := exact) x).
  set (n := FMA.tan_numerator (FT := exact) x) in *.
  set (d := FMA.tan_denominator (FT := exact) x) in *.
  replace (n / d) with ((- n) / (- d)) by (field; lra).
  apply quotient_lower; lra.
Qed.

Lemma atan_nonneg (z : R) : 0 <= z -> 0 <= atan z.
Proof.
  intros [Hz| <-]; [|rewrite atan_0; lra].
  rewrite <- atan_0. by apply Rlt_le, atan_increasing.
Qed.

Lemma tan_exact_odd (x : R) :
  FMA.tan (FT := exact) (- x) = - FMA.tan (FT := exact) x.
Proof.
  cbv [FMA.tan FMA.tan_numerator FMA.tan_denominator fromZ fadd fmul fopp
       fdiv exact].
  replace (- x * - x) with (x * x) by ring. unfold Rdiv. ring.
Qed.

Lemma tan_angle_error_odd (x : R) :
  tan_angle_error (- x) = - tan_angle_error x.
Proof. rewrite !tan_angle_error_eq, tan_exact_odd, atan_opp. ring. Qed.

Lemma tan_angle_error_edge :
  tan_angle_error 0 = 0 /\ - (27 / 10000000000) <= tan_angle_error tan_edge.
Proof.
  split.
  - rewrite tan_angle_error_eq.
    replace (FMA.tan (FT := exact) 0) with 0; [rewrite atan_0; ring|].
    cbv [FMA.tan FMA.tan_numerator FMA.tan_denominator fromZ fadd fmul fopp
         fdiv exact]. field.
  - rewrite tan_angle_error_eq.
    pose proof (tan_denominator_negative_edge tan_edge
                  ltac:(unfold tan_edge; lra)) as HD.
    assert (HN : FMA.tan_numerator (FT := exact) tan_edge
                 <= 10000000000000 / 26424
                    * FMA.tan_denominator (FT := exact) tan_edge).
    { cbv [FMA.tan_numerator FMA.tan_denominator fromZ fadd fmul fopp exact
           tan_edge]. lra. }
    set (R := FMA.tan (FT := exact) tan_edge).
    assert (HR : 10000000000000 / 26424 <= R).
    { unfold R. change (FMA.tan (FT := exact) tan_edge)
        with (FMA.tan_numerator (FT := exact) tan_edge
              / FMA.tan_denominator (FT := exact) tan_edge).
      set (n := FMA.tan_numerator (FT := exact) tan_edge) in *.
      set (d := FMA.tan_denominator (FT := exact) tan_edge) in *.
      replace (n / d) with ((- n) / (- d)) by (field; lra).
      apply quotient_lower; lra. }
    assert (HiR : 0 < / R <= 26424 / 10000000000000).
    { split; [apply Rinv_0_lt_compat; lra|].
      replace (26424 / 10000000000000) with (/ (10000000000000 / 26424))
        by field.
      apply Rinv_le_contravar; lra. }
    pose proof (atan_inv R ltac:(lra)) as Hinv.
    pose proof (atan_le_id (/ R) ltac:(lra)) as Hle.
    pose proof PI_18_digits as HPI. unfold tan_edge. lra.
Qed.

(** X12.  In exact arithmetic, on the whole documented range
    [-PI/2, PI/2], its two ends included, the approximation of the tangent
    is the tangent of an angle strictly inside (-PI/2, PI/2) that differs
    from the input by at most 2.7e-9 and lies between zero and the
    input. *)
Theorem tan_accuracy (x : R) :
  - PI / 2 <= x <= PI / 2 ->
  exists y : R,
    - PI / 2 < y < PI / 2 /\
    FMA.tan (FT := exact) x = tan y /\
    Rabs (y - x) <= 27 / 10000000000 /\
    (0 <= x -> 0 <= y <= x) /\ (x <= 0 -> x <= y <= 0).
Proof.
  intros Hx. exists (atan (FMA.tan (FT := exact) x)).
  pose proof PI_upper_bound as HPI.
  assert (Hb : - tan_edge <= x <= tan_edge) by (unfold tan_edge; lra).
  pose proof tan_angle_error_edge as [H0 He].
  pose proof (tan_angle_error_odd tan_edge) as Hodd.
  pose proof (tan_angle_error_decreasing (- tan_edge) x
                ltac:(lra) ltac:(lra) ltac:(lra)) as Hl.
  pose proof (tan_angle_error_decreasing x tan_edge
                ltac:(lra) ltac:(lra) ltac:(lra)) as Hu.
  rewrite <- tan_angle_error_eq.
  split_and!.
  - apply atan_bound.
  - apply atan_bound.
  - by rewrite tan_atan.
  - apply Rabs_le. lra.
  - intros Hp.
    pose proof (tan_angle_error_decreasing 0 x
                  ltac:(unfold tan_edge; lra) Hp ltac:(lra)) as H.
    rewrite H0 in H.
    pose proof (atan_nonneg _ (tan_sign x ltac:(lra))).
    rewrite tan_angle_error_eq in *. lra.
  - intros Hn.
    pose proof (tan_angle_error_decreasing x 0
                  ltac:(lra) Hn ltac:(unfold tan_edge; lra)) as H.
    rewrite H0 in H.
    pose proof (atan_nonneg _ (tan_sign (- x) ltac:(lra))) as Hs.
    rewrite tan_exact_odd, atan_opp in Hs.
    rewrite tan_angle_error_eq in *. lra.
Qed.

Lemma tan_accuracy_witness :
  - PI / 2 <= 1 <= PI / 2 /\
  exists y : R,
    - PI / 2 < y < PI / 2 /\
    FMA.tan (FT := exact) 1 = tan y /\
    Rabs (y - 1) <= 27 / 10000000000 /\
    (0 <= 1 -> 0 <= y <= 1) /\ (1 <= 0 -> 1 <= y <= 0).
Proof.
  assert (H : - PI / 2 <= 1 <= PI / 2) by (pose proof PI2_3_2; lra).
  split; [exact H|]. exact (tan_accuracy 1 H).
Defined.

End TanAccuracy.

(** ** Accuracy: [tanh]

    The derivative of [(D x - N x) / (D x + N x) * exp (2 x)] is
    [- 2 x ^ 14 / (D x + N x) ^ 2 * exp (2 x)], which puts the
    approximation above [tanh] for positive inputs.  The error [e] then
    satisfies [e' <= x ^ 14 / D x ^ 2], and [12 / 100 * x ^ 15 / D x ^ 2]
    grows at least as fast on [0, 5]. *)

Section TanhBelow.
Local Open Scope R_scope.

Lemma tanh_numerator_is_poly (x : R) :
  FMA.tanh_numerator x = peval tanh_numerator_poly x.
Proof.
  cbv [FMA.tanh_numerator tanh_numerator_poly peval fromZ fadd
       fmul fopp exact Q2R Qnum Qden inject_Z]. field.
Qed.

Lemma tanh_denominator_is_poly (x : R) :
  FMA.tanh_denominator x = peval tanh_denominator_poly x.
Proof.
  cbv [FMA.tanh_denominator tanh_denominator_poly peval fromZ
       fadd fmul fopp exact Q2R Qnum Qden inject_Z]. field.
Qed.

Lemma tanh_sum_is_poly (x : R) :
  peval tanh_sum_poly x = FMA.tanh_denominator x + FMA.tanh_numerator x.
Proof.
  cbv [FMA.tanh_denominator FMA.tanh_numerator tanh_sum_poly peval fromZ
       fadd fmul fopp exact Q2R Qnum Qden inject_Z]. field.
Qed.

Lemma tanh_difference_is_poly (x : R) :
  peval tanh_difference_poly x
  = FMA.tanh_denominator x - FMA.tanh_numerator x.
Proof.
  cbv [FMA.tanh_denominator FMA.tanh_numerator tanh_difference_poly peval
       fromZ fadd fmul fopp exact Q2R Qnum Qden inject_Z]. field.
Qed.

Lemma tanh_sum_positive (x : R) : 0 <= x -> 0 < peval tanh_sum_poly x.
Proof.
  intros Hx. cbv [tanh_sum_poly peval Q2R Qnum Qden].
  assert (H : 0 <= x * (135135 * / 1 + x * (62370 * / 1 + x * (17325 * / 1
                 + x * (3150 * / 1 + x * (378 * / 1 + x * (28 * / 1
                 + x * (1 * / 1 + x * 0)))))))).
  { repeat (apply Rmult_le_pos; [lra|];
            apply Rplus_le_le_0_compat; [lra|]).
    lra. }
  lra.
Qed.

Lemma tanh_ratio_derivative (x : R) :
  0 <= x -> derivable_pt_lim tanh_ratio x (tanh_ratio' x).
Proof.
  intros Hx. pose proof (tanh_sum_positive x Hx) as HA.
  set (A := peval tanh_sum_poly) in *.
  set (B := peval tanh_difference_poly) in *.
  replace (tanh_ratio' x)
    with ((peval (pderiv tanh_difference_poly) x * A x
           - peval (pderiv tanh_sum_poly) x * B x) / Rsqr (A x)
          * comp exp (mult_real_fct 2 id) x
          + (B / A)%F x * (exp (mult_real_fct 2 id x) * (2 * 1))).
  - apply derivable_pt_lim_mult.
    + apply derivable_pt_lim_div; try apply derivable_pt_lim_peval. lra.
    + apply derivable_pt_lim_comp; [|apply derivable_pt_lim_exp].
      apply derivable_pt_lim_scal, derivable_pt_lim_id.
  - unfold tanh_ratio', comp, mult_real_fct, div_fct, id, Rsqr, A, B.
    let d := eval vm_compute in (pderiv tanh_sum_poly) in
      change (pderiv tanh_sum_poly) with d.
    let d := eval vm_compute in (pderiv tanh_difference_poly) in
      change (pderiv tanh_difference_poly) with d.
    generalize (exp (2 * x)). intros E.
    unfold A in HA. clear A B. revert HA.
    cbv [tanh_sum_poly tanh_difference_poly peval Q2R Qnum Qden].
    intros HA. field. lra.
Qed.

Lemma tanh_ratio_decreasing (x y : R) :
  0 <= x -> x <= y -> tanh_ratio y <= tanh_ratio x.
Proof.
  intros Hx Hxy.
  apply (nonincreasing_on tanh_ratio tanh_ratio' x y); try lra.
  - intros c Hc. apply tanh_ratio_derivative. lra.
  - intros c Hc. unfold tanh_ratio'.
    pose proof (tanh_sum_positive c ltac:(lra)) as HA.
    pose proof (exp_pos (2 * c)) as HE.
    assert (0 <= c ^ 14).
    { replace (c ^ 14) with ((c ^ 7) ^ 2) by ring. apply pow2_ge_0. }
    assert (0 < / peval tanh_sum_poly c ^ 2).
    { apply Rinv_0_lt_compat. apply pow_lt, HA. }
    assert (0 <= 2 * c ^ 14 * / peval tanh_sum_poly c ^ 2 * exp (2 * c)).
    { apply Rmult_le_pos; [apply Rmult_le_pos|]; lra. }
    unfold Rdiv. lra.
Qed.

Lemma tanh_exp (x : R) : tanh x = (exp (2 * x) - 1) / (exp (2 * x) + 1).
Proof.
  unfold tanh, sinh, cosh.
  replace (2 * x) with (x + x) by ring. rewrite exp_plus, exp_Ropp.
  pose proof (exp_pos x). field. nra.
Qed.

(** The approximation of [tanh] is not below [tanh] on the positive side. *)
Lemma tanh_below (x : R) : 0 <= x -> tanh x <= FMA.tanh (FT := exact) x.
Proof.
  intros Hx. pose proof (tanh_ratio_decreasing 0 x ltac:(lra) Hx) as H.
  unfold tanh_ratio, mult_fct, div_fct, comp, mult_real_fct, id in H.
  pose proof (tanh_sum_positive x Hx) as HA.
  pose proof (tanh_sum_positive 0 ltac:(lra)) as HA0.
  rewrite Rmult_0_r, exp_0 in H.
  replace (peval tanh_difference_poly 0 / peval tanh_sum_poly 0 * 1)
    with 1 in H
    by (cbv [tanh_difference_poly tanh_sum_poly peval Q2R Qnum Qden]; field).
  rewrite tanh_exp.
  pose proof (exp_pos (2 * x)) as HE.
  pose proof (tanh_denominator_positive x) as HD.
  rewrite tanh_sum_is_poly in *. rewrite tanh_difference_is_poly in *.
  change (FMA.tanh (FT := exact) x)
    with (FMA.tanh_numerator (FT := exact) x
          / FMA.tanh_denominator (FT := exact) x).
  set (n := FMA.tanh_numerator (FT := exact) x) in *.
  set (d := FMA.tanh_denominator (FT := exact) x) in *.
  set (E := exp (2 * x)) in *.
  assert (H' : (d - n) * E <= d + n).
  { apply (Rmult_le_compat_r (d + n)) in H; [|lra].
    replace ((d - n) / (d + n) * E * (d + n)) with ((d - n) * E) in H
      by (field; lra). lra. }
  apply quotient_upper; [lra|].
  replace (n / d * (E + 1)) with ((n * E + n) / d) by (field; lra).
  apply quotient_lower; lra.
Qed.

End TanhBelow.

Section TanhSlack.
Local Open Scope R_scope.

Lemma cosh_positive (x : R) : 0 < cosh x.
Proof.
  unfold cosh. pose proof (exp_pos x). pose proof (exp_pos (- x)). lra.
Qed.

Lemma tanh_nonneg (x : R) : 0 <= x -> 0 <= tanh x.
Proof.
  intros Hx. rewrite tanh_exp.
  assert (1 <= exp (2 * x)).
  { rewrite <- exp_0. destruct (Req_dec 0 (2 * x)) as [<-|Hne]; [lra|].
    apply Rlt_le, exp_increasing. lra. }
  apply quotient_lower; lra.
Qed.

Lemma tanh_denominator_square_is_poly (x : R) :
  peval tanh_denominator_square_poly x = FMA.tanh_denominator x ^ 2.
Proof.
  unfold tanh_denominator_square_poly.
  rewrite peval_pmul, <- tanh_denominator_is_poly. ring.
Qed.

Lemma tanh_bound_is_poly (x : R) :
  peval tanh_bound_poly x = 12 / 100 * x ^ 15.
Proof.
  unfold tanh_bound_poly. rewrite peval_pmono. unfold Q2R. cbn [Qnum Qden]. lra.
Qed.

Lemma tanh_slack_eq (x : R) :
  tanh_slack x = tanh_error_bound x - FMA.tanh (FT := exact) x + tanh x.
Proof.
  unfold tanh_slack, tanh_error_bound, plus_fct, minus_fct, div_fct.
  rewrite tanh_bound_is_poly, tanh_denominator_square_is_poly,
    <- tanh_numerator_is_poly, <- tanh_denominator_is_poly.
  reflexivity.
Qed.

Lemma tanh_slack_derivative (x : R) :
  derivable_pt_lim tanh_slack x (tanh_slack' x).
Proof.
  pose proof (tanh_denominator_positive x) as HD.
  assert (HD2 : 0 < peval tanh_denominator_square_poly x).
  { rewrite tanh_denominator_square_is_poly. by apply pow_lt. }
  rewrite tanh_denominator_is_poly in HD.
  pose proof (cosh_positive x).
  apply derivable_pt_lim_plus; [apply derivable_pt_lim_minus|];
    apply derivable_pt_lim_div;
    try apply derivable_pt_lim_peval;
    try apply derivable_pt_lim_sinh; try apply derivable_pt_lim_cosh; lra.
Qed.

(** The rational part of the derivative. *)
Lemma tanh_slack_derivative_value (x : R) :
  let d := FMA.tanh_denominator (FT := exact) x in
  let r := FMA.tanh (FT := exact) x in
  let y := x * x in
  tanh_slack' x
  = x ^ 14 * ((5405400 + y * (997920 + y * (-25200 + y * (-896)))) / 50)
    / d ^ 3
    + (r ^ 2 - tanh x ^ 2).
Proof.
  intros d r y. unfold tanh_slack', tanh.
  pose proof (cosh_positive x) as Hc.
  pose proof (tanh_denominator_positive x) as HD. fold d in HD.
  replace ((cosh x * cosh x - sinh x * sinh x) / Rsqr (cosh x))
    with (1 - (sinh x / cosh x) ^ 2) by (unfold Rsqr; field; lra).
  generalize (sinh x / cosh x). intros t.
  assert (HD2 : 0 < peval tanh_denominator_square_poly x).
  { rewrite tanh_denominator_square_is_poly. by apply pow_lt. }
  unfold r, d, y in *. clear r d y. revert HD HD2.
  let p := eval vm_compute in (pderiv tanh_bound_poly) in
    change (pderiv tanh_bound_poly) with p.
  let p := eval vm_compute in (pderiv tanh_denominator_square_poly) in
    change (pderiv tanh_denominator_square_poly) with p.
  let p := eval vm_compute in (pderiv tanh_numerator_poly) in
    change (pderiv tanh_numerator_poly) with p.
  let p := eval vm_compute in (pderiv tanh_denominator_poly) in
    change (pderiv tanh_denominator_poly) with p.
  let p := eval vm_compute in tanh_bound_poly in
    change tanh_bound_poly with p.
  let p := eval vm_compute in tanh_denominator_square_poly in
    change tanh_denominator_square_poly with p.
  cbv [FMA.tanh FMA.tanh_numerator FMA.tanh_denominator fromZ fadd fmul fopp
       fdiv exact tanh_numerator_poly tanh_denominator_poly peval Q2R Qnum
       Qden Rsqr].
  intros HD HD2. field. repeat split; lra.
Qed.

End TanhSlack.

Section TanhAccuracy.
Local Open Scope R_scope.

Lemma tanh_slack_nondecreasing (x y : R) :
  0 <= x -> x <= y -> y <= 5 -> tanh_slack x <= tanh_slack y.
Proof.
  intros Hx Hxy Hy.
  apply (nondecreasing_on tanh_slack tanh_slack' x y); try lra.
  - intros c _. apply tanh_slack_derivative.
  - intros c Hc. rewrite tanh_slack_derivative_value. cbv zeta.
    pose proof (tanh_denominator_positive c) as HD.
    pose proof (tanh_nonneg c ltac:(lra)) as Ht.
    pose proof (tanh_below c ltac:(lra)) as Hr.
    assert (0 <= FMA.tanh (FT := exact) c ^ 2 - tanh c ^ 2) by nra.
    assert (0 <= c ^ 14).
    { replace (c ^ 14) with ((c ^ 7) ^ 2) by ring. apply pow2_ge_0. }
    set (y' := c * c).
    assert (Hy' : 0 <= y' <= 25) by (unfold y'; nra).
    assert (0 <= 5405400 + y' * (997920 + y' * (-25200 + y' * -896))).
    { assert (0 <= 25200 + y' * 896 <= 47600) by nra.
      assert (y' * (25200 + y' * 896) <= 25 * 47600) by nra.
      nra. }
    assert (0 < / FMA.tanh_denominator (FT := exact) c ^ 3).
    { apply Rinv_0_lt_compat, pow_lt, HD. }
    assert (0 <= c ^ 14
                 * ((5405400 + y' * (997920 + y' * (-25200 + y' * -896))) / 50)
                 / FMA.tanh_denominator (FT := exact) c ^ 3).
    { unfold Rdiv. apply Rmult_le_pos; [apply Rmult_le_pos|]; lra. }
    lra.
Qed.

Lemma tanh_above (x : R) :
  0 <= x <= 5 -> FMA.tanh (FT := exact) x - tanh x <= tanh_error_bound x.
Proof.
  intros Hx.
  pose proof (tanh_slack_nondecreasing 0 x ltac:(lra) ltac:(lra) ltac:(lra))
    as H.
  rewrite !tanh_slack_eq in H.
  replace (tanh_error_bound 0) with 0 in H
    by (unfold tanh_error_bound; cbv [FMA.tanh_denominator fromZ fadd fmul
          exact]; field).
  replace (FMA.tanh (FT := exact) 0) with 0 in H
    by (cbv [FMA.tanh FMA.tanh_numerator FMA.tanh_denominator fromZ fadd fmul
          fdiv exact]; field).
  replace (tanh 0) with 0 in H.
  - lra.
  - unfold tanh. rewrite sinh_0, cosh_0. field.
Qed.

Lemma tanh_error_bound_le (c h : Q) (x : R) :
  positive_on 30 (psub (pscale c tanh_denominator_square_poly)
                    tanh_bound_poly) 0 h = true ->
  0 <= x <= Q2R h -> tanh_error_bound x <= Q2R c.
Proof.
  intros Hc Hx.
  pose proof (positive_on_sound _ _ _ _ x Hc ltac:(rewrite Q2R_0; lra)) as Hp.
  rewrite peval_psub, peval_pscale, tanh_bound_is_poly,
    tanh_denominator_square_is_poly in Hp.
  unfold tanh_error_bound.
  pose proof (tanh_denominator_positive x) as HD.
  apply quotient_upper; [by apply pow_lt | lra].
Qed.

Lemma tanh_exact_odd (x : R) :
  FMA.tanh (FT := exact) (- x) = - FMA.tanh (FT := exact) x.
Proof.
  cbv [FMA.tanh FMA.tanh_numerator FMA.tanh_denominator fromZ fadd fmul fopp
       fdiv exact].
  replace (- x * - x) with (x * x) by ring. unfold Rdiv. ring.
Qed.

Lemma tanh_odd (x : R) : tanh (- x) = - tanh x.
Proof.
  unfold tanh, sinh, cosh. rewrite Ropp_involutive.
  pose proof (exp_pos x). pose proof (exp_pos (- x)). field. lra.
Qed.

Lemma tanh_error_nonneg_input (c h : Q) (x : R) :
  positive_on 30 (psub (pscale c tanh_denominator_square_poly)
                    tanh_bound_poly) 0 h = true ->
  Q2R h <= 5 -> 0 <= x <= Q2R h ->
  0 <= FMA.tanh (FT := exact) x - tanh x <= Q2R c.
Proof.
  intros Hc Hh Hx.
  pose proof (tanh_below x ltac:(lra)).
  pose proof (tanh_above x ltac:(lra)).
  pose proof (tanh_error_bound_le c h x Hc Hx). lra.
Qed.

Lemma tanh_error_symmetric (c h : Q) (x : R) :
  positive_on 30 (psub (pscale c tanh_denominator_square_poly)
                    tanh_bound_poly) 0 h = true ->
  Q2R h <= 5 -> - Q2R h <= x <= Q2R h ->
  Rabs (FMA.tanh (FT := exact) x - tanh x) <= Q2R c.
Proof.
  intros Hc Hh Hx. apply Rabs_le.
  destruct (Rle_dec 0 x) as [Hp|Hn].
  - pose proof (tanh_error_nonneg_input c h x Hc Hh ltac:(lra)). lra.
  - pose proof (tanh_error_nonneg_input c h (- x) Hc Hh ltac:(lra)) as H.
    rewrite tanh_exact_odd, tanh_odd in H. lra.
Qed.

(** X17.  In exact arithmetic the approximation of [tanh] is within 2.2e-4
    of [tanh] on the documented range [-5, 5], within 2e-6 on [-3, 3] and
    within 3e-12 on [-1, 1]; at every real input it lies on the side of
    [tanh] away from zero. *)
Theorem tanh_accuracy (x : R) :
  (-5 <= x <= 5 ->
     Rabs (FMA.tanh (FT := exact) x - tanh x) <= 22 / 100000) /\
  (-3 <= x <= 3 ->
     Rabs (FMA.tanh (FT := exact) x - tanh x) <= 2 / 1000000) /\
  (-1 <= x <= 1 ->
     Rabs (FMA.tanh (FT := exact) x - tanh x) <= 3 / 1000000000000) /\
  (0 <= x -> tanh x <= FMA.tanh (FT := exact) x) /\
  (x <= 0 -> FMA.tanh (FT := exact) x <= tanh x).
Proof.
  split_and!.
  - intros Hx.
    pose proof (tanh_error_symmetric (Qmake 22 100000) 5 x
                  ltac:(by vm_compute)) as H.
    replace (Q2R 5) with 5 in H by (unfold Q2R; simpl; lra).
    replace (Q2R (Qmake 22 100000)) with (22 / 100000) in H
      by (unfold Q2R; simpl; lra).
    apply H; lra.
  - intros Hx.
    pose proof (tanh_error_symmetric (Qmake 2 1000000) 3 x
                  ltac:(by vm_compute)) as H.
    replace (Q2R 3) with 3 in H by (unfold Q2R; simpl; lra).
    replace (Q2R (Qmake 2 1000000)) with (2 / 1000000) in H
      by (unfold Q2R; simpl; lra).
    apply H; lra.
  - intros Hx.
    pose proof (tanh_error_symmetric (Qmake 3 1000000000000) 1 x
                  ltac:(by vm_compute)) as H.
    replace (Q2R 1) with 1 in H by (unfold Q2R; simpl; lra).
    replace (Q2R (Qmake 3 1000000000000)) with (3 / 1000000000000) in H
      by (unfold Q2R; simpl; lra).
    apply H; lra.
  - apply tanh_below.
  - intros Hx. pose proof (tanh_below (- x) ltac:(lra)) as H.
    rewrite tanh_exact_odd, tanh_odd in H. lra.
Qed.

Lemma tanh_accuracy_witness :
  -5 <= 1 <= 5 /\
  Rabs (FMA.tanh (FT := exact) 1 - tanh 1) <= 22 / 100000.
Proof.
  assert (H : -5 <= 1 <= 5) by lra.
  split; [exact H|]. exact (proj1 (tanh_accuracy 1) H).
Defined.

End TanhAccuracy.

(** ** Accuracy: [sinh], and [cosh] again

    The derivative of [arcsinh (N x / D x) - x] is not negative on [0, 5]:
    the argument whose hyperbolic sine the approximation returns runs ahead
    of the input, by an amount that is largest at the end of the range.
    For [cosh], [cosh x ^ 2 = 1 + sinh x ^ 2] and the approximation of
    [sinh] is above [sinh]. *)

Section SinhArgument.
Local Open Scope R_scope.

Lemma sinh_numerator_is_poly (x : R) :
  FMA.sinh_numerator x = peval sinh_numerator_poly x.
Proof.
  cbv [FMA.sinh_numerator sinh_numerator_poly peval fromZ fadd
       fmul fopp exact Q2R Qnum Qden inject_Z]. field.
Qed.

Lemma sinh_denominator_is_poly (x : R) :
  FMA.sinh_denominator x = peval sinh_denominator_poly x.
Proof.
  cbv [FMA.sinh_denominator sinh_denominator_poly peval fromZ
       fadd fmul fopp exact Q2R Qnum Qden inject_Z]. field.
Qed.

Lemma sinh_argument_error_eq (x : R) :
  sinh_argument_error x = arcsinh (FMA.sinh (FT := exact) x) - x.
Proof.
  unfold sinh_argument_error, minus_fct, div_fct, comp, id.
  rewrite <- sinh_numerator_is_poly, <- sinh_denominator_is_poly.
  reflexivity.
Qed.

Lemma sinh_argument_error_derivative (x : R) :
  -5 <= x <= 5 ->
  derivable_pt_lim sinh_argument_error x (sinh_argument_error' x).
Proof.
  intros Hx. pose proof (sinh_denominator_negative x Hx) as HD.
  rewrite sinh_denominator_is_poly in HD.
  unfold sinh_argument_error', sinh_slope_poly.
  rewrite peval_psub, !peval_pmul.
  apply derivable_pt_lim_minus; [|apply derivable_pt_lim_id].
  apply (derivable_pt_lim_comp
           (peval sinh_numerator_poly / peval sinh_denominator_poly)%F
           arcsinh); [|apply derivable_pt_lim_arcsinh].
  apply derivable_pt_lim_div; try apply derivable_pt_lim_peval. lra.
Qed.

Lemma sqrt_below (a b : R) : 0 <= a -> 0 <= b -> a <= b ^ 2 -> sqrt a <= b.
Proof.
  intros Ha Hb H. rewrite <- (sqrt_pow2 b Hb). by apply sqrt_le_1_alt.
Qed.

Lemma sinh_argument_error_slope (x : R) :
  0 <= x <= 5 -> 0 <= sinh_argument_error' x.
Proof.
  intros Hx. pose proof (sinh_denominator_negative x ltac:(lra)) as HD.
  rewrite sinh_denominator_is_poly in HD.
  assert (HW : 0 < peval sinh_slope_poly x).
  { apply (positive_on_sound 20 _ 0%Q 5%Q); [by vm_compute|].
    rewrite Q2R_0. replace (Q2R 5) with 5 by (unfold Q2R; simpl; lra). lra. }
  assert (HP : 0 <= peval sinh_growth_poly x).
  { rewrite (peval_low_zero 14) by (by vm_compute).
    apply Rmult_le_pos.
    - replace (x ^ 14) with ((x ^ 7) ^ 2) by ring. apply pow2_ge_0.
    - apply Rlt_le.
      apply (positive_on_sound 20 _ 0%Q 5%Q); [by vm_compute|].
      rewrite Q2R_0. replace (Q2R 5) with 5 by (unfold Q2R; simpl; lra).
      lra. }
  unfold sinh_growth_poly in HP.
  rewrite peval_psub, !peval_pmul, peval_padd, !peval_pmul in HP.
  unfold sinh_argument_error'.
  set (n := peval sinh_numerator_poly x) in *.
  set (d := peval sinh_denominator_poly x) in *.
  set (w := peval sinh_slope_poly x) in *.
  assert (Hd2 : 0 < d * d) by nra.
  assert (Hs : 0 < (n / d) ^ 2 + 1) by (pose proof (pow2_ge_0 (n / d)); lra).
  assert (Hq : 0 < w / Rsqr d).
  { unfold Rsqr, Rdiv. apply Rmult_lt_0_compat; [lra|].
    by apply Rinv_0_lt_compat. }
  assert (Hle : sqrt ((n / d) ^ 2 + 1) <= w / Rsqr d).
  { apply sqrt_below; [lra..|].
    replace ((n / d) ^ 2 + 1) with ((d * d * (n * n + d * d)) / (d * d) ^ 2)
      by (field; lra).
    replace ((w / Rsqr d) ^ 2) with ((w * w) / (d * d) ^ 2)
      by (unfold Rsqr; field; lra).
    assert (0 < / (d * d) ^ 2) by (apply Rinv_0_lt_compat, pow_lt, Hd2).
    unfold Rdiv. apply Rmult_le_compat_r; lra. }
  assert (Hsq : 0 < sqrt ((n / d) ^ 2 + 1)) by (by apply sqrt_lt_R0).
  enough (1 <= (w / Rsqr d) * / sqrt ((n / d) ^ 2 + 1)) by lra.
  fold (Rdiv (w / Rsqr d) (sqrt ((n / d) ^ 2 + 1))).
  apply quotient_lower; lra.
Qed.

Lemma sinh_argument_error_nondecreasing (x y : R) :
  0 <= x -> x <= y -> y <= 5 ->
  sinh_argument_error x <= sinh_argument_error y.
Proof.
  intros Hx Hxy Hy.
  apply (nondecreasing_on sinh_argument_error sinh_argument_error' x y);
    try lra.
  - intros c Hc. apply sinh_argument_error_derivative. lra.
  - intros c Hc. apply sinh_argument_error_slope. lra.
Qed.

End SinhArgument.

Section SinhAccuracy.
Local Open Scope R_scope.

Lemma sinh_below_sound (k n : nat) (q c : Q) :
  exp_neg_bounds_ok k n q = true ->
  Qle_bool c (sinh_below k n q) = true ->
  Q2R c <= sinh (Q2R q).
Proof.
  intros Hok Hc. apply Qle_bool_iff, Qle_Rle in Hc.
  pose proof (exp_neg_bounds k n q Hok) as [_ Hu].
  pose proof (exp_pos (- Q2R q)) as He.
  unfold sinh_below in Hc. cbv zeta in Hc.
  set (u := exp_neg_above k n q) in *.
  assert (Hu0 : ~ (u == 0)%Q).
  { intros Hz. apply Qeq_eqR in Hz. rewrite Q2R_0 in Hz. lra. }
  rewrite Q2R_div, Q2R_minus, Q2R_inv in Hc by (done || by vm_compute).
  replace (Q2R 2) with 2 in Hc by (unfold Q2R; simpl; lra).
  unfold sinh. rewrite exp_Ropp in *.
  pose proof (exp_pos (Q2R q)) as Hp.
  assert (/ Q2R u <= exp (Q2R q)).
  { rewrite <- (Rinv_inv (exp (Q2R q))). apply Rinv_le_contravar; lra. }
  lra.
Qed.

Lemma sinh_opp (x : R) : sinh (- x) = - sinh x.
Proof. unfold sinh. rewrite Ropp_involutive. lra. Qed.

Lemma sinh_exact_odd (x : R) :
  FMA.sinh (FT := exact) (- x) = - FMA.sinh (FT := exact) x.
Proof.
  cbv [FMA.sinh FMA.sinh_numerator FMA.sinh_denominator fromZ fadd fmul fopp
       fdiv exact].
  replace (- x * - x) with (x * x) by ring. unfold Rdiv. ring.
Qed.

Lemma sinh_argument_error_0 : sinh_argument_error 0 = 0.
Proof.
  rewrite sinh_argument_error_eq.
  replace (FMA.sinh (FT := exact) 0) with 0.
  - rewrite arcsinh_0. ring.
  - cbv [FMA.sinh FMA.sinh_numerator FMA.sinh_denominator fromZ fadd fmul
         fopp fdiv exact]. field.
Qed.

Lemma sinh_argument_error_at (q e : Q) (k n : nat) :
  exp_neg_bounds_ok k n (q + e) = true ->
  Qle_bool (qeval sinh_numerator_poly q / qeval sinh_denominator_poly q)
           (sinh_below k n (q + e)) = true ->
  -5 <= Q2R q <= 5 ->
  sinh_argument_error (Q2R q) <= Q2R e.
Proof.
  intros Hok Hc Hq.
  pose proof (sinh_below_sound k n _ _ Hok Hc) as H.
  pose proof (sinh_denominator_negative _ Hq) as HD.
  rewrite sinh_denominator_is_poly, peval_qeval in HD.
  rewrite Q2R_div, <- !peval_qeval in H.
  2:{ intros Hz. apply Qeq_eqR in Hz. rewrite Q2R_0 in Hz. lra. }
  rewrite sinh_argument_error_eq.
  change (FMA.sinh (FT := exact) (Q2R q))
    with (FMA.sinh_numerator (FT := exact) (Q2R q)
          / FMA.sinh_denominator (FT := exact) (Q2R q)).
  rewrite sinh_numerator_is_poly, sinh_denominator_is_poly.
  apply arcsinh_le in H. rewrite arcsinh_sinh, Q2R_plus in H. lra.
Qed.

Lemma sinh_argument_error_nonneg_input (q e : Q) (k n : nat) (x : R) :
  exp_neg_bounds_ok k n (q + e) = true ->
  Qle_bool (qeval sinh_numerator_poly q / qeval sinh_denominator_poly q)
           (sinh_below k n (q + e)) = true ->
  Q2R q <= 5 -> 0 <= x <= Q2R q ->
  0 <= sinh_argument_error x <= Q2R e.
Proof.
  intros Hok Hc Hq Hx.
  pose proof (sinh_argument_error_at q e k n Hok Hc ltac:(lra)).
  pose proof (sinh_argument_error_nondecreasing 0 x
                ltac:(lra) ltac:(lra) ltac:(lra)) as H0.
  pose proof (sinh_argument_error_nondecreasing x (Q2R q)
                ltac:(lra) ltac:(lra) ltac:(lra)).
  rewrite sinh_argument_error_0 in H0. lra.
Qed.

(** X19.  In exact arithmetic, on the documented range [-5, 5] the
    approximation of [sinh] is the hyperbolic sine of an argument that
    differs from the input by at most 7.2e-4, away from zero; by at most
    1.3e-6 on [-3, 3] and 5e-13 on [-1, 1]. *)
Theorem sinh_accuracy (x : R) :
  -5 <= x <= 5 ->
  exists y : R,
    FMA.sinh (FT := exact) x = sinh y /\
    Rabs (y - x) <= 72 / 100000 /\
    (-3 <= x <= 3 -> Rabs (y - x) <= 13 / 10000000) /\
    (-1 <= x <= 1 -> Rabs (y - x) <= 5 / 10000000000000) /\
    (0 <= x -> x <= y) /\ (x <= 0 -> y <= x).
Proof.
  intros Hx.
  assert (Q5 : Q2R 5 = 5) by (unfold Q2R; simpl; lra).
  assert (Q3 : Q2R 3 = 3) by (unfold Q2R; simpl; lra).
  pose proof (sinh_argument_error_nonneg_input 5 (Qmake 72 100000) 6 7
                (Rabs x) ltac:(by vm_compute) ltac:(by vm_compute)) as H5.
  pose proof (sinh_argument_error_nonneg_input 3 (Qmake 13 10000000) 4 7
                (Rabs x) ltac:(by vm_compute) ltac:(by vm_compute)) as H3.
  pose proof (sinh_argument_error_nonneg_input 1 (Qmake 5 10000000000000) 2 7
                (Rabs x) ltac:(by vm_compute) ltac:(by vm_compute)) as H1.
  rewrite ?Q5, ?Q3, ?Q2R_1 in *.
  replace (Q2R (Qmake 72 100000)) with (72 / 100000) in *
    by (unfold Q2R; simpl; lra).
  replace (Q2R (Qmake 13 10000000)) with (13 / 10000000) in *
    by (unfold Q2R; simpl; lra).
  replace (Q2R (Qmake 5 10000000000000)) with (5 / 10000000000000) in *
    by (unfold Q2R; simpl; lra).
  rewrite sinh_argument_error_eq in *.
  specialize (H5 ltac:(lra)). specialize (H3 ltac:(lra)).
  specialize (H1 ltac:(lra)).
  destruct (Rle_dec 0 x) as [Hp|Hn].
  - rewrite (Rabs_pos_eq x Hp) in *.
    exists (arcsinh (FMA.sinh (FT := exact) x)).
    split; [by rewrite sinh_arcsinh|].
    specialize (H5 ltac:(lra)).
    split_and!.
    + apply Rabs_le; lra.
    + intros Hx'. specialize (H3 ltac:(lra)). apply Rabs_le; lra.
    + intros Hx'. specialize (H1 ltac:(lra)). apply Rabs_le; lra.
    + lra.
    + intros Hx'. pose proof sinh_argument_error_0 as E.
      rewrite sinh_argument_error_eq in E.
      replace x with 0 by lra. lra.
  - rewrite (Rabs_left x ltac:(lra)) in *.
    exists (- arcsinh (FMA.sinh (FT := exact) (- x))).
    split; [rewrite sinh_opp, sinh_arcsinh, sinh_exact_odd; ring|].
    specialize (H5 ltac:(lra)).
    split_and!.
    + apply Rabs_le; lra.
    + intros Hx'. specialize (H3 ltac:(lra)). apply Rabs_le; lra.
    + intros Hx'. specialize (H1 ltac:(lra)). apply Rabs_le; lra.
    + lra.
    + lra.
Qed.

Lemma sinh_accuracy_witness :
  -5 <= 1 <= 5 /\
  exists y : R,
    FMA.sinh (FT := exact) 1 = sinh y /\
    Rabs (y - 1) <= 72 / 100000 /\
    (-3 <= 1 <= 3 -> Rabs (y - 1) <= 13 / 10000000) /\
    (-1 <= 1 <= 1 -> Rabs (y - 1) <= 5 / 10000000000000) /\
    (0 <= 1 -> 1 <= y) /\ (1 <= 0 -> y <= 1).
Proof.
  assert (H : -5 <= 1 <= 5) by lra.
  split; [exact H|]. exact (sinh_accuracy 1 H).
Defined.

End SinhAccuracy.

Section CoshExcess.
Local Open Scope R_scope.

Lemma cosh_numerator_is_poly (x : R) :
  FMA.cosh_numerator x = peval cosh_numerator_poly x.
Proof.
  cbv [FMA.cosh_numerator cosh_numerator_poly peval fromZ fadd
       fmul fopp exact Q2R Qnum Qden inject_Z]. field.
Qed.

Lemma cosh_denominator_is_poly (x : R) :
  FMA.cosh_denominator x = peval cosh_denominator_poly x.
Proof.
  cbv [FMA.cosh_denominator cosh_denominator_poly peval fromZ
       fadd fmul fopp exact Q2R Qnum Qden inject_Z]. field.
Qed.

Lemma cosh_sinh_square (x : R) : cosh x ^ 2 = 1 + sinh x ^ 2.
Proof.
  unfold cosh, sinh. pose proof (exp_pos x).
  assert (exp x * exp (- x) = 1) by (rewrite exp_Ropp; field; lra).
  nra.
Qed.

Lemma sinh_nonneg (x : R) : 0 <= x -> 0 <= sinh x.
Proof.
  intros [Hx| <-]; [|rewrite sinh_0; lra].
  rewrite <- sinh_0. by apply Rlt_le, sinh_lt.
Qed.

Lemma sinh_below_approximation (x : R) :
  0 <= x <= 5 -> 0 <= sinh x <= FMA.sinh (FT := exact) x.
Proof.
  intros Hx. split; [apply sinh_nonneg; lra|].
  pose proof (sinh_argument_error_nondecreasing 0 x
                ltac:(lra) ltac:(lra) ltac:(lra)) as H.
  rewrite sinh_argument_error_0, sinh_argument_error_eq in H.
  rewrite <- (sinh_arcsinh (FMA.sinh (FT := exact) x)).
  destruct (Req_dec x (arcsinh (FMA.sinh (FT := exact) x))) as [<-|Hne];
    [lra|].
  apply Rlt_le, sinh_lt. lra.
Qed.

Lemma cosh_error_nonneg_input (x : R) :
  0 <= x <= 5 -> x ^ 2 / 2 <= FMA.cosh (FT := exact) x - cosh x.
Proof.
  intros Hx.
  pose proof (sinh_below_approximation x Hx) as [Hs0 Hs].
  pose proof (cosh_sinh_square x) as Hcs.
  pose proof (cosh_positive x) as Hc.
  pose proof (cosh_denominator_negative x ltac:(lra)) as HDc.
  pose proof (sinh_denominator_negative x ltac:(lra)) as HDs.
  assert (HM : 0 <= peval cosh_margin_poly x).
  { rewrite (peval_low_zero 2) by (by vm_compute).
    apply Rmult_le_pos; [apply pow2_ge_0|]. apply Rlt_le.
    apply (positive_on_sound 20 _ 0%Q 5%Q); [by vm_compute|].
    rewrite Q2R_0. replace (Q2R 5) with 5 by (unfold Q2R; simpl; lra). lra. }
  assert (HE : 0 < peval cosh_excess_poly x).
  { apply (positive_on_sound 20 _ 0%Q 5%Q); [by vm_compute|].
    rewrite Q2R_0. replace (Q2R 5) with 5 by (unfold Q2R; simpl; lra). lra. }
  unfold cosh_margin_poly in HM. unfold cosh_excess_poly in HM, HE.
  repeat (progress rewrite ?peval_psub, ?peval_pmul, ?peval_pmono in HM).
  repeat (progress rewrite ?peval_psub, ?peval_pmul, ?peval_pmono in HE).
  replace (Q2R (Qmake 1 2)) with (/ 2) in * by (unfold Q2R; simpl; lra).
  rewrite <- cosh_numerator_is_poly, <- cosh_denominator_is_poly in *.
  rewrite <- sinh_numerator_is_poly, <- sinh_denominator_is_poly in *.
  change (FMA.cosh (FT := exact) x)
    with (FMA.cosh_numerator (FT := exact) x
          / FMA.cosh_denominator (FT := exact) x).
  change (FMA.sinh (FT := exact) x)
    with (FMA.sinh_numerator (FT := exact) x
          / FMA.sinh_denominator (FT := exact) x) in Hs.
  set (nc := FMA.cosh_numerator (FT := exact) x) in *.
  set (dc := FMA.cosh_denominator (FT := exact) x) in *.
  set (ns := FMA.sinh_numerator (FT := exact) x) in *.
  set (ds := FMA.sinh_denominator (FT := exact) x) in *.
  set (g := nc / dc - x ^ 2 / 2).
  assert (Hg : g = (/ 2 * x ^ 2 * dc - nc) / (- dc)) by (unfold g; field; lra).
  assert (Hg0 : 0 < g).
  { rewrite Hg. apply Rmult_lt_0_compat; [lra|].
    apply Rinv_0_lt_compat. lra. }
  assert (Hsq : 1 + (ns / ds) ^ 2 <= g ^ 2).
  { rewrite Hg.
    replace (1 + (ns / ds) ^ 2)
      with (((dc * ds) * (dc * ds) + (ns * dc) * (ns * dc))
            / ((dc * ds) ^ 2)) by (field; lra).
    replace (((/ 2 * x ^ 2 * dc - nc) / - dc) ^ 2)
      with (((/ 2 * x ^ 2 * dc - nc) * ds * ((/ 2 * x ^ 2 * dc - nc) * ds))
            / ((dc * ds) ^ 2)) by (field; lra).
    assert (0 < / (dc * ds) ^ 2).
    { apply Rinv_0_lt_compat, pow_lt. nra. }
    unfold Rdiv. apply Rmult_le_compat_r; lra. }
  assert (Hle : cosh x ^ 2 <= g ^ 2).
  { rewrite Hcs. assert (sinh x ^ 2 <= (ns / ds) ^ 2) by nra. lra. }
  enough (cosh x <= g) by (unfold g in *; lra).
  destruct (Rle_dec (cosh x) g) as [|Hn]; [done|]. nra.
Qed.

Lemma cosh_exact_even (x : R) :
  FMA.cosh (FT := exact) (- x) = FMA.cosh (FT := exact) x.
Proof.
  cbv [FMA.cosh FMA.cosh_numerator FMA.cosh_denominator fromZ fadd fmul fopp
       fdiv exact].
  by replace (- x * - x) with (x * x) by ring.
Qed.

Lemma cosh_even (x : R) : cosh (- x) = cosh x.
Proof. unfold cosh. rewrite Ropp_involutive. lra. Qed.

(** X20.  In exact arithmetic, on the whole documented range [-5, 5] the
    approximation of [cosh] exceeds [cosh] by at least half the square of
    the input. *)
Theorem cosh_error_quadratic (x : R) :
  -5 <= x <= 5 -> x ^ 2 / 2 <= FMA.cosh (FT := exact) x - cosh x.
Proof.
  intros Hx. destruct (Rle_dec 0 x) as [Hp|Hn].
  - apply cosh_error_nonneg_input. lra.
  - pose proof (cosh_error_nonneg_input (- x) ltac:(lra)) as H.
    rewrite cosh_exact_even, cosh_even in H.
    replace ((- x) ^ 2) with (x ^ 2) in H by ring. exact H.
Qed.

Lemma cosh_error_quadratic_witness :
  -5 <= 1 <= 5 /\ 1 ^ 2 / 2 <= FMA.cosh (FT := exact) 1 - cosh 1.
Proof.
  assert (H : -5 <= 1 <= 5) by lra.
  split; [exact H|]. exact (cosh_error_quadratic 1 H).
Defined.

End CoshExcess.

(** ** Ranges of the results, signs, zeros, special values *)

Section Ranges.
Local Open Scope R_scope.

Lemma peval_positive_coefficients (cs : list Q) (t : R) :
  positive_coefficients cs = true -> 0 <= t -> 0 < peval cs t.
Proof.
  destruct cs as [|c cs]; [discriminate|]. cbn [positive_coefficients peval].
  intros H Ht. apply andb_prop in H as [Hc Hcs].
  apply Qpositive_sound in Hc.
  pose proof (peval_nonneg_coefficients cs t Hcs Ht). nra.
Qed.

(** A polynomial whose expansion at [l] has positive coefficients is
    positive from [l] on. *)
Lemma positive_from (cs : list Q) (l : Q) (x : R) :
  positive_coefficients (pshift l cs) = true -> Q2R l <= x -> 0 < peval cs x.
Proof.
  intros Hc Hx.
  pose proof (peval_positive_coefficients _ (x - Q2R l) Hc ltac:(lra)) as H.
  rewrite peval_pshift in H.
  by replace (Q2R l + (x - Q2R l)) with x in H by ring.
Qed.

Lemma tanh_below_one (x : R) :
  0 <= x <= 497 / 100 -> 0 <= FMA.tanh (FT := exact) x < 1.
Proof.
  intros Hx. pose proof (tanh_denominator_positive x) as HD.
  assert (Hp : 0 < peval tanh_difference_poly x).
  { apply (positive_on_sound 20 _ 0%Q (Qmake 497 100)); [by vm_compute|].
    rewrite Q2R_0. unfold Q2R; cbn [Qnum Qden]. lra. }
  rewrite tanh_difference_is_poly in Hp.
  pose proof (tanh_nonneg x ltac:(lra)). pose proof (tanh_below x ltac:(lra)).
  split; [lra|].
  change (FMA.tanh (FT := exact) x)
    with (FMA.tanh_numerator (FT := exact) x
          / FMA.tanh_denominator (FT := exact) x).
  apply (Rmult_lt_reg_r (FMA.tanh_denominator (FT := exact) x)); [done|].
  unfold Rdiv. rewrite Rmult_assoc, Rinv_l; lra.
Qed.

Lemma tanh_above_one (x : R) :
  498 / 100 <= x -> 1 < FMA.tanh (FT := exact) x.
Proof.
  intros Hx. pose proof (tanh_denominator_positive x) as HD.
  assert (Hp : 0 < peval (pscale (-1) tanh_difference_poly) x).
  { apply (positive_from _ (Qmake 498 100)); [by vm_compute|].
    unfold Q2R; cbn [Qnum Qden]. lra. }
  rewrite peval_pscale, tanh_difference_is_poly, Q2R_m1 in Hp.
  change (FMA.tanh (FT := exact) x)
    with (FMA.tanh_numerator (FT := exact) x
          / FMA.tanh_denominator (FT := exact) x).
  apply (Rmult_lt_reg_r (FMA.tanh_denominator (FT := exact) x)); [done|].
  unfold Rdiv. rewrite Rmult_assoc, Rinv_l; lra.
Qed.

(** X18.  In exact arithmetic the approximation of [tanh] stays strictly
    between -1 and 1 for inputs of absolute value up to 4.97 and is outside
    [-1, 1] for every input of absolute value 4.98 or more, which the
    documented range [-5, 5] includes: there the result is not a value that
    [tanh] takes. *)
Theorem tanh_overshoot (x : R) :
  (- (497 / 100) <= x <= 497 / 100 -> -1 < FMA.tanh (FT := exact) x < 1) /\
  (498 / 100 <= x -> 1 < FMA.tanh (FT := exact) x) /\
  (x <= - (498 / 100) -> FMA.tanh (FT := exact) x < -1).
Proof.
  split_and!.
  - intros Hx. destruct (Rle_dec 0 x) as [Hp|Hn].
    + pose proof (tanh_below_one x ltac:(lra)). lra.
    + pose proof (tanh_below_one (- x) ltac:(lra)) as H.
      rewrite tanh_exact_odd in H. lra.
  - apply tanh_above_one.
  - intros Hx. pose proof (tanh_above_one (- x) ltac:(lra)) as H.
    rewrite tanh_exact_odd in H. lra.
Qed.

Lemma cos_at_most_one (x : R) : FMA.cos (FT := exact) x <= 1.
Proof.
  pose proof (cos_denominator_positive x) as HD.
  change (FMA.cos (FT := exact) x)
    with (FMA.cos_numerator (FT := exact) x
          / FMA.cos_denominator (FT := exact) x).
  apply quotient_upper; [done|]. revert HD.
  cbv [FMA.cos_numerator FMA.cos_denominator fromZ fadd fmul fopp exact].
  intros _. pose proof (Rle_0_sqr x) as Hy. unfold Rsqr in Hy.
  set (y := x * x) in *.
  assert (0 <= 14742 * (y * y) - 1058400 * y + 19625760).
  { replace (14742 * (y * y) - 1058400 * y + 19625760)
      with (14742 * (y - 529200 / 14742) ^ 2
            + (19625760 - 529200 * 529200 / 14742)) by field.
    pose proof (pow2_ge_0 (y - 529200 / 14742)). lra. }
  nra.
Qed.

Lemma cos_above_minus_one (x : R) :
  0 <= x <= 3129 / 1000 -> -1 < FMA.cos (FT := exact) x.
Proof.
  intros Hx. pose proof (cos_denominator_positive x) as HD.
  assert (Hp : 0 < peval (padd cos_numerator_poly cos_denominator_poly) x).
  { apply (positive_on_sound 24 _ 0%Q (Qmake 3129 1000)); [by vm_compute|].
    rewrite Q2R_0. unfold Q2R; cbn [Qnum Qden]. lra. }
  rewrite peval_padd, <- cos_numerator_is_poly, <- cos_denominator_is_poly
    in Hp.
  change (FMA.cos (FT := exact) x)
    with (FMA.cos_numerator (FT := exact) x
          / FMA.cos_denominator (FT := exact) x).
  apply (Rmult_lt_reg_r (FMA.cos_denominator (FT := exact) x)); [done|].
  unfold Rdiv. rewrite Rmult_assoc, Rinv_l; lra.
Qed.

Lemma cos_below_minus_one (x : R) :
  313 / 100 <= x <= PI -> FMA.cos (FT := exact) x < -1.
Proof.
  intros Hx. pose proof (cos_denominator_positive x) as HD.
  pose proof PI_upper_bound as HPI.
  assert (Hp : 0 < peval (pscale (-1)
                         (padd cos_numerator_poly cos_denominator_poly)) x).
  { apply (positive_on_sound 24 _ (Qmake 313 100)
             (Qmake 115926537 10000000000)); [by vm_compute|].
    unfold Q2R; cbn [Qnum Qden]. lra. }
  rewrite peval_pscale, peval_padd, <- cos_numerator_is_poly,
    <- cos_denominator_is_poly, Q2R_m1 in Hp.
  change (FMA.cos (FT := exact) x)
    with (FMA.cos_numerator (FT := exact) x
          / FMA.cos_denominator (FT := exact) x).
  apply (Rmult_lt_reg_r (FMA.cos_denominator (FT := exact) x)); [done|].
  unfold Rdiv. rewrite Rmult_assoc, Rinv_l; lra.
Qed.

Lemma tanh_overshoot_witness :
  498 / 100 <= 5 /\ 1 < FMA.tanh (FT := exact) 5.
Proof.
  assert (H : 498 / 100 <= 5) by lra.
  split; [exact H|]. exact (proj1 (proj2 (tanh_overshoot 5)) H).
Defined.

(** X11.  In exact arithmetic the approximation of the cosine is at most 1
    at every input; it stays above -1 for inputs of absolute value up to
    3.129 and is below -1 from 3.13 to the end [PI] of the documented
    range, on both sides. *)
Theorem cos_overshoot (x : R) :
  FMA.cos (FT := exact) x <= 1 /\
  (- (3129 / 1000) <= x <= 3129 / 1000 -> -1 < FMA.cos (FT := exact) x) /\
  (313 / 100 <= x <= PI -> FMA.cos (FT := exact) x < -1) /\
  (- PI <= x <= - (313 / 100) -> FMA.cos (FT := exact) x < -1).
Proof.
  split_and!.
  - apply cos_at_most_one.
  - intros Hx. destruct (Rle_dec 0 x) as [Hp|Hn].
    + apply cos_above_minus_one. lra.
    + rewrite <- cos_exact_even. apply cos_above_minus_one. lra.
  - apply cos_below_minus_one.
  - intros Hx. rewrite <- cos_exact_even. apply cos_below_minus_one. lra.
Qed.

Lemma cos_overshoot_witness :
  313 / 100 <= 314 / 100 <= PI /\ FMA.cos (FT := exact) (314 / 100) < -1.
Proof.
  assert (H : 313 / 100 <= 314 / 100 <= PI)
    by (pose proof PI_18_digits; lra).
  split; [exact H|].
  exact (proj1 (proj2 (proj2 (cos_overshoot (314 / 100)))) H).
Defined.

End Ranges.

Section ZerosAndSigns.
Local Open Scope R_scope.

Lemma cosh_denominator_zero :
  exists x : R, 802 / 100 <= x <= 803 / 100 /\
    FMA.cosh_denominator (FT := exact) x = 0.
Proof.
  destruct (IVT_cor (FMA.cosh_denominator (FT := exact)) (802 / 100)
              (803 / 100)) as [z Hz].
  - cbv [FMA.cosh_denominator fromZ fadd fmul fopp exact]. reg.
  - lra.
  - cbv [FMA.cosh_denominator fromZ fadd fmul fopp exact]. nra.
  - by exists z.
Qed.

Lemma sinh_denominator_zero :
  exists x : R, 904 / 100 <= x <= 905 / 100 /\
    FMA.sinh_denominator (FT := exact) x = 0.
Proof.
  destruct (IVT_cor (FMA.sinh_denominator (FT := exact)) (904 / 100)
              (905 / 100)) as [z Hz].
  - cbv [FMA.sinh_denominator fromZ fadd fmul fopp exact]. reg.
  - lra.
  - cbv [FMA.sinh_denominator fromZ fadd fmul fopp exact]. nra.
  - by exists z.
Qed.

Lemma tan_denominator_zero :
  exists x : R, PI / 2 < x <= 15707963296 / 10000000000 /\
    FMA.tan_denominator (FT := exact) x = 0.
Proof.
  destruct (IVT_cor (FMA.tan_denominator (FT := exact)) tan_edge
              (15707963296 / 10000000000)) as [z [Hz Hz']].
  - cbv [FMA.tan_denominator fromZ fadd fmul fopp exact]. reg.
  - unfold tan_edge. lra.
  - cbv [FMA.tan_denominator fromZ fadd fmul fopp exact tan_edge]. nra.
  - exists z. pose proof PI_upper_bound. unfold tan_edge in Hz.
    split; [lra|done].
Qed.

(** X6.  In exact arithmetic the denominators of [tanh], [cos], [sin] and
    [exp] vanish at no real input, so these four quotients are defined
    everywhere.  Those of [cosh], [sinh], [tan] and [logNPlusOne] vanish
    outside the documented ranges: between 8.02 and 8.03, between 9.04 and
    9.05, between [PI / 2] and 1.5707963296 (within 3e-9 of the end of the
    range of [tan]), and at -2, where in [double] and in [float] the
    quotient is the infinity of negative sign. *)
Theorem denominator_zeros :
  (forall (fn : FMA.approximation) (x : R),
     fn = FMA.Tanh \/ fn = FMA.Cos \/ fn = FMA.Sin \/ fn = FMA.Exp ->
     FMA.denominator (FT := exact) fn x <> 0) /\
  (exists x : R, 802 / 100 <= x <= 803 / 100 /\
     FMA.denominator (FT := exact) FMA.Cosh x = 0) /\
  (exists x : R, 904 / 100 <= x <= 905 / 100 /\
     FMA.denominator (FT := exact) FMA.Sinh x = 0) /\
  (exists x : R, PI / 2 < x <= 15707963296 / 10000000000 /\
     FMA.denominator (FT := exact) FMA.Tan x = 0) /\
  FMA.denominator (FT := exact) FMA.LogNPlusOne (-2) = 0 /\
  FMA.scalar (FT := binary64) FMA.LogNPlusOne
    (fromZ (FloatType := binary64) (-2))
    = S754_infinity true /\
  FMA.scalar (FT := binary32) FMA.LogNPlusOne
    (fromZ (FloatType := binary32) (-2))
    = S754_infinity true.
Proof.
  split_and!.
  - intros fn x [-> | [-> | [-> | ->]]]; simpl; apply Rgt_not_eq.
    + apply tanh_denominator_positive.
    + apply cos_denominator_positive.
    + apply sin_denominator_positive.
    + apply exp_denominator_positive.
  - apply cosh_denominator_zero.
  - apply sinh_denominator_zero.
  - apply tan_denominator_zero.
  - cbv [FMA.denominator FMA.logNPlusOne_denominator fromZ fadd fmul fopp
         exact]. lra.
  - by vm_compute.
  - by vm_compute.
Qed.

Lemma denominator_zeros_witness :
  (FMA.Exp = FMA.Tanh \/ FMA.Exp = FMA.Cos \/ FMA.Exp = FMA.Sin
   \/ FMA.Exp = FMA.Exp) /\
  FMA.denominator (FT := exact) FMA.Exp 1 <> 0.
Proof.
  assert (H : FMA.Exp = FMA.Tanh \/ FMA.Exp = FMA.Cos \/ FMA.Exp = FMA.Sin
              \/ FMA.Exp = FMA.Exp) by (right; right; right; reflexivity).
  split; [exact H|]. exact (proj1 denominator_zeros FMA.Exp 1 H).
Defined.

Lemma sinh_sign (x : R) : 0 < x <= 5 -> 0 < FMA.sinh (FT := exact) x.
Proof.
  intros Hx. pose proof (sinh_below_approximation x ltac:(lra)).
  pose proof (sinh_lt 0 x ltac:(lra)) as H0. rewrite sinh_0 in H0. lra.
Qed.

Lemma tanh_sign (x : R) : 0 < x -> 0 < FMA.tanh (FT := exact) x.
Proof.
  intros Hx. pose proof (tanh_below x ltac:(lra)).
  enough (0 < tanh x) by lra.
  rewrite tanh_exp. pose proof (exp_increasing 0 (2 * x) ltac:(lra)) as H0.
  rewrite exp_0 in H0. apply Rmult_lt_0_compat; [lra|].
  apply Rinv_0_lt_compat. lra.
Qed.

Lemma tan_sign_positive (x : R) :
  0 < x <= PI / 2 -> 0 < FMA.tan (FT := exact) x.
Proof.
  intros Hx. pose proof PI_upper_bound.
  pose proof (tan_denominator_negative x ltac:(lra)) as HD.
  assert (HN : FMA.tan_numerator (FT := exact) x < 0).
  { assert (Hb : - (16 / 10) <= x <= 16 / 10) by lra.
    apply square_bound in Hb.
    cbv [FMA.tan_numerator fromZ fadd fmul fopp exact].
    set (y := x * x) in *.
    assert (-135135 + y * (17325 + y * (-378 + y)) < 0) by nra.
    nra. }
  change (FMA.tan (FT := exact) x)
    with (FMA.tan_numerator (FT := exact) x
          / FMA.tan_denominator (FT := exact) x).
  set (n := FMA.tan_numerator (FT := exact) x) in *.
  set (d := FMA.tan_denominator (FT := exact) x) in *.
  replace (n / d) with ((- n) * / (- d)) by (field; lra).
  apply Rmult_lt_0_compat; [lra|]. apply Rinv_0_lt_compat. lra.
Qed.

Lemma logNPlusOne_sign (x : R) :
  -8 / 10 <= x <= 5 ->
  (0 < x -> 0 < FMA.logNPlusOne (FT := exact) x) /\
  (x < 0 -> FMA.logNPlusOne (FT := exact) x < 0).
Proof.
  intros Hx. pose proof (logNPlusOne_denominator_positive x Hx) as HD.
  assert (HF : 0 < 7560 + x * (15120 + x * (9870 + x * (2310 + x * 137)))).
  { destruct (Rle_dec 0 x) as [Hpos|Hneg]; [nra|].
    assert (H1 : 2200 <= 2310 + x * 137 <= 2310) by lra.
    assert (H2 : 8022 <= 9870 + x * (2310 + x * 137) <= 9870) by nra.
    assert (H3 : 7224 <= 15120 + x * (9870 + x * (2310 + x * 137)) <= 15120)
      by nra.
    nra. }
  change (FMA.logNPlusOne (FT := exact) x)
    with (FMA.logNPlusOne_numerator (FT := exact) x
          / FMA.logNPlusOne_denominator (FT := exact) x).
  apply Rinv_0_lt_compat in HD.
  set (d := / FMA.logNPlusOne_denominator (FT := exact) x) in *.
  unfold Rdiv. fold d.
  cbv [FMA.logNPlusOne_numerator fromZ fadd fmul fopp exact].
  set (f := 7560 + x * (15120 + x * (9870 + x * (2310 + x * 137)))) in *.
  split; intros H.
  - apply Rmult_lt_0_compat; [apply Rmult_lt_0_compat|]; lra.
  - assert (0 < - x * f * d)
      by (apply Rmult_lt_0_compat; [apply Rmult_lt_0_compat|]; lra).
    lra.
Qed.

(** X7.  In exact arithmetic, on their documented ranges the approximations
    of [sinh], [tanh], [tan] and [ln (1 + x)] have the sign of the input:
    positive for a positive input, negative for a negative one. *)
Theorem sign_of_input (fn : FMA.approximation) (x : R) :
  fn = FMA.Sinh \/ fn = FMA.Tanh \/ fn = FMA.Tan \/ fn = FMA.LogNPlusOne ->
  in_domain fn x ->
  (0 < x -> 0 < FMA.scalar (FT := exact) fn x) /\
  (x < 0 -> FMA.scalar (FT := exact) fn x < 0).
Proof.
  intros [-> | [-> | [-> | ->]]] Hx; cbn [in_domain] in Hx; cbn [FMA.scalar].
  - split; intros H; [apply sinh_sign; lra|].
    pose proof (sinh_sign (- x) ltac:(lra)) as Hs.
    rewrite sinh_exact_odd in Hs. lra.
  - split; intros H; [by apply tanh_sign|].
    pose proof (tanh_sign (- x) ltac:(lra)) as Hs.
    rewrite tanh_exact_odd in Hs. lra.
  - split; intros H; [apply tan_sign_positive; lra|].
    pose proof (tan_sign_positive (- x) ltac:(lra)) as Hs.
    rewrite tan_exact_odd in Hs. lra.
  - by apply logNPlusOne_sign.
Qed.

Lemma sign_of_input_witness :
  (FMA.LogNPlusOne = FMA.Sinh \/ FMA.LogNPlusOne = FMA.Tanh
   \/ FMA.LogNPlusOne = FMA.Tan \/ FMA.LogNPlusOne = FMA.LogNPlusOne) /\
  in_domain FMA.LogNPlusOne 1 /\
  (0 < 1 -> 0 < FMA.scalar (FT := exact) FMA.LogNPlusOne 1) /\
  (1 < 0 -> FMA.scalar (FT := exact) FMA.LogNPlusOne 1 < 0).
Proof.
  assert (H : FMA.LogNPlusOne = FMA.Sinh \/ FMA.LogNPlusOne = FMA.Tanh
              \/ FMA.LogNPlusOne = FMA.Tan
              \/ FMA.LogNPlusOne = FMA.LogNPlusOne)
    by (right; right; right; reflexivity).
  assert (Hd : in_domain FMA.LogNPlusOne 1) by (cbn [in_domain]; lra).
  split; [exact H|]. split; [exact Hd|].
  exact (sign_of_input FMA.LogNPlusOne 1 H Hd).
Defined.

(** X9.  In exact arithmetic the approximation of the sine changes sign
    inside the documented range, before [PI]: it is positive for inputs
    from 0 up to 3.14158 and negative from 3.14159 to [PI], where the sine
    is not negative. *)
Theorem sin_sign_change (x : R) :
  (0 < x <= 314158 / 100000 -> 0 < FMA.sin (FT := exact) x) /\
  (314159 / 100000 <= x <= PI -> FMA.sin (FT := exact) x < 0).
Proof.
  pose proof (sin_denominator_positive x) as HD.
  apply Rinv_0_lt_compat in HD.
  change (FMA.sin (FT := exact) x)
    with (FMA.sin_numerator (FT := exact) x
          * / FMA.sin_denominator (FT := exact) x).
  rewrite sin_numerator_is_poly.
  rewrite (peval_low_zero 1 sin_numerator_poly x) by (by vm_compute).
  split; intros Hx.
  - assert (Hp : 0 < peval (drop 1 sin_numerator_poly) x).
    { apply (positive_on_sound 30 _ 0%Q (Qmake 314158 100000));
        [by vm_compute|].
      rewrite Q2R_0. unfold Q2R; cbn [Qnum Qden]. lra. }
    apply Rmult_lt_0_compat; [|done]. apply Rmult_lt_0_compat; lra.
  - pose proof PI_upper_bound as HPI.
    assert (Hp : 0 < peval (pscale (-1) (drop 1 sin_numerator_poly)) x).
    { apply (positive_on_sound 30 _ (Qmake 314159 100000)
               (Qmake 26537 10000000000)); [by vm_compute|].
      unfold Q2R; cbn [Qnum Qden]. lra. }
    rewrite peval_pscale, Q2R_m1 in Hp.
    set (q := peval (drop 1 sin_numerator_poly) x) in *.
    set (d := / FMA.sin_denominator (FT := exact) x) in *.
    assert (x ^ 1 * q < 0) by nra. nra.
Qed.

Lemma sin_sign_change_witness :
  0 < 1 <= 314158 / 100000 /\ 0 < FMA.sin (FT := exact) 1.
Proof.
  assert (H : 0 < 1 <= 314158 / 100000) by lra.
  split; [exact H|]. exact (proj1 (sin_sign_change 1) H).
Defined.

End ZerosAndSigns.

(** X5.  In [double] and in [float] arithmetic each of the eight scalar
    forms returns NaN when its input is an infinity or NaN; in particular
    the approximation of [tanh] at an infinity is NaN, not 1 or -1. *)
Theorem non_finite_input_gives_nan (fn : FMA.approximation) (x : spec_float) :
  is_non_finite x = true ->
  FMA.scalar (FT := binary64) fn x = S754_nan /\
  FMA.scalar (FT := binary32) fn x = S754_nan.
Proof.
  destruct x as [s|s| |s m e]; try discriminate; intros _;
    try destruct s; destruct fn; split; by vm_compute.
Qed.

Lemma non_finite_input_gives_nan_witness :
  is_non_finite (S754_infinity false) = true /\
  FMA.scalar (FT := binary64) FMA.Tanh (S754_infinity false) = S754_nan /\
  FMA.scalar (FT := binary32) FMA.Tanh (S754_infinity false) = S754_nan.
Proof.
  split; [reflexivity|].
  exact (non_finite_input_gives_nan FMA.Tanh (S754_infinity false) eq_refl).
Defined.

(** ** Monotonicity of the approximations *)

Section Monotone.
Local Open Scope R_scope.

(** A function whose derivative is positive inside [a, b] increases
    there. *)
Lemma increasing_on (f f' : R -> R) (a b : R) :
  (forall c, a <= c <= b -> derivable_pt_lim f c (f' c)) ->
  (forall c, a < c < b -> 0 < f' c) ->
  forall x y, a <= x -> x < y -> y <= b -> f x < f y.
Proof.
  intros Hd Hs x y Hax Hxy Hyb.
  destruct (MVT_cor2 f f' x y) as [c [Hc Hin]]; [lra| |].
  - intros c Hc. apply Hd. lra.
  - specialize (Hs c ltac:(lra)). nra.
Qed.

(** The same for a quotient of polynomials, from the sign of the numerator
    of its derivative. *)
Lemma quotient_increasing_inside (n d : list Q) (a b x y : R) :
  (forall c, a <= c <= b -> peval d c <> 0) ->
  (forall c, a < c < b -> 0 < peval (slope_poly n d) c) ->
  a <= x -> x < y -> y <= b ->
  peval n x / peval d x < peval n y / peval d y.
Proof.
  intros Hd Hp Hx Hxy Hy.
  apply (increasing_on (peval n / peval d)%F
           (fun c => (peval (pderiv n) c * peval d c
                      - peval (pderiv d) c * peval n c) / Rsqr (peval d c))
           a b); try done.
  - intros c Hc. apply derivable_pt_lim_div;
      try apply derivable_pt_lim_peval. by apply Hd.
  - intros c Hc. pose proof (Hp c Hc) as Hs.
    unfold slope_poly in Hs. rewrite peval_psub, !peval_pmul in Hs.
    specialize (Hd c ltac:(lra)).
    apply Rmult_lt_0_compat; [done|].
    apply Rinv_0_lt_compat. unfold Rsqr.
    destruct (Rtotal_order (peval d c) 0) as [H|[H|H]]; [nra|done|nra].
Qed.

(** A quotient of polynomials increases on an interval where the
    denominator has no zero and the numerator of the derivative is
    positive. *)
Lemma quotient_increasing (n d : list Q) (depth : nat) (l h : Q) (x y : R) :
  positive_on depth (slope_poly n d) l h = true ->
  (forall c, Q2R l <= c <= Q2R l + Q2R h -> peval d c <> 0) ->
  Q2R l <= x -> x < y -> y <= Q2R l + Q2R h ->
  peval n x / peval d x < peval n y / peval d y.
Proof.
  intros Hp Hd. apply quotient_increasing_inside; [done|].
  intros c Hc. apply (positive_on_sound _ _ _ _ c Hp). lra.
Qed.

End Monotone.

(** X21.  In exact arithmetic the approximations of [sinh], [tanh], [tan],
    [exp] and [ln (1 + x)] are strictly increasing on their documented
    ranges, as the functions they approximate. *)
Theorem increasing_on_range (fn : FMA.approximation) (x y : R) :
  fn = FMA.Sinh \/ fn = FMA.Tanh \/ fn = FMA.Tan \/ fn = FMA.Exp
  \/ fn = FMA.LogNPlusOne ->
  in_domain fn x -> in_domain fn y -> (x < y)%R ->
  (FMA.scalar (FT := exact) fn x < FMA.scalar (FT := exact) fn y)%R.
Proof.
  intros [-> | [-> | [-> | [-> | ->]]]] Hx Hy Hxy;
    cbn [in_domain] in Hx, Hy; cbn [FMA.scalar].
  - change (FMA.sinh (FT := exact) x)
      with (FMA.sinh_numerator x / FMA.sinh_denominator x)%R.
    change (FMA.sinh (FT := exact) y)
      with (FMA.sinh_numerator y / FMA.sinh_denominator y)%R.
    rewrite !sinh_numerator_is_poly, !sinh_denominator_is_poly.
    apply (quotient_increasing _ _ 20 (-5) 10); [by vm_compute| | | |].
    + intros c Hc. rewrite <- sinh_denominator_is_poly.
      apply Rlt_not_eq, sinh_denominator_negative.
      revert Hc. unfold Q2R; cbn [Qnum Qden]. lra.
    + unfold Q2R; cbn [Qnum Qden]. lra.
    + done.
    + unfold Q2R; cbn [Qnum Qden]. lra.
  - change (FMA.tanh (FT := exact) x)
      with (FMA.tanh_numerator x / FMA.tanh_denominator x)%R.
    change (FMA.tanh (FT := exact) y)
      with (FMA.tanh_numerator y / FMA.tanh_denominator y)%R.
    rewrite !tanh_numerator_is_poly, !tanh_denominator_is_poly.
    apply (quotient_increasing _ _ 20 (-5) 10); [by vm_compute| | | |].
    + intros c Hc. rewrite <- tanh_denominator_is_poly.
      apply Rgt_not_eq, tanh_denominator_positive.
    + unfold Q2R; cbn [Qnum Qden]. lra.
    + done.
    + unfold Q2R; cbn [Qnum Qden]. lra.
  - pose proof PI_18_digits as HPI.
    change (FMA.tan (FT := exact) x)
      with (FMA.tan_numerator x / FMA.tan_denominator x)%R.
    change (FMA.tan (FT := exact) y)
      with (FMA.tan_numerator y / FMA.tan_denominator y)%R.
    rewrite !tan_numerator_is_poly, !tan_denominator_is_poly.
    apply (quotient_increasing _ _ 20 (Qmake (-53972150819) 34359738368)
             (Qmake 53972150819 17179869184)); [by vm_compute| | | |].
    + intros c Hc. rewrite <- tan_denominator_is_poly.
      apply Rlt_not_eq, tan_denominator_negative_edge.
      revert Hc. unfold tan_edge, Q2R; cbn [Qnum Qden]. lra.
    + unfold Q2R; cbn [Qnum Qden]. lra.
    + done.
    + unfold Q2R; cbn [Qnum Qden]. lra.
  - rewrite !exp_is_quotient.
    rewrite !exp_numerator_is_poly, !exp_denominator_is_poly.
    apply (quotient_increasing _ _ 20 (-6) 10); [by vm_compute| | | |].
    + intros c Hc. rewrite <- exp_denominator_is_poly.
      apply Rgt_not_eq, exp_denominator_positive.
    + unfold Q2R; cbn [Qnum Qden]. lra.
    + done.
    + unfold Q2R; cbn [Qnum Qden]. lra.
  - change (FMA.logNPlusOne (FT := exact) x)
      with (FMA.logNPlusOne_numerator x / FMA.logNPlusOne_denominator x)%R.
    change (FMA.logNPlusOne (FT := exact) y)
      with (FMA.logNPlusOne_numerator y / FMA.logNPlusOne_denominator y)%R.
    rewrite !logNPlusOne_numerator_is_poly, !logNPlusOne_denominator_is_poly.
    apply (quotient_increasing _ _ 20 (Qmake (-8) 10) (Qmake 58 10));
      [by vm_compute| | | |].
    + intros c Hc. rewrite <- logNPlusOne_denominator_is_poly.
      apply Rgt_not_eq, logNPlusOne_denominator_positive.
      revert Hc. unfold Q2R; cbn [Qnum Qden]. lra.
    + unfold Q2R; cbn [Qnum Qden]. lra.
    + done.
    + unfold Q2R; cbn [Qnum Qden]. lra.
Qed.

(** X22.  In exact arithmetic the approximation of the cosine is strictly
    decreasing on [0, PI], and the approximation of the sine is strictly
    increasing on [-1.5707, 1.5707]. *)
Theorem cos_decreasing_sin_increasing (x y : R) :
  (0 <= x -> x < y -> y <= PI ->
   FMA.cos (FT := exact) y < FMA.cos (FT := exact) x)%R /\
  (- (15707 / 10000) <= x -> x < y -> y <= 15707 / 10000 ->
   FMA.sin (FT := exact) x < FMA.sin (FT := exact) y)%R.
Proof.
  split; intros Hx Hxy Hy.
  - pose proof PI_upper_bound as HPI.
    change (FMA.cos (FT := exact) x)
      with (FMA.cos_numerator x / FMA.cos_denominator x)%R.
    change (FMA.cos (FT := exact) y)
      with (FMA.cos_numerator y / FMA.cos_denominator y)%R.
    rewrite !cos_numerator_is_poly, !cos_denominator_is_poly.
    pose proof (quotient_increasing_inside (pscale (-1) cos_numerator_poly)
                  cos_denominator_poly 0 (Q2R PI_up) x y) as H.
    rewrite !peval_pscale, Q2R_m1, Q2R_PI_up in H.
    enough (-1 * peval cos_numerator_poly x / peval cos_denominator_poly x
            < -1 * peval cos_numerator_poly y
              / peval cos_denominator_poly y)%R
      by (unfold Rdiv in *; lra).
    apply H; try lra.
    + intros c Hc. rewrite <- cos_denominator_is_poly.
      apply Rgt_not_eq, cos_denominator_positive.
    + intros c Hc.
      rewrite (peval_low_zero 1) by (by vm_compute).
      apply Rmult_lt_0_compat; [lra|].
      apply (positive_on_sound 20 _ 0%Q PI_up); [by vm_compute|].
      rewrite Q2R_0, Q2R_PI_up. lra.
  - change (FMA.sin (FT := exact) x)
      with (FMA.sin_numerator x / FMA.sin_denominator x)%R.
    change (FMA.sin (FT := exact) y)
      with (FMA.sin_numerator y / FMA.sin_denominator y)%R.
    rewrite !sin_numerator_is_poly, !sin_denominator_is_poly.
    apply (quotient_increasing _ _ 20 (Qmake (-15707) 10000)
             (Qmake 15707 5000)); [by vm_compute| | | |].
    + intros c Hc. rewrite <- sin_denominator_is_poly.
      apply Rgt_not_eq, sin_denominator_positive.
    + unfold Q2R; cbn [Qnum Qden]. lra.
    + done.
    + unfold Q2R; cbn [Qnum Qden]. lra.
Qed.

Lemma cos_decreasing_sin_increasing_witness :
  (0 <= 1)%R /\ (1 < 2)%R /\ (2 <= PI)%R /\
  (FMA.cos (FT := exact) 2 < FMA.cos (FT := exact) 1)%R.
Proof.
  assert (H0 : (0 <= 1)%R) by lra.
  assert (H1 : (1 < 2)%R) by lra.
  assert (H2 : (2 <= PI)%R) by (pose proof PI_18_digits; lra).
  split; [exact H0|]. split; [exact H1|]. split; [exact H2|].
  exact (proj1 (cos_decreasing_sin_increasing 1%R 2%R) H0 H1 H2).
Defined.

Lemma increasing_on_range_witness :
  (FMA.Exp = FMA.Sinh \/ FMA.Exp = FMA.Tanh \/ FMA.Exp = FMA.Tan
   \/ FMA.Exp = FMA.Exp \/ FMA.Exp = FMA.LogNPlusOne) /\
  in_domain FMA.Exp 0%R /\ in_domain FMA.Exp 1%R /\ (0 < 1)%R /\
  (FMA.scalar (FT := exact) FMA.Exp 0 < FMA.scalar (FT := exact) FMA.Exp 1)%R.
Proof.
  assert (H : FMA.Exp = FMA.Sinh \/ FMA.Exp = FMA.Tanh \/ FMA.Exp = FMA.Tan
              \/ FMA.Exp = FMA.Exp \/ FMA.Exp = FMA.LogNPlusOne)
    by (right; right; right; left; reflexivity).
  assert (H0 : in_domain FMA.Exp 0%R) by (cbn [in_domain]; lra).
  assert (H1 : in_domain FMA.Exp 1%R) by (cbn [in_domain]; lra).
  assert (H01 : (0 < 1)%R) by lra.
  split; [exact H|]. split; [exact H0|]. split; [exact H1|].
  split; [exact H01|].
  exact (increasing_on_range FMA.Exp 0%R 1%R H H0 H1 H01).
Defined.
